(** * GophKeeper: envelope cipher, item repository and synchronisation

    A shallow embedding of the Go sources
      - [internal/crypto] (the envelope cipher),
      - [internal/models] (the item record),
      - [internal/storage/postgres.go] together with the schema of
        [migrations/001_init_schema.up.sql] (the item repository),
      - [internal/server] (the request handlers [UpdateItem] and [Sync]),
    followed by the properties of these functions.

    Conventions of the embedding.
      - [[]byte] is [list byte]; a Go [string] is a [string]; [int64] is a [Z]
        with the wrap-around of Go arithmetic written out where Go computes
        on it; [time.Time] is a [Z] counting nanoseconds since the Unix epoch;
        [map[string]string] is a [gmap string string].
      - A Go function returning [(T, error)] returns an [outcome T]; a
        function with a pointer receiver or argument returns the new value of
        what it mutates.
      - What the Go code takes from its environment is an explicit argument:
        the bytes of [rand.Reader], the readings of [time.Now()], the value
        of [uuid.New()], and the contents of the database.
      - The packages the code imports but does not contain (PBKDF2, AES-GCM)
        are an interface, [CryptoProvider], with their documented contract,
        [CryptoLaws]; [toy] is an executable test double of it.
      - The database is the two tables of the schema, rows in insertion
        order, with the key constraints of the schema (PRIMARY KEY, UNIQUE,
        REFERENCES) and the range of BIGINT checked by the statements that
        the Go code sends.  Before a statement is sent, [database/sql]
        converts its arguments and refuses a Go map.  Column widths, NOT NULL, the rounding of
        TIMESTAMP to microseconds and connection failures are outside the
        model. *)

From Stdlib Require Import ZArith NArith List String Strings.Byte Lia Bool DecimalString.
From stdpp Require Import base option list sorting gmap strings.

Local Open Scope Z_scope.

#[global] Instance byte_eq_dec : EqDecision byte := Byte.byte_eq_dec.

(** ** Results of Go calls *)

(** The [error] values that the modelled code can return. *)
Inductive error : Type :=
| ErrInvalidCiphertext        (* crypto: "invalid ciphertext" *)
| ErrDecryptionFailed         (* crypto: "decryption failed" *)
| KeySizeError (n : nat)      (* crypto/aes: invalid key size n *)
| io_EOF                      (* io.EOF *)
| io_ErrUnexpectedEOF         (* io.ErrUnexpectedEOF *)
| ErrUserNotFound             (* storage: "user not found" *)
| ErrUserAlreadyExists        (* storage: "user already exists" *)
| ErrItemNotFound             (* storage: "item not found" *)
| ErrVersionConflict          (* storage: "version conflict" *)
| pq_unique_violation (constraint : string)       (* SQLSTATE 23505 *)
| pq_foreign_key_violation (constraint : string)  (* SQLSTATE 23503 *)
| pq_numeric_value_out_of_range                   (* SQLSTATE 22003 *)
| sql_unsupported_type (ordinal : nat)
    (* database/sql: "sql: converting argument $ordinal type: unsupported
       type map[string]string, a map" *)
| fmt_Errorf_w (msg : string) (wrapped : error).   (* fmt.Errorf(msg + ": %w", wrapped) *)

(** A call returns a value, returns an error, or panics. *)
Inductive outcome (A : Type) : Type :=
| Ok (a : A)
| Err (e : error)
| Panic (msg : string).
Arguments Ok {A} a.
Arguments Err {A} e.
Arguments Panic {A} msg.

#[global] Instance error_eq_dec : EqDecision error.
Proof. intros x; induction x; intros []; try (right; discriminate);
  try (left; reflexivity).
  - destruct (decide (n = n0)); [left; congruence | right; congruence].
  - destruct (decide (constraint = constraint0)); [left; congruence | right; congruence].
  - destruct (decide (constraint = constraint0)); [left; congruence | right; congruence].
  - destruct (decide (ordinal = ordinal0)); [left; congruence | right; congruence].
  - destruct (decide (msg = msg0)); [| right; congruence].
    destruct (IHx wrapped); [left; congruence | right; congruence].
Defined.

(** [errors.Is(err, target)] for the errors above: [err], or an error it
    wraps, is [target]. *)
Fixpoint errors_Is (err target : error) : bool :=
  bool_decide (err = target) ||
  match err with
  | fmt_Errorf_w _ w => errors_Is w target
  | _ => false
  end.

(** ** Package crypto *)

Module crypto.

(** [KeySize] is the size of the encryption key in bytes. *)
Definition KeySize : nat := 32.
(** [SaltSize] is the size of the salt used in key derivation. *)
Definition SaltSize : nat := 32.
(** [NonceSize] is the size of the nonce used in AES-GCM. *)
Definition NonceSize : nat := 12.
(** [PBKDF2Iterations] is the number of iterations for PBKDF2. *)
Definition PBKDF2Iterations : N := 100000.

(** Constants of Go's [crypto/cipher] GCM: the tag appended by [Seal] and the
    longest plaintext [Seal] accepts, ((1<<32)-2) blocks of 16 bytes. *)
Definition gcmTagSize : nat := 16.
Definition gcmMaxPlaintext : N := ((2 ^ 32 - 2) * 16)%N.

(** The imported primitives.  [pbkdf2_Key password salt iter keyLen] is
    [pbkdf2.Key(password, salt, iter, keyLen, sha256.New)]; [gcm_Seal] and
    [gcm_Open] are the [Seal] and [Open] of the AEAD that
    [cipher.NewGCM(aes.NewCipher(key))] returns, with an empty destination. *)
Class CryptoProvider : Type := {
  pbkdf2_Key : list byte -> list byte -> N -> nat -> list byte;
  gcm_Seal : list byte -> list byte -> list byte -> list byte -> list byte;
  gcm_Open : list byte -> list byte -> list byte -> list byte -> option (list byte)
}.

(** The key sizes of AES. *)
Definition aes_key_size_ok (n : nat) : bool :=
  (n =? 16)%nat || (n =? 24)%nat || (n =? 32)%nat.

(** [rand.Reader] is the bytes it has yet to deliver; [io.ReadFull] of [n]
    bytes takes them from the front, and fails when they run out. *)
Definition Reader : Type := list byte.

Definition io_ReadFull (r : Reader) (n : nat) : outcome (list byte) * Reader :=
  if (n <=? length r)%nat then (Ok (take n r), drop n r)
  else match r with
       | [] => (Err io_EOF, [])
       | _ :: _ => (Err io_ErrUnexpectedEOF, [])
       end.

(** [aes.NewCipher(key)]: the block cipher is determined by its key. *)
Definition aes_NewCipher (key : list byte) : outcome (list byte) :=
  if aes_key_size_ok (length key) then Ok key
  else Err (KeySizeError (length key)).

(** [gcm.Seal(dst, nonce, plaintext, nil)] of the standard library: panics on
    a nonce of the wrong length and on a message too large, and appends the
    sealed message to [dst] otherwise. *)
Definition AEAD_Seal `{CryptoProvider} (block dst nonce plaintext : list byte)
  : outcome (list byte) :=
  if negb (length nonce =? NonceSize)%nat then
    Panic "crypto/cipher: incorrect nonce length given to GCM"
  else if (gcmMaxPlaintext <? N.of_nat (length plaintext))%N then
    Panic "crypto/cipher: message too large for GCM"
  else Ok (dst ++ gcm_Seal block nonce plaintext []).

(** [gcm.Open(nil, nonce, ciphertext, nil)]: [None] is the error of
    [Open], "cipher: message authentication failed". *)
Definition AEAD_Open `{CryptoProvider} (block nonce ciphertext : list byte)
  : outcome (option (list byte)) :=
  if negb (length nonce =? NonceSize)%nat then
    Panic "crypto/cipher: incorrect nonce length given to GCM"
  else Ok (gcm_Open block nonce ciphertext []).

(** [[]byte(s)]. *)
Definition bytes_of_string (s : string) : list byte := list_byte_of_string s.

(** [DeriveKey] derives an encryption key from a master password and salt
    using PBKDF2. *)
Definition DeriveKey `{CryptoProvider} (masterPassword : string) (salt : list byte)
  : list byte :=
  pbkdf2_Key (bytes_of_string masterPassword) salt PBKDF2Iterations KeySize.

(** [GenerateSalt] generates a random salt for key derivation. *)
Definition GenerateSalt (r : Reader) : outcome (list byte) * Reader :=
  io_ReadFull r SaltSize.

(** [Encrypt] encrypts plaintext using AES-256-GCM with the provided key. *)
Definition Encrypt `{CryptoProvider} (plaintext key : list byte) (r : Reader)
  : outcome (list byte) * Reader :=
  match aes_NewCipher key with
  | Err e => (Err e, r)
  | Panic m => (Panic m, r)
  | Ok block =>
      (* cipher.NewGCM(block) accepts every AES block cipher *)
      match io_ReadFull r NonceSize with
      | (Err e, r') => (Err e, r')
      | (Panic m, r') => (Panic m, r')
      | (Ok nonce, r') => (AEAD_Seal block nonce nonce plaintext, r')
      end
  end.

(** [Decrypt] decrypts ciphertext using AES-256-GCM with the provided key. *)
Definition Decrypt `{CryptoProvider} (ciphertext key : list byte)
  : outcome (list byte) :=
  match aes_NewCipher key with
  | Err e => Err e
  | Panic m => Panic m
  | Ok block =>
      if (length ciphertext <? NonceSize)%nat then Err ErrInvalidCiphertext
      else
        let nonce := take NonceSize ciphertext in
        let ciphertextData := drop NonceSize ciphertext in
        match AEAD_Open block nonce ciphertextData with
        | Ok (Some plaintext) => Ok plaintext
        | Ok None => Err ErrDecryptionFailed
        | Err e => Err e
        | Panic m => Panic m
        end
  end.

(** [EncryptWithPassword] encrypts plaintext using a password. *)
Definition EncryptWithPassword `{CryptoProvider} (plaintext : list byte)
  (password : string) (r : Reader) : outcome (list byte) * Reader :=
  match GenerateSalt r with
  | (Err e, r1) => (Err e, r1)
  | (Panic m, r1) => (Panic m, r1)
  | (Ok salt, r1) =>
      let key := DeriveKey password salt in
      match Encrypt plaintext key r1 with
      | (Err e, r2) => (Err e, r2)
      | (Panic m, r2) => (Panic m, r2)
      | (Ok ciphertext, r2) => (Ok (salt ++ ciphertext), r2)
      end
  end.

(** [DecryptWithPassword] decrypts ciphertext using a password. *)
Definition DecryptWithPassword `{CryptoProvider} (ciphertext : list byte)
  (password : string) : outcome (list byte) :=
  if (length ciphertext <? SaltSize + NonceSize)%nat then Err ErrInvalidCiphertext
  else
    let salt := take SaltSize ciphertext in
    let encryptedData := drop SaltSize ciphertext in
    let key := DeriveKey password salt in
    Decrypt encryptedData key.

(** The documented contract of the imported primitives: PBKDF2 returns a key
    of the length asked for; for an AES key and a 12-byte nonce, [Seal] adds
    a 16-byte tag to a message within the size limit, [Open] returns the
    plaintext of what [Seal] produced, and [Open] rejects an input too short
    to hold a tag. *)
Class CryptoLaws (C : CryptoProvider) : Prop := {
  pbkdf2_Key_length : forall password salt iter keyLen,
    length (pbkdf2_Key password salt iter keyLen) = keyLen;
  gcm_Seal_length : forall key nonce plaintext,
    aes_key_size_ok (length key) = true ->
    length nonce = NonceSize ->
    (N.of_nat (length plaintext) <= gcmMaxPlaintext)%N ->
    length (gcm_Seal key nonce plaintext []) = (length plaintext + gcmTagSize)%nat;
  gcm_Open_Seal : forall key nonce plaintext,
    aes_key_size_ok (length key) = true ->
    length nonce = NonceSize ->
    (N.of_nat (length plaintext) <= gcmMaxPlaintext)%N ->
    gcm_Open key nonce (gcm_Seal key nonce plaintext []) [] = Some plaintext;
  gcm_Open_short : forall key nonce ciphertext,
    (length ciphertext < gcmTagSize)%nat ->
    gcm_Open key nonce ciphertext [] = None
}.

(** *** A test double of the primitives

    An executable stand-in with the shape of the real primitives: the key is
    a checksum of password, salt and iteration count; [Seal] masks the
    plaintext with a pad byte drawn from key and nonce and appends a 16-byte
    checksum of key, nonce, masked text and additional data; [Open] checks
    that checksum before unmasking.  It gives no secrecy; the properties
    below are evaluated on it. *)
Module toy.

Definition byte_xor (a b : byte) : byte :=
  default x00 (Byte.of_N (N.lxor (Byte.to_N a) (Byte.to_N b))).

Definition byte_sum (l : list byte) : N :=
  foldr (fun b acc => ((Byte.to_N b + 31 * acc + 7) mod 65521)%N) 1%N l.

Definition byte_of (n : N) : byte := default x00 (Byte.of_N (n mod 256)).

Definition pad (key nonce : list byte) : byte :=
  byte_of (byte_sum key + byte_sum nonce).

Definition mask (key nonce text : list byte) : list byte :=
  map (byte_xor (pad key nonce)) text.

Definition tag (key nonce masked aad : list byte) : list byte :=
  map (fun i => byte_of (byte_sum key + 3 * byte_sum nonce + 5 * byte_sum masked
                         + 7 * byte_sum aad + N.of_nat i))
      (seq 0 gcmTagSize).

Definition Seal (key nonce plaintext aad : list byte) : list byte :=
  let masked := mask key nonce plaintext in
  masked ++ tag key nonce masked aad.

Definition Open (key nonce ciphertext aad : list byte) : option (list byte) :=
  if (length ciphertext <? gcmTagSize)%nat then None
  else
    let n := (length ciphertext - gcmTagSize)%nat in
    let masked := take n ciphertext in
    if bool_decide (drop n ciphertext = tag key nonce masked aad)
    then Some (mask key nonce masked)
    else None.

Definition Key (password salt : list byte) (iter : N) (keyLen : nat) : list byte :=
  map (fun i => byte_of (byte_sum password + 3 * byte_sum salt + iter + N.of_nat i))
      (seq 0 keyLen).

#[local] Instance provider : CryptoProvider :=
  {| pbkdf2_Key := Key; gcm_Seal := Seal; gcm_Open := Open |}.

End toy.

End crypto.

(** ** Time and 64-bit integers *)

(** [time.Time]: nanoseconds since the Unix epoch. *)
Definition Time : Type := Z.

(** [time.Unix(sec, 0)] and [t.Unix()]. *)
Definition time_Unix (sec : Z) : Time := sec * 1000000000.
Definition Time_Unix (t : Time) : Z := t / 1000000000.

Definition max_int64 : Z := 2 ^ 63 - 1.
Definition min_int64 : Z := - 2 ^ 63.

(** Go's [+] on [int64] wraps around. *)
Definition int64_add (a b : Z) : Z := (a + b + 2 ^ 63) mod 2 ^ 64 - 2 ^ 63.

(** ** Package models *)

Module models.

(** [DataType] represents the type of stored data. *)
Definition DataType : Type := string.
Definition DataTypeCredential : DataType := "credential".
Definition DataTypeText : DataType := "text".
Definition DataTypeBinary : DataType := "binary".
Definition DataTypeCard : DataType := "card".

(** [DataItem] represents a stored data item. *)
Record DataItem : Type := {
  ID : string;
  UserID : string;
  Type_ : DataType;
  Name : string;
  EncryptedData : list byte;
  Metadata : gmap string string;
  CreatedAt : Time;
  UpdatedAt : Time;
  Version : Z;
  Deleted : bool
}.

End models.

(** ** The schema *)

(** Table [users]. *)
Module users.
Record row : Type := {
  id : string;
  username : string;
  password_hash : string;
  created_at : Time;
  updated_at : Time
}.
End users.

(** Table [data_items]; [metadata] is the nullable JSONB column. *)
Module data_items.
Record row : Type := {
  id : string;
  user_id : string;
  type : string;
  name : string;
  encrypted_data : list byte;
  metadata : option (gmap string string);
  created_at : Time;
  updated_at : Time;
  version : Z;
  deleted : bool
}.
End data_items.

(** The database behind [s.db]. *)
Record DB : Type := {
  tbl_users : list users.row;
  tbl_data_items : list data_items.row
}.

(** ** Package storage *)

Module storage.
Import models.

(** [sql.NullString]. *)
Record NullString : Type := { String_ : string; Valid : bool }.

(** The text in which the store hands out a JSONB object.  The Go code never
    looks into it; the rendering here is plain (keys and values unescaped, in
    the order of the map). *)
Definition dquote : string := String (Ascii.ascii_of_nat 34) EmptyString.

Definition jsonb_out (m : gmap string string) : string :=
  ("{" +:+ String.concat ", "
             ((fun kv : string * string =>
                 dquote +:+ kv.1 +:+ dquote +:+ ": " +:+ dquote +:+ kv.2 +:+ dquote)
                <$> map_to_list m)
       +:+ "}")%string.

(** Scanning the [metadata] column into a [sql.NullString]. *)
Definition scan_NullString (col : option (gmap string string)) : NullString :=
  match col with
  | None => {| String_ := ""; Valid := false |}
  | Some m => {| String_ := jsonb_out m; Valid := true |}
  end.

Definition metadataToJSON (metadata : gmap string string)
  : option (gmap string string) :=
  if (size metadata =? 0)%nat then None
  else Some metadata.

Definition jsonToMetadata (jsonStr : string) : gmap string string :=
  if bool_decide (jsonStr = "") then ∅
  else ∅.

(** [rows.Scan(&item.ID, ..., &metadataJSON, ..., &item.Deleted)] into a
    fresh [DataItem], followed by
    [item.Metadata = jsonToMetadata(metadataJSON.String)]. *)
Definition scan_item (r : data_items.row) : DataItem :=
  let metadataJSON := scan_NullString (data_items.metadata r) in
  {| ID := data_items.id r;
     UserID := data_items.user_id r;
     Type_ := data_items.type r;
     Name := data_items.name r;
     EncryptedData := data_items.encrypted_data r;
     Metadata := jsonToMetadata (String_ metadataJSON);
     CreatedAt := data_items.created_at r;
     UpdatedAt := data_items.updated_at r;
     Version := data_items.version r;
     Deleted := data_items.deleted r |}.

(** *** The statements *)

(** [db.Exec(query, args...)] converts its arguments before the statement
    is sent.  The repository passes strings, byte slices, times, integers and
    booleans, which [database/sql] accepts, and what [metadataToJSON]
    returns: its [nil] is accepted and stored as NULL, its
    [map[string]string] is refused, and nothing is sent.  [ordinal] is the
    place of that argument in the statement. *)
Definition driver_args (ordinal : nat) (metadata : option (gmap string string))
  : option error :=
  match metadata with
  | None => None
  | Some _ => Some (sql_unsupported_type ordinal)
  end.

(** The columns of UNIQUE(user_id, name). *)
Definition owner_name (r : data_items.row) : string * string :=
  (data_items.user_id r, data_items.name r).

(** [INSERT INTO data_items (...) VALUES (...)]: the unique indexes are
    checked as the row is entered, the primary key first, and the foreign key
    when the statement ends. *)
Definition insert_data_items (r : data_items.row) (db : DB) : option error * DB :=
  let rows := tbl_data_items db in
  if bool_decide (data_items.id r ∈ (data_items.id <$> rows)) then
    (Some (pq_unique_violation "data_items_pkey"), db)
  else if bool_decide (owner_name r ∈ (owner_name <$> rows)) then
    (Some (pq_unique_violation "data_items_user_id_name_key"), db)
  else if bool_decide (data_items.user_id r ∈ (users.id <$> tbl_users db)) then
    (None, {| tbl_users := tbl_users db; tbl_data_items := rows ++ [r] |})
  else
    (Some (pq_foreign_key_violation "data_items_user_id_fkey"), db).

(** What PRIMARY KEY says of the table [data_items]. *)
Definition primary_key (db : DB) : Prop :=
  NoDup (data_items.id <$> tbl_data_items db).

(** [db.QueryRow(query, ...).Scan(...)]: the first row of the result, or
    [sql.ErrNoRows]. *)
Definition QueryRow (P : data_items.row -> Prop) `{!forall r, Decision (P r)}
  (db : DB) : option data_items.row :=
  head (filter P (tbl_data_items db)).

(** [UPDATE data_items SET ... WHERE ...]: every row that satisfies [P] is
    replaced by [set] of it; an error in one row ([inl]) aborts the statement
    and leaves the table as it was.  The result is [RowsAffected]. *)
Fixpoint update_rows (P : data_items.row -> Prop) `{!forall r, Decision (P r)}
  (set : data_items.row -> error + data_items.row)
  (rows : list data_items.row) : error + (list data_items.row * Z) :=
  match rows with
  | [] => inr ([], 0)
  | r :: rest =>
      match update_rows P set rest with
      | inr (rest', n) =>
          if decide (P r) then
            match set r with
            | inr r' => inr (r' :: rest', n + 1)
            | inl e => inl e
            end
          else inr (r :: rest', n)
      | inl e => inl e
      end
  end.

Definition Exec_update (P : data_items.row -> Prop) `{!forall r, Decision (P r)}
  (set : data_items.row -> error + data_items.row) (db : DB) : (error + Z) * DB :=
  match update_rows P set (tbl_data_items db) with
  | inr (rows', n) => (inr n, {| tbl_users := tbl_users db; tbl_data_items := rows' |})
  | inl e => (inl e, db)
  end.

(** [ORDER BY updated_at ASC] and [ORDER BY created_at DESC].  The store
    leaves the order of rows with equal keys open; the sort here keeps one. *)
Definition updated_at_asc (r1 r2 : data_items.row) : Prop :=
  data_items.updated_at r1 <= data_items.updated_at r2.
Definition created_at_desc (r1 r2 : data_items.row) : Prop :=
  data_items.created_at r2 <= data_items.created_at r1.

#[global] Instance updated_at_asc_dec : RelDecision updated_at_asc :=
  fun r1 r2 => Z_le_dec (data_items.updated_at r1) (data_items.updated_at r2).
#[global] Instance created_at_desc_dec : RelDecision created_at_desc :=
  fun r1 r2 => Z_le_dec (data_items.created_at r2) (data_items.created_at r1).

(** *** The operations of [PostgresStorage] *)

(** [CreateItem] creates a new data item.  [uuid] is what [uuid.New()]
    returns, [now1] and [now2] the two readings of [time.Now()]. *)
Definition CreateItem (uuid : string) (now1 now2 : Time) (item : DataItem) (db : DB)
  : option error * DataItem * DB :=
  let item := {| ID := if bool_decide (ID item = "") then uuid else ID item;
                 UserID := UserID item; Type_ := Type_ item; Name := Name item;
                 EncryptedData := EncryptedData item; Metadata := Metadata item;
                 CreatedAt := now1; UpdatedAt := now2; Version := 1;
                 Deleted := Deleted item |} in
  let '(err, db') :=
    match driver_args 6 (metadataToJSON (Metadata item)) with
    | Some err => (Some err, db)
    | None =>
        insert_data_items
          {| data_items.id := ID item; data_items.user_id := UserID item;
             data_items.type := Type_ item; data_items.name := Name item;
             data_items.encrypted_data := EncryptedData item;
             data_items.metadata := metadataToJSON (Metadata item);
             data_items.created_at := CreatedAt item;
             data_items.updated_at := UpdatedAt item;
             data_items.version := Version item;
             data_items.deleted := Deleted item |} db
    end in
  (err, item, db').

(** [GetItem] retrieves a data item by ID. *)
Definition GetItem (userID itemID : string) (db : DB) : outcome DataItem :=
  match QueryRow (fun r => data_items.id r = itemID /\ data_items.user_id r = userID
                           /\ data_items.deleted r = false) db with
  | None => Err ErrItemNotFound
  | Some r => Ok (scan_item r)
  end.

(** [GetItemByName] retrieves a data item by name. *)
Definition GetItemByName (userID name : string) (db : DB) : outcome DataItem :=
  match QueryRow (fun r => data_items.user_id r = userID /\ data_items.name r = name
                           /\ data_items.deleted r = false) db with
  | None => Err ErrItemNotFound
  | Some r => Ok (scan_item r)
  end.

(** [ListItems] lists all data items for a user, optionally filtered by type. *)
Definition ListItems (userID : string) (dataType : DataType) (db : DB)
  : outcome (list DataItem) :=
  if negb (bool_decide (dataType = "")) then
    Ok (scan_item <$>
          merge_sort created_at_desc
            (filter (fun r => data_items.user_id r = userID /\ data_items.type r = dataType
                              /\ data_items.deleted r = false) (tbl_data_items db)))
  else
    Ok (scan_item <$>
          merge_sort created_at_desc
            (filter (fun r => data_items.user_id r = userID
                              /\ data_items.deleted r = false) (tbl_data_items db))).

(** The two halves of [UpdateItem]: [item.UpdatedAt = time.Now()], and the
    single [UPDATE] statement with the test of [RowsAffected]. *)
Definition UpdateItem_stamp (now : Time) (item : DataItem) : DataItem :=
  {| ID := ID item; UserID := UserID item; Type_ := Type_ item; Name := Name item;
     EncryptedData := EncryptedData item; Metadata := Metadata item;
     CreatedAt := CreatedAt item; UpdatedAt := now; Version := Version item;
     Deleted := Deleted item |}.

Definition UpdateItem_set (item : DataItem) (r : data_items.row)
  : error + data_items.row :=
  if max_int64 <? data_items.version r + 1 then inl pq_numeric_value_out_of_range
  else inr {| data_items.id := data_items.id r;
             data_items.user_id := data_items.user_id r;
             data_items.type := data_items.type r;
             data_items.name := data_items.name r;
             data_items.encrypted_data := EncryptedData item;
             data_items.metadata := metadataToJSON (Metadata item);
             data_items.created_at := data_items.created_at r;
             data_items.updated_at := UpdatedAt item;
             data_items.version := data_items.version r + 1;
             data_items.deleted := data_items.deleted r |}.

Definition UpdateItem_exec (item : DataItem) (db : DB) : option error * DB :=
  match driver_args 2 (metadataToJSON (Metadata item)) with
  | Some err => (Some err, db)
  | None =>
      match Exec_update
              (fun r => data_items.id r = ID item /\ data_items.user_id r = UserID item
                        /\ data_items.version r = Version item
                        /\ data_items.deleted r = false)
              (UpdateItem_set item) db with
      | (inl err, db') => (Some err, db')
      | (inr rowsAffected, db') =>
          if rowsAffected =? 0 then (Some ErrVersionConflict, db')
          else (None, db')
      end
  end.

(** [UpdateItem] updates an existing data item. *)
Definition UpdateItem (now : Time) (item : DataItem) (db : DB)
  : option error * DataItem * DB :=
  let item := UpdateItem_stamp now item in
  let '(err, db') := UpdateItem_exec item db in
  (err, item, db').

(** [DeleteItem] soft-deletes a data item. *)
Definition DeleteItem (now : Time) (userID itemID : string) (db : DB)
  : option error * DB :=
  match Exec_update
          (fun r => data_items.id r = itemID /\ data_items.user_id r = userID)
          (fun r => inr {| data_items.id := data_items.id r;
                           data_items.user_id := data_items.user_id r;
                           data_items.type := data_items.type r;
                           data_items.name := data_items.name r;
                           data_items.encrypted_data := data_items.encrypted_data r;
                           data_items.metadata := data_items.metadata r;
                           data_items.created_at := data_items.created_at r;
                           data_items.updated_at := now;
                           data_items.version := data_items.version r;
                           data_items.deleted := true |}) db with
  | (inl err, db') => (Some err, db')
  | (inr _, db') => (None, db')
  end.

(** [GetItemsModifiedAfter] retrieves all items modified after a given
    timestamp. *)
Definition GetItemsModifiedAfter (userID : string) (timestamp : Time) (db : DB)
  : outcome (list DataItem) :=
  Ok (scan_item <$>
        merge_sort updated_at_asc
          (filter (fun r => data_items.user_id r = userID
                            /\ timestamp < data_items.updated_at r) (tbl_data_items db))).

End storage.

(** *** Calls of [UpdateItem] in flight

    A call of [UpdateItem] takes two steps: it reads the clock, and it sends
    its [UPDATE] statement, which the store executes as one step.  Calls that
    run at the same time take their steps in any order. *)
Module inflight.
Import models.

Inductive call : Type :=
| Called (item : DataItem)
| Stamped (item : DataItem)
| Returned (err : option error) (item : DataItem).

Definition call_step (now : Time) (c : call) (db : DB) : call * DB :=
  match c with
  | Called item => (Stamped (storage.UpdateItem_stamp now item), db)
  | Stamped item =>
      let '(err, db') := storage.UpdateItem_exec item db in
      (Returned err item, db')
  | Returned _ _ => (c, db)
  end.

Inductive turn : Type := FirstCall | SecondCall.

#[global] Instance turn_eq_dec : EqDecision turn.
Proof. solve_decision. Defined.

Record flight : Type := { first : call; second : call; shared : DB }.

(** One entry of a schedule: whose step it is, and what the clock shows. *)
Definition step (f : flight) (t : turn * Time) : flight :=
  match t.1 with
  | FirstCall =>
      let '(c, db) := call_step t.2 (first f) (shared f) in
      {| first := c; second := second f; shared := db |}
  | SecondCall =>
      let '(c, db) := call_step t.2 (second f) (shared f) in
      {| first := first f; second := c; shared := db |}
  end.

Definition run (schedule : list (turn * Time)) (f : flight) : flight :=
  foldl step f schedule.

Definition turns (who : turn) (schedule : list (turn * Time)) : nat :=
  length (filter (fun t => t.1 = who) schedule).

End inflight.

(** ** Package auth and the messages of the API *)

Module auth.
(** The fields of [Claims] that the handlers read. *)
Record Claims : Type := { UserID : string; Username : string }.
End auth.

(** The generated package [pb]: the messages as the handlers use them. *)
Module pb.

Inductive DataType : Type :=
| DataType_DATA_TYPE_UNSPECIFIED
| DataType_DATA_TYPE_CREDENTIAL
| DataType_DATA_TYPE_TEXT
| DataType_DATA_TYPE_BINARY
| DataType_DATA_TYPE_CARD.

Module DataItem.
Record t : Type := {
  Id : string;
  UserId : string;
  Type_ : DataType;
  Name : string;
  EncryptedData : list byte;
  Metadata : gmap string string;
  CreatedAt : Z;
  UpdatedAt : Z;
  Version : Z;
  Deleted : bool
}.
End DataItem.

Module UpdateItemRequest.
(** [Metadata] is [None] for a nil map. *)
Record t : Type := {
  Token : string;
  ItemId : string;
  EncryptedData : list byte;
  Metadata : option (gmap string string)
}.
End UpdateItemRequest.

Module UpdateItemResponse.
Record t : Type := { Message : string; NewVersion : Z }.
End UpdateItemResponse.

Module SyncRequest.
Record t : Type := { Token : string; LastSyncTimestamp : Z }.
End SyncRequest.

Module SyncConflict.
Record t : Type := { ItemId : string; ServerVersion : DataItem.t; ClientVersion : DataItem.t }.
End SyncConflict.

Module SyncResponse.
Record t : Type := {
  Items : list DataItem.t;
  SyncTimestamp : Z;
  Conflicts : list SyncConflict.t
}.
End SyncResponse.

End pb.

(** ** Package server *)

Module server.

(** What a handler finds when it looks: the clock and the database. *)
Record World : Type := { clock : Time; store : DB }.

Definition modelTypeToProtoType (mt : models.DataType) : pb.DataType :=
  if bool_decide (mt = models.DataTypeCredential) then pb.DataType_DATA_TYPE_CREDENTIAL
  else if bool_decide (mt = models.DataTypeText) then pb.DataType_DATA_TYPE_TEXT
  else if bool_decide (mt = models.DataTypeBinary) then pb.DataType_DATA_TYPE_BINARY
  else if bool_decide (mt = models.DataTypeCard) then pb.DataType_DATA_TYPE_CARD
  else pb.DataType_DATA_TYPE_UNSPECIFIED.

Definition modelItemToProtoItem (item : models.DataItem) : pb.DataItem.t :=
  {| pb.DataItem.Id := models.ID item;
     pb.DataItem.UserId := models.UserID item;
     pb.DataItem.Type_ := modelTypeToProtoType (models.Type_ item);
     pb.DataItem.Name := models.Name item;
     pb.DataItem.EncryptedData := models.EncryptedData item;
     pb.DataItem.Metadata := models.Metadata item;
     pb.DataItem.CreatedAt := Time_Unix (models.CreatedAt item);
     pb.DataItem.UpdatedAt := Time_Unix (models.UpdatedAt item);
     pb.DataItem.Version := models.Version item;
     pb.DataItem.Deleted := models.Deleted item |}.

(** [UpdateItem] handles updating a data item.  [claims] is the result of
    [auth.ValidateToken(req.Token, s.jwtSecret)], [now] the reading of the
    clock inside [storage.UpdateItem]. *)
Definition UpdateItem (claims : outcome auth.Claims) (req : pb.UpdateItemRequest.t)
  (now : Time) (db : DB) : outcome pb.UpdateItemResponse.t * DB :=
  match claims with
  | Err err => (Err (fmt_Errorf_w "invalid token" err), db)
  | Panic m => (Panic m, db)
  | Ok claims =>
      match storage.GetItem (auth.UserID claims) (pb.UpdateItemRequest.ItemId req) db with
      | Err err => (Err (fmt_Errorf_w "failed to get item" err), db)
      | Panic m => (Panic m, db)
      | Ok item =>
          let item :=
            {| models.ID := models.ID item; models.UserID := models.UserID item;
               models.Type_ := models.Type_ item; models.Name := models.Name item;
               models.EncryptedData := pb.UpdateItemRequest.EncryptedData req;
               models.Metadata :=
                 match pb.UpdateItemRequest.Metadata req with
                 | Some m => m
                 | None => models.Metadata item
                 end;
               models.CreatedAt := models.CreatedAt item;
               models.UpdatedAt := models.UpdatedAt item;
               models.Version := models.Version item;
               models.Deleted := models.Deleted item |} in
          match storage.UpdateItem now item db with
          | (Some err, _, db') =>
              if errors_Is err ErrVersionConflict then
                (Ok {| pb.UpdateItemResponse.Message :=
                         "version conflict - item was modified by another client";
                       pb.UpdateItemResponse.NewVersion := 0 |}, db')
              else (Err (fmt_Errorf_w "failed to update item" err), db')
          | (None, item, db') =>
              (Ok {| pb.UpdateItemResponse.Message := "item updated successfully";
                     pb.UpdateItemResponse.NewVersion := int64_add (models.Version item) 1 |},
               db')
          end
      end
  end.

(** [Sync] handles data synchronization.  [asked] is the world in which the
    query of [GetItemsModifiedAfter] runs, [answered] the later world in
    which the response is built and [time.Now()] is read. *)
Definition Sync (claims : outcome auth.Claims) (req : pb.SyncRequest.t)
  (asked answered : World) : outcome pb.SyncResponse.t :=
  match claims with
  | Err err => Err (fmt_Errorf_w "invalid token" err)
  | Panic m => Panic m
  | Ok claims =>
      let lastSync := time_Unix (pb.SyncRequest.LastSyncTimestamp req) in
      match storage.GetItemsModifiedAfter (auth.UserID claims) lastSync (store asked) with
      | Err err => Err (fmt_Errorf_w "failed to get modified items" err)
      | Panic m => Panic m
      | Ok items =>
          Ok {| pb.SyncResponse.Items := modelItemToProtoItem <$> items;
                pb.SyncResponse.SyncTimestamp := Time_Unix (clock answered);
                pb.SyncResponse.Conflicts := [] |}
      end
  end.

End server.

(** The orders of the two [ORDER BY] clauses are total and transitive. *)
#[global] Instance updated_at_asc_total : Total storage.updated_at_asc.
Proof. intros r1 r2. unfold storage.updated_at_asc. lia. Qed.
#[global] Instance updated_at_asc_trans : Transitive storage.updated_at_asc.
Proof. intros r1 r2 r3. unfold storage.updated_at_asc. lia. Qed.

(** ** Two calls racing for one row

    The states that two calls of [UpdateItem] can reach when both name the
    row with id [k] of owner [u], which sits between [l1] and [l2], and both
    expect version [N]. *)
Module race.
Import models inflight.

Definition phase (c : call) : nat :=
  match c with
  | Called _ => 0
  | Stamped _ => 1
  | Returned _ _ => 2
  end.

(** An item without tags that names the row [k] of [u] at version [N]. *)
Definition targets (k u : string) (N : Z) (item : DataItem) : Prop :=
  ID item = k /\ UserID item = u /\ Version item = N /\ Metadata item = ∅.

Definition pending (k u : string) (N : Z) (c : call) : Prop :=
  match c with
  | Called item | Stamped item => targets k u N item
  | Returned _ _ => False
  end.

Definition lost (k u : string) (N : Z) (c : call) : Prop :=
  pending k u N c \/
  exists item, c = Returned (Some ErrVersionConflict) item /\ targets k u N item.

Definition won (k u : string) (N : Z) (c : call) : Prop :=
  exists item, c = Returned None item /\ targets k u N item.

Definition stored_at (l1 l2 : list data_items.row) (k u : string) (v : Z) (db : DB) : Prop :=
  storage.primary_key db /\
  exists r, tbl_data_items db = l1 ++ r :: l2 /\ data_items.id r = k /\
            data_items.user_id r = u /\ data_items.version r = v /\
            data_items.deleted r = false.

Inductive race_inv (l1 l2 : list data_items.row) (k u : string) (N : Z) (f : flight) : Prop :=
| race_open :
    pending k u N (first f) -> pending k u N (second f) ->
    stored_at l1 l2 k u N (shared f) -> race_inv l1 l2 k u N f
| race_first :
    won k u N (first f) -> lost k u N (second f) ->
    stored_at l1 l2 k u (N + 1) (shared f) -> race_inv l1 l2 k u N f
| race_second :
    lost k u N (first f) -> won k u N (second f) ->
    stored_at l1 l2 k u (N + 1) (shared f) -> race_inv l1 l2 k u N f.

End race.

(** ** Concrete data

    The values on which the properties below are evaluated: the inputs of
    the tests in [crypto_test.go], and the scenario of an item "GitHub" that
    is created, updated and deleted. *)
Module fixtures.
Import crypto models storage.

Definition entropy : Reader :=
  (fun i => toy.byte_of (N.of_nat (7 * i + 3))) <$> seq 0 50.
Definition plaintext : list byte := bytes_of_string "Hello, GophKeeper!".
Definition key : list byte := replicate 32 "*"%byte.
Definition short : list byte := bytes_of_string "short".
Definition zeros : list byte := replicate 100 x00.

Definition alice : users.row :=
  {| users.id := "U1"; users.username := "alice"; users.password_hash := "$2a$10$a";
     users.created_at := 0; users.updated_at := 0 |}.
Definition bob : users.row :=
  {| users.id := "U2"; users.username := "bob"; users.password_hash := "$2a$10$b";
     users.created_at := 0; users.updated_at := 0 |}.

Definition db0 : DB := {| tbl_users := [alice; bob]; tbl_data_items := [] |}.

(** The item that [server.AddItem] hands to [CreateItem]. *)
Definition github (owner : string) (data : list byte) (tags : gmap string string) : DataItem :=
  {| ID := ""; UserID := owner; Type_ := DataTypeCredential; Name := "GitHub";
     EncryptedData := data; Metadata := tags; CreatedAt := 0; UpdatedAt := 0;
     Version := 0; Deleted := false |}.

Definition sec : Z := 1000000000.

(** Alice creates "GitHub" at 5 s. *)
Definition db1 : DB :=
  (CreateItem "id-1" (5 * sec) (5 * sec) (github "U1" ["001"%byte] ∅) db0).2.

(** The row of that item. *)
Definition row1 : data_items.row :=
  {| data_items.id := "id-1"; data_items.user_id := "U1";
     data_items.type := "credential"; data_items.name := "GitHub";
     data_items.encrypted_data := ["001"%byte];
     data_items.metadata := None;
     data_items.created_at := 5 * sec; data_items.updated_at := 5 * sec;
     data_items.version := 1; data_items.deleted := false |}.

(** A second device changes the item at 11.5 s. *)
Definition item1' : DataItem :=
  {| ID := "id-1"; UserID := "U1"; Type_ := DataTypeCredential; Name := "GitHub";
     EncryptedData := ["002"%byte]; Metadata := ∅; CreatedAt := 5 * sec;
     UpdatedAt := 5 * sec; Version := 1; Deleted := false |}.
Definition db1' : DB := (UpdateItem (23 * sec / 2) item1' db1).2.

(** Alice deletes the item at 20 s. *)
Definition db2 : DB := (DeleteItem (20 * sec) "U1" "id-1" db1).2.

(** A sync whose query runs at 10.9 s, before the change of 11.5 s, and whose
    response is built at 12.05 s, after it; and the next sync, at 30 s. *)
Definition alice_claims : auth.Claims := {| auth.UserID := "U1"; auth.Username := "alice" |}.
Definition sync_req (last : Z) : pb.SyncRequest.t :=
  {| pb.SyncRequest.Token := "t"; pb.SyncRequest.LastSyncTimestamp := last |}.
Definition asked : server.World :=
  {| server.clock := 109 * sec / 10; server.store := db1 |}.
Definition answered : server.World :=
  {| server.clock := 1205 * sec / 100; server.store := db1' |}.
Definition next : server.World :=
  {| server.clock := 30 * sec; server.store := db1' |}.

(** The same with the change stamped 12 s sharp. *)
Definition db1_at : DB := (UpdateItem (12 * sec) item1' db1).2.
Definition answered_at : server.World :=
  {| server.clock := 1205 * sec / 100; server.store := db1_at |}.
Definition next_at : server.World :=
  {| server.clock := 30 * sec; server.store := db1_at |}.

(** Two devices update the item at once; the steps of the second call fall
    between those of the first. *)
Definition item1'' : DataItem :=
  {| ID := "id-1"; UserID := "U1"; Type_ := DataTypeCredential; Name := "GitHub";
     EncryptedData := ["003"%byte]; Metadata := ∅; CreatedAt := 5 * sec;
     UpdatedAt := 5 * sec; Version := 1; Deleted := false |}.
Definition schedule : list (inflight.turn * Time) :=
  [(inflight.FirstCall, 11 * sec); (inflight.SecondCall, 11 * sec + 1);
   (inflight.SecondCall, 11 * sec + 2); (inflight.FirstCall, 11 * sec + 3)].

(** The same two updates, each carrying a tag. *)
Definition tagged (item : DataItem) : DataItem :=
  {| ID := ID item; UserID := UserID item; Type_ := Type_ item; Name := Name item;
     EncryptedData := EncryptedData item; Metadata := {[ "site" := "github.com" ]};
     CreatedAt := CreatedAt item; UpdatedAt := UpdatedAt item;
     Version := Version item; Deleted := Deleted item |}.

(** What a device sends to the handler to change the item: new data, and
    no version. *)
Definition device_req (data : list byte) : pb.UpdateItemRequest.t :=
  {| pb.UpdateItemRequest.Token := "t"; pb.UpdateItemRequest.ItemId := "id-1";
     pb.UpdateItemRequest.EncryptedData := data;
     pb.UpdateItemRequest.Metadata := None |}.

End fixtures.

(** ** More of package storage: what the schema keeps *)

#[global] Instance created_at_desc_total : Total storage.created_at_desc.
Proof. intros r1 r2. unfold storage.created_at_desc. lia. Qed.
#[global] Instance created_at_desc_trans : Transitive storage.created_at_desc.
Proof. intros r1 r2 r3. unfold storage.created_at_desc. lia. Qed.

Module schema.
Import models storage.

(** What UNIQUE(user_id, name) says of the table [data_items], and what
    REFERENCES users(id) says. *)
Definition unique_names (db : DB) : Prop :=
  NoDup (owner_name <$> tbl_data_items db).

Definition owners_registered (db : DB) : Prop :=
  forall r, r ∈ tbl_data_items db -> data_items.user_id r ∈ (users.id <$> tbl_users db).

Definition keys_ok (db : DB) : Prop :=
  primary_key db /\ unique_names db /\ owners_registered db.

(** The row that the statement of [DeleteItem] makes of a row. *)
Definition tombstoned (now : Time) (r : data_items.row) : data_items.row :=
  {| data_items.id := data_items.id r;
     data_items.user_id := data_items.user_id r;
     data_items.type := data_items.type r;
     data_items.name := data_items.name r;
     data_items.encrypted_data := data_items.encrypted_data r;
     data_items.metadata := data_items.metadata r;
     data_items.created_at := data_items.created_at r;
     data_items.updated_at := now;
     data_items.version := data_items.version r;
     data_items.deleted := true |}.

(** What no statement of the repository does to a row: the columns that
    identify it stay, its version does not fall, and a tombstone is not
    lifted. *)
Definition evolves (r r' : data_items.row) : Prop :=
  data_items.id r' = data_items.id r /\
  data_items.user_id r' = data_items.user_id r /\
  data_items.type r' = data_items.type r /\
  data_items.name r' = data_items.name r /\
  data_items.created_at r' = data_items.created_at r /\
  data_items.version r <= data_items.version r' <= data_items.version r + 1 /\
  (data_items.deleted r = true -> data_items.deleted r' = true).

(** The rows of the users other than [userID]. *)
Definition rows_of_others (userID : string) (db : DB) : list data_items.row :=
  filter (fun r => data_items.user_id r <> userID) (tbl_data_items db).

End schema.
(** ** Go strings *)

Module gostring.

(** [s[lo:hi]], for [lo <= hi <= len(s)]. *)
Definition slice (s : string) (lo hi : nat) : string := substring lo (hi - lo) s.

(** [strconv.Itoa] of a number that is not negative. *)
Definition Itoa (n : nat) : string := NilEmpty.string_of_uint (Nat.to_uint n).

(** [substr] occurs in [s]. *)
Definition occurs_in (substr s : string) : Prop :=
  exists pre post, s = pre +:+ substr +:+ post.

(** [err.Error()]: the texts of the errors of the repository and of [io], of
    [crypto/aes], and of [lib/pq], which prefixes the message of the
    server with "pq: ". *)
Fixpoint Error (e : error) : string :=
  match e with
  | ErrInvalidCiphertext => "invalid ciphertext"
  | ErrDecryptionFailed => "decryption failed"
  | KeySizeError n => "crypto/aes: invalid key size " +:+ Itoa n
  | io_EOF => "EOF"
  | io_ErrUnexpectedEOF => "unexpected EOF"
  | ErrUserNotFound => "user not found"
  | ErrUserAlreadyExists => "user already exists"
  | ErrItemNotFound => "item not found"
  | ErrVersionConflict => "version conflict"
  | pq_unique_violation c =>
      "pq: duplicate key value violates unique constraint "
        +:+ storage.dquote +:+ c +:+ storage.dquote
  | pq_foreign_key_violation c =>
      "pq: insert or update on table " +:+ storage.dquote +:+ "data_items"
        +:+ storage.dquote +:+ " violates foreign key constraint "
        +:+ storage.dquote +:+ c +:+ storage.dquote
  | pq_numeric_value_out_of_range => "pq: bigint out of range"
  | sql_unsupported_type ordinal =>
      "sql: converting argument $" +:+ Itoa ordinal
        +:+ " type: unsupported type map[string]string, a map"
  | fmt_Errorf_w msg wrapped => msg +:+ ": " +:+ Error wrapped
  end.

End gostring.

(** ** Package storage: the helpers and the users *)

(** [models.User]. *)
Module models_User.
Record User : Type := {
  ID : string;
  Username : string;
  PasswordHash : string;
  CreatedAt : Time;
  UpdatedAt : Time
}.
End models_User.

Module storage_users.
Import gostring.

(** The loop of [containsMiddle], at index [i] with [todo] rounds to go. *)
Fixpoint containsMiddle_loop (s substr : string) (i todo : nat) : bool :=
  match todo with
  | O => false
  | S todo' =>
      if bool_decide (slice s i (i + String.length substr) = substr) then true
      else containsMiddle_loop s substr (S i) todo'
  end.

(** [for i := 0; i <= len(s)-len(substr); i++]: no round when the bound is
    negative. *)
Definition containsMiddle (s substr : string) : bool :=
  if (String.length s <? String.length substr)%nat then false
  else containsMiddle_loop s substr 0 (String.length s - String.length substr + 1).

Definition contains (s substr : string) : bool :=
  (String.length substr <=? String.length s)%nat &&
  (bool_decide (s = substr) ||
   (String.length substr <? String.length s)%nat &&
   (bool_decide (slice s 0 (String.length substr) = substr) ||
    bool_decide (slice s (String.length s - String.length substr) (String.length s) = substr) ||
    containsMiddle s substr)).

(** The [contains] of the tests of package models. *)
Definition models_test_contains (s substr : string) : bool :=
  (String.length substr <=? String.length s)%nat &&
  (bool_decide (s = substr) ||
   (String.length substr <? String.length s)%nat && containsMiddle s substr).

(** [INSERT INTO users (...) VALUES (...)], under PRIMARY KEY(id) and
    UNIQUE(username). *)
Definition insert_users (u : users.row) (db : DB) : option error * DB :=
  if bool_decide (users.id u ∈ (users.id <$> tbl_users db)) then
    (Some (pq_unique_violation "users_pkey"), db)
  else if bool_decide (users.username u ∈ (users.username <$> tbl_users db)) then
    (Some (pq_unique_violation "users_username_key"), db)
  else
    (None, {| tbl_users := tbl_users db ++ [u]; tbl_data_items := tbl_data_items db |}).

(** Scanning a row of [users] into a [User]. *)
Definition scan_user (u : users.row) : models_User.User :=
  {| models_User.ID := users.id u;
     models_User.Username := users.username u;
     models_User.PasswordHash := users.password_hash u;
     models_User.CreatedAt := users.created_at u;
     models_User.UpdatedAt := users.updated_at u |}.

(** [CreateUser] creates a new user.  [uuid] is what [uuid.New()] returns,
    [now1] and [now2] the two readings of [time.Now()]. *)
Definition CreateUser (uuid : string) (now1 now2 : Time) (username passwordHash : string)
  (db : DB) : outcome models_User.User * DB :=
  let user := {| models_User.ID := uuid;
                 models_User.Username := username;
                 models_User.PasswordHash := passwordHash;
                 models_User.CreatedAt := now1;
                 models_User.UpdatedAt := now2 |} in
  match insert_users
          {| users.id := models_User.ID user;
             users.username := models_User.Username user;
             users.password_hash := models_User.PasswordHash user;
             users.created_at := models_User.CreatedAt user;
             users.updated_at := models_User.UpdatedAt user |} db with
  | (Some err, db') =>
      if contains (Error err) "duplicate" || contains (Error err) "unique" then
        (Err ErrUserAlreadyExists, db')
      else (Err err, db')
  | (None, db') => (Ok user, db')
  end.

(** [GetUserByUsername] retrieves a user by username. *)
Definition GetUserByUsername (username : string) (db : DB) : outcome models_User.User :=
  match head (filter (fun u => users.username u = username) (tbl_users db)) with
  | None => Err ErrUserNotFound
  | Some u => Ok (scan_user u)
  end.

(** [GetUserByID] retrieves a user by ID. *)
Definition GetUserByID (userID : string) (db : DB) : outcome models_User.User :=
  match head (filter (fun u => users.id u = userID) (tbl_users db)) with
  | None => Err ErrUserNotFound
  | Some u => Ok (scan_user u)
  end.

(** What PRIMARY KEY(id) and UNIQUE(username) say of the table [users]. *)
Definition users_keys_ok (db : DB) : Prop :=
  NoDup (users.id <$> tbl_users db) /\ NoDup (users.username <$> tbl_users db).

End storage_users.

(** ** Package server: the other handlers *)

(** The other messages of the generated package [pb], as the handlers and
    the client use them.  A nil map is the empty map where the code only
    stores it. *)
Module pb_messages.

Module RegisterRequest.
Record t : Type := { Username : string; Password : string }.
End RegisterRequest.

Module RegisterResponse.
Record t : Type := { UserId : string; Token : string; Message : string }.
End RegisterResponse.

Module LoginRequest.
Record t : Type := { Username : string; Password : string }.
End LoginRequest.

Module LoginResponse.
Record t : Type := { UserId : string; Token : string; Message : string }.
End LoginResponse.

Module AddItemRequest.
Record t : Type := {
  Token : string;
  Type_ : pb.DataType;
  Name : string;
  EncryptedData : list byte;
  Metadata : gmap string string
}.
End AddItemRequest.

Module AddItemResponse.
Record t : Type := { ItemId : string; Message : string }.
End AddItemResponse.

Module GetItemRequest.
Record t : Type := { Token : string; ItemId : string; Name : string }.
End GetItemRequest.

Module GetItemResponse.
Record t : Type := { Item : pb.DataItem.t }.
End GetItemResponse.

Module DeleteItemRequest.
Record t : Type := { Token : string; ItemId : string }.
End DeleteItemRequest.

Module DeleteItemResponse.
Record t : Type := { Message : string }.
End DeleteItemResponse.

End pb_messages.

Module handlers.
Import pb_messages.

(** The error of a handler: an error value of the packages, possibly
    wrapped, or [errors.New(msg)]. *)
Inductive rpc_error : Type :=
| rpc_err (e : error)
| rpc_new (msg : string).

(** What a handler does: it returns a response, returns an error, or
    panics. *)
Inductive reply (T : Type) : Type :=
| Reply (r : T)
| Fault (e : rpc_error)
| Crashed (msg : string).
Arguments Reply {T} r.
Arguments Fault {T} e.
Arguments Crashed {T} msg.

(** The zero [time.Time], January 1 of year 1. *)
Definition zero_Time : Time := -62135596800 * 1000000000.

Definition protoTypeToModelType (pt : pb.DataType) : models.DataType :=
  match pt with
  | pb.DataType_DATA_TYPE_CREDENTIAL => models.DataTypeCredential
  | pb.DataType_DATA_TYPE_TEXT => models.DataTypeText
  | pb.DataType_DATA_TYPE_BINARY => models.DataTypeBinary
  | pb.DataType_DATA_TYPE_CARD => models.DataTypeCard
  | _ => ""
  end.

(** [Register] handles user registration.  [hashed] is what
    [crypto.HashPassword(req.Password)] returns and [token] what
    [auth.GenerateToken(user.ID, user.Username, s.jwtSecret)] returns, when
    the handler gets to call them. *)
Definition Register (req : RegisterRequest.t) (hashed : outcome string)
  (uuid : string) (now1 now2 : Time) (token : outcome string) (db : DB)
  : reply RegisterResponse.t * DB :=
  if bool_decide (RegisterRequest.Username req = "")
     || bool_decide (RegisterRequest.Password req = "") then
    (Reply {| RegisterResponse.UserId := ""; RegisterResponse.Token := "";
            RegisterResponse.Message := "username and password are required" |}, db)
  else
    match hashed with
    | Err err => (Fault (rpc_err (fmt_Errorf_w "failed to hash password" err)), db)
    | Panic m => (Crashed m, db)
    | Ok passwordHash =>
        match storage_users.CreateUser uuid now1 now2
                (RegisterRequest.Username req) passwordHash db with
        | (Err err, db') =>
            if errors_Is err ErrUserAlreadyExists then
              (Reply {| RegisterResponse.UserId := ""; RegisterResponse.Token := "";
                      RegisterResponse.Message := "user already exists" |}, db')
            else (Fault (rpc_err (fmt_Errorf_w "failed to create user" err)), db')
        | (Panic m, db') => (Crashed m, db')
        | (Ok user, db') =>
            match token with
            | Err err => (Fault (rpc_err (fmt_Errorf_w "failed to generate token" err)), db')
            | Panic m => (Crashed m, db')
            | Ok token =>
                (Reply {| RegisterResponse.UserId := models_User.ID user;
                        RegisterResponse.Token := token;
                        RegisterResponse.Message := "registration successful" |}, db')
            end
        end
    end.

(** [Login] handles user authentication.  [CheckPasswordHash] is the
    function of package crypto (bcrypt), [None] its nil; [token] is what
    [auth.GenerateToken] returns. *)
Definition Login (req : LoginRequest.t)
  (CheckPasswordHash : string -> string -> option error)
  (token : outcome string) (db : DB) : reply LoginResponse.t :=
  if bool_decide (LoginRequest.Username req = "")
     || bool_decide (LoginRequest.Password req = "") then
    Reply {| LoginResponse.UserId := ""; LoginResponse.Token := "";
           LoginResponse.Message := "username and password are required" |}
  else
    match storage_users.GetUserByUsername (LoginRequest.Username req) db with
    | Err err =>
        if errors_Is err ErrUserNotFound then
          Reply {| LoginResponse.UserId := ""; LoginResponse.Token := "";
                 LoginResponse.Message := "invalid credentials" |}
        else Fault (rpc_err (fmt_Errorf_w "failed to get user" err))
    | Panic m => Crashed m
    | Ok user =>
        match CheckPasswordHash (LoginRequest.Password req) (models_User.PasswordHash user) with
        | Some _ =>
            Reply {| LoginResponse.UserId := ""; LoginResponse.Token := "";
                   LoginResponse.Message := "invalid credentials" |}
        | None =>
            match token with
            | Err err => Fault (rpc_err (fmt_Errorf_w "failed to generate token" err))
            | Panic m => Crashed m
            | Ok token =>
                Reply {| LoginResponse.UserId := models_User.ID user;
                       LoginResponse.Token := token;
                       LoginResponse.Message := "login successful" |}
            end
        end
    end.

(** [AddItem] handles adding a new data item.  [claims] is the result of
    [auth.ValidateToken(req.Token, s.jwtSecret)]; [uuid], [now1] and [now2]
    are what [storage.CreateItem] draws. *)
Definition AddItem (claims : outcome auth.Claims) (req : AddItemRequest.t)
  (uuid : string) (now1 now2 : Time) (db : DB)
  : reply AddItemResponse.t * DB :=
  match claims with
  | Err err => (Fault (rpc_err (fmt_Errorf_w "invalid token" err)), db)
  | Panic m => (Crashed m, db)
  | Ok claims =>
      let item :=
        {| models.ID := ""; models.UserID := auth.UserID claims;
           models.Type_ := protoTypeToModelType (AddItemRequest.Type_ req);
           models.Name := AddItemRequest.Name req;
           models.EncryptedData := AddItemRequest.EncryptedData req;
           models.Metadata := AddItemRequest.Metadata req;
           models.CreatedAt := zero_Time; models.UpdatedAt := zero_Time;
           models.Version := 0; models.Deleted := false |} in
      match storage.CreateItem uuid now1 now2 item db with
      | (Some err, _, db') =>
          (Fault (rpc_err (fmt_Errorf_w "failed to create item" err)), db')
      | (None, item, db') =>
          (Reply {| AddItemResponse.ItemId := models.ID item;
                  AddItemResponse.Message := "item added successfully" |}, db')
      end
  end.

(** [GetItem] handles retrieving a data item. *)
Definition GetItem (claims : outcome auth.Claims) (req : GetItemRequest.t) (db : DB)
  : reply GetItemResponse.t :=
  match claims with
  | Err err => Fault (rpc_err (fmt_Errorf_w "invalid token" err))
  | Panic m => Crashed m
  | Ok claims =>
      let found :=
        if negb (bool_decide (GetItemRequest.ItemId req = "")) then
          Some (storage.GetItem (auth.UserID claims) (GetItemRequest.ItemId req) db)
        else if negb (bool_decide (GetItemRequest.Name req = "")) then
          Some (storage.GetItemByName (auth.UserID claims) (GetItemRequest.Name req) db)
        else None in
      match found with
      | None => Fault (rpc_new "either item_id or name must be provided")
      | Some (Err err) =>
          if errors_Is err ErrItemNotFound then Fault (rpc_new "item not found")
          else Fault (rpc_err (fmt_Errorf_w "failed to get item" err))
      | Some (Panic m) => Crashed m
      | Some (Ok item) =>
          Reply {| GetItemResponse.Item := server.modelItemToProtoItem item |}
      end
  end.

(** [DeleteItem] handles deleting a data item. *)
Definition DeleteItem (claims : outcome auth.Claims) (req : DeleteItemRequest.t)
  (now : Time) (db : DB) : reply DeleteItemResponse.t * DB :=
  match claims with
  | Err err => (Fault (rpc_err (fmt_Errorf_w "invalid token" err)), db)
  | Panic m => (Crashed m, db)
  | Ok claims =>
      match storage.DeleteItem now (auth.UserID claims) (DeleteItemRequest.ItemId req) db with
      | (Some err, db') => (Fault (rpc_err (fmt_Errorf_w "failed to delete item" err)), db')
      | (None, db') =>
          (Reply {| DeleteItemResponse.Message := "item deleted successfully" |}, db')
      end
  end.

End handlers.

(** ** Package client: the conversions *)

Module client.

Definition modelTypeToProtoType (mt : models.DataType) : pb.DataType :=
  if bool_decide (mt = models.DataTypeCredential) then pb.DataType_DATA_TYPE_CREDENTIAL
  else if bool_decide (mt = models.DataTypeText) then pb.DataType_DATA_TYPE_TEXT
  else if bool_decide (mt = models.DataTypeBinary) then pb.DataType_DATA_TYPE_BINARY
  else if bool_decide (mt = models.DataTypeCard) then pb.DataType_DATA_TYPE_CARD
  else pb.DataType_DATA_TYPE_UNSPECIFIED.

Definition protoTypeToModelType (pt : pb.DataType) : models.DataType :=
  match pt with
  | pb.DataType_DATA_TYPE_CREDENTIAL => models.DataTypeCredential
  | pb.DataType_DATA_TYPE_TEXT => models.DataTypeText
  | pb.DataType_DATA_TYPE_BINARY => models.DataTypeBinary
  | pb.DataType_DATA_TYPE_CARD => models.DataTypeCard
  | _ => ""
  end.

Definition protoToModelItem (item : pb.DataItem.t) : models.DataItem :=
  {| models.ID := pb.DataItem.Id item;
     models.UserID := pb.DataItem.UserId item;
     models.Type_ := protoTypeToModelType (pb.DataItem.Type_ item);
     models.Name := pb.DataItem.Name item;
     models.EncryptedData := pb.DataItem.EncryptedData item;
     models.Metadata := pb.DataItem.Metadata item;
     models.CreatedAt := time_Unix (pb.DataItem.CreatedAt item);
     models.UpdatedAt := time_Unix (pb.DataItem.UpdatedAt item);
     models.Version := pb.DataItem.Version item;
     models.Deleted := pb.DataItem.Deleted item |}.

End client.

(** ** The commands: helpers of cmd/server and cmd/client *)

Module cmd_server.
Import gostring.

(** [maskDSN]: simple masking for logging purposes. *)
Definition maskDSN (dsn : string) : string :=
  if (20 <? String.length dsn)%nat then
    slice dsn 0 10 +:+ "..." +:+ slice dsn (String.length dsn - 10) (String.length dsn)
  else "***".

End cmd_server.

Module cmd_client.
Import Stdlib.Strings.Ascii gostring.

(** The separators of the metadata flag. *)
Definition comma : ascii := ",".
Definition equals : ascii := "=".

(** [strings.Split(s, sep)] for a separator of one byte: the pieces of [s]
    between the separators, one more than there are separators. *)
Fixpoint strings_Split (s : string) (sep : ascii) : list string :=
  match s with
  | EmptyString => [EmptyString]
  | String a rest =>
      if Ascii.eqb a sep then EmptyString :: strings_Split rest sep
      else match strings_Split rest sep with
           | piece :: pieces => String a piece :: pieces
           | [] => [String a EmptyString]
           end
  end.

(** [strings.SplitN(s, sep, 2)] for a separator of one byte: [s] cut at the
    first separator, or [s] alone when it has none. *)
Fixpoint strings_SplitN2 (s : string) (sep : ascii) : list string :=
  match s with
  | EmptyString => [EmptyString]
  | String a rest =>
      if Ascii.eqb a sep then [EmptyString; rest]
      else match strings_SplitN2 rest sep with
           | [piece] => [String a piece]
           | piece :: pieces => String a piece :: pieces
           | [] => [String a EmptyString]
           end
  end.

Section parse.
(** [strings.TrimSpace] of the standard library. *)
Variable strings_TrimSpace : string -> string.

(** [parseMetadata] reads the flag "key=value,key2=value2". *)
Definition parseMetadata (metadata : string) : gmap string string :=
  let result : gmap string string := ∅ in
  if bool_decide (metadata = "") then result
  else
    let pairs := strings_Split metadata comma in
    foldl (fun result pair =>
             match strings_SplitN2 pair equals with
             | [k; v] => <[strings_TrimSpace k := strings_TrimSpace v]> result
             | _ => result
             end) result pairs.

End parse.

(** [maskCard] shows the last four bytes of a card number. *)
Definition maskCard (number : string) : string :=
  if (String.length number <=? 4)%nat then number
  else "****" +:+ slice number (String.length number - 4) (String.length number).

(** What the flag of [parseMetadata] looks like for a list of pairs. *)
Definition flag_of (kvs : list (string * string)) : string :=
  String.concat (String comma "") ((fun kv => kv.1 +:+ String equals kv.2) <$> kvs).

(** The byte [c] does not occur in [s]. *)
Definition free_of (c : ascii) (s : string) : Prop :=
  ~ In c (list_ascii_of_string s).

End cmd_client.

(** ** More fixtures *)

Module fixtures_more.
Import crypto models storage pb_messages.

(** Bob's view of Alice's item. *)
Definition bobs_item : DataItem :=
  {| ID := "id-1"; UserID := "U2"; Type_ := DataTypeCredential; Name := "GitHub";
     EncryptedData := ["005"%byte]; Metadata := ∅; CreatedAt := 5 * fixtures.sec;
     UpdatedAt := 5 * fixtures.sec; Version := 1; Deleted := false |}.

(** What the client sends for "GitHub" once the blob is made. *)
Definition add_req (blob : list byte) : AddItemRequest.t :=
  {| AddItemRequest.Token := "t"; AddItemRequest.Type_ := pb.DataType_DATA_TYPE_CREDENTIAL;
     AddItemRequest.Name := "GitHub"; AddItemRequest.EncryptedData := blob;
     AddItemRequest.Metadata := ∅ |}.

(** A second device sends new data for the item and no metadata. *)
Definition upd_req : pb.UpdateItemRequest.t :=
  {| pb.UpdateItemRequest.Token := "t"; pb.UpdateItemRequest.ItemId := "id-1";
     pb.UpdateItemRequest.EncryptedData := ["002"%byte];
     pb.UpdateItemRequest.Metadata := None |}.

(** The same with a tag. *)
Definition tagged_req : pb.UpdateItemRequest.t :=
  {| pb.UpdateItemRequest.Token := "t"; pb.UpdateItemRequest.ItemId := "id-1";
     pb.UpdateItemRequest.EncryptedData := ["002"%byte];
     pb.UpdateItemRequest.Metadata := Some {[ "site" := "github.com" ]} |}.

(** Carol registers. *)
Definition carol_req : RegisterRequest.t :=
  {| RegisterRequest.Username := "carol"; RegisterRequest.Password := "correct horse" |}.

(** A password check that accepts one password for one hash; which error
    it returns otherwise is not looked at. *)
Definition check (password hash : string) : option error :=
  if bool_decide (password = "correct horse" /\ hash = "$2a$10$c") then None
  else Some ErrDecryptionFailed.

End fixtures_more.

(** * Properties *)

Import crypto models storage inflight race.

(** ** The envelope cipher *)


(** *** The test double keeps the contract *)

Lemma lxor_byte_bound (x y : N) : (x <= 255 -> y <= 255 -> N.lxor x y <= 255)%N.
Proof.
  intros Hx Hy.
  destruct (N.eq_dec (N.lxor x y) 0%N) as [->|Hnz]; [lia|].
  assert (N.log2 (N.lxor x y) < 8)%N as Hlog.
  { eapply N.le_lt_trans; [apply N.log2_lxor|].
    apply N.max_lub_lt.
    - destruct (N.eq_dec x 0%N) as [->|?]; [reflexivity|].
      apply N.log2_lt_pow2; lia.
    - destruct (N.eq_dec y 0%N) as [->|?]; [reflexivity|].
      apply N.log2_lt_pow2; lia. }
  apply N.log2_lt_pow2 in Hlog; lia.
Qed.

Lemma byte_xor_to_N a b :
  Byte.to_N (toy.byte_xor a b) = N.lxor (Byte.to_N a) (Byte.to_N b).
Proof.
  unfold toy.byte_xor.
  destruct (Byte.of_N _) as [c|] eqn:Hc; simpl.
  - by apply Byte.to_of_N.
  - apply Byte.of_N_None_iff in Hc.
    pose proof (lxor_byte_bound _ _ (Byte.to_N_bounded a) (Byte.to_N_bounded b)). lia.
Qed.

Lemma byte_xor_cancel a b : toy.byte_xor a (toy.byte_xor a b) = b.
Proof.
  unfold toy.byte_xor at 1. rewrite byte_xor_to_N.
  rewrite <- N.lxor_assoc, N.lxor_nilpotent, N.lxor_0_l, Byte.of_to_N. done.
Qed.

Lemma mask_cancel key nonce text : toy.mask key nonce (toy.mask key nonce text) = text.
Proof.
  unfold toy.mask. induction text as [|b text IH]; simpl; [done|].
  by rewrite byte_xor_cancel, IH.
Qed.

Lemma mask_length key nonce text : length (toy.mask key nonce text) = length text.
Proof. unfold toy.mask. apply List.length_map. Qed.

Lemma tag_length key nonce masked aad : length (toy.tag key nonce masked aad) = gcmTagSize.
Proof. unfold toy.tag. by rewrite List.length_map, List.length_seq. Qed.

Lemma toy_laws : CryptoLaws toy.provider.
Proof.
  split; simpl.
  - intros. unfold toy.Key. by rewrite List.length_map, List.length_seq.
  - intros key nonce plaintext _ _ _. unfold toy.Seal.
    by rewrite length_app, mask_length, tag_length.
  - intros key nonce plaintext _ _ _. unfold toy.Seal, toy.Open.
    rewrite length_app, mask_length, tag_length.
    replace (length plaintext + gcmTagSize - gcmTagSize)%nat with (length plaintext) by lia.
    destruct (Nat.ltb_spec (length plaintext + gcmTagSize) gcmTagSize) as [Hlt|_]; [lia|].
    rewrite take_app_length', drop_app_length' by (by rewrite mask_length).
    rewrite bool_decide_eq_true_2 by done.
    by rewrite mask_cancel.
  - intros key nonce ciphertext Hshort. unfold toy.Open.
    destruct (Nat.ltb_spec (length ciphertext) gcmTagSize); [done | lia].
Qed.

(** *** The envelope, under any primitives that keep the contract *)

Section envelope.
Context {C : CryptoProvider} {L : CryptoLaws C}.

(** [io.ReadFull] succeeds exactly when enough bytes are left. *)
Lemma io_ReadFull_enough (r : Reader) (n : nat) :
  (n <= length r)%nat -> io_ReadFull r n = (Ok (take n r), drop n r).
Proof.
  intros Hn. unfold io_ReadFull.
  by destruct (Nat.leb_spec n (length r)); [|lia].
Qed.

Lemma io_ReadFull_Ok (r r' : Reader) (n : nat) (bs : list byte) :
  io_ReadFull r n = (Ok bs, r') ->
  (n <= length r)%nat /\ bs = take n r /\ r' = drop n r /\ length bs = n.
Proof.
  unfold io_ReadFull. destruct (Nat.leb_spec n (length r)) as [Hle|Hgt].
  - intros [= <- <-]. rewrite length_take_le by done. done.
  - by destruct r.
Qed.

Lemma DeriveKey_length (password : string) (salt : list byte) :
  length (DeriveKey password salt) = KeySize.
Proof. apply pbkdf2_Key_length. Qed.

(** What [Encrypt] returns when it returns, and when it does. *)
Lemma Encrypt_Ok (plaintext key : list byte) (r r' : Reader) (out : list byte) :
  Encrypt plaintext key r = (Ok out, r') ->
  aes_key_size_ok (length key) = true /\
  (NonceSize <= length r)%nat /\
  (N.of_nat (length plaintext) <= gcmMaxPlaintext)%N /\
  out = take NonceSize r ++ gcm_Seal key (take NonceSize r) plaintext [] /\
  r' = drop NonceSize r.
Proof.
  unfold Encrypt, aes_NewCipher.
  destruct (aes_key_size_ok (length key)) eqn:Hkey; [|done].
  destruct (io_ReadFull r NonceSize) as [[nonce|e|m] r1] eqn:Hread; [|done..].
  apply io_ReadFull_Ok in Hread as (Hlen & -> & -> & Hn).
  unfold AEAD_Seal. rewrite Hn, Nat.eqb_refl. simpl.
  destruct (N.ltb_spec gcmMaxPlaintext (N.of_nat (length plaintext))); [done|].
  by intros [= <- <-].
Qed.

Lemma Encrypt_enough (plaintext key : list byte) (r : Reader) :
  aes_key_size_ok (length key) = true ->
  (NonceSize <= length r)%nat ->
  (N.of_nat (length plaintext) <= gcmMaxPlaintext)%N ->
  Encrypt plaintext key r =
    (Ok (take NonceSize r ++ gcm_Seal key (take NonceSize r) plaintext []),
     drop NonceSize r).
Proof.
  intros Hkey Hr Hp. unfold Encrypt, aes_NewCipher. rewrite Hkey.
  rewrite io_ReadFull_enough by done. unfold AEAD_Seal.
  rewrite length_take_le, Nat.eqb_refl by done. simpl.
  by destruct (N.ltb_spec gcmMaxPlaintext (N.of_nat (length plaintext))); [lia|].
Qed.

Lemma Decrypt_Seal (plaintext key nonce : list byte) :
  aes_key_size_ok (length key) = true ->
  length nonce = NonceSize ->
  (N.of_nat (length plaintext) <= gcmMaxPlaintext)%N ->
  Decrypt (nonce ++ gcm_Seal key nonce plaintext []) key = Ok plaintext.
Proof.
  intros Hkey Hn Hp. unfold Decrypt, aes_NewCipher. rewrite Hkey.
  rewrite length_app, Hn.
  destruct (Nat.ltb_spec (NonceSize + length (gcm_Seal key nonce plaintext [])) NonceSize);
    [lia|].
  rewrite take_app_length', drop_app_length' by done.
  unfold AEAD_Open. rewrite Hn, Nat.eqb_refl. simpl.
  by rewrite gcm_Open_Seal.
Qed.

(** The same for [EncryptWithPassword]. *)
Lemma EncryptWithPassword_Ok (P : list byte) (S : string) (r r' : Reader) (blob : list byte) :
  EncryptWithPassword P S r = (Ok blob, r') ->
  let salt := take SaltSize r in
  let nonce := take NonceSize (drop SaltSize r) in
  (SaltSize + NonceSize <= length r)%nat /\
  (N.of_nat (length P) <= gcmMaxPlaintext)%N /\
  blob = salt ++ nonce ++ gcm_Seal (DeriveKey S salt) nonce P [] /\
  r' = drop (SaltSize + NonceSize) r.
Proof.
  unfold EncryptWithPassword, GenerateSalt.
  destruct (io_ReadFull r SaltSize) as [[salt|e|m] r1] eqn:Hsalt; [|done..].
  apply io_ReadFull_Ok in Hsalt as (Hlen & -> & -> & Hs).
  destruct (Encrypt P _ _) as [[ct|e|m] r2] eqn:Henc; [|done..].
  apply Encrypt_Ok in Henc as (_ & Hn & HP & -> & ->).
  intros [= <- <-]. rewrite length_drop in Hn. rewrite drop_drop.
  repeat split; [lia | done].
Qed.

Lemma EncryptWithPassword_enough (P : list byte) (S : string) (r : Reader) :
  (SaltSize + NonceSize <= length r)%nat ->
  (N.of_nat (length P) <= gcmMaxPlaintext)%N ->
  let salt := take SaltSize r in
  let nonce := take NonceSize (drop SaltSize r) in
  EncryptWithPassword P S r =
    (Ok (salt ++ nonce ++ gcm_Seal (DeriveKey S salt) nonce P []),
     drop (SaltSize + NonceSize) r).
Proof.
  intros Hr HP. unfold EncryptWithPassword, GenerateSalt.
  rewrite io_ReadFull_enough by lia.
  rewrite Encrypt_enough; [by rewrite drop_drop | | | done].
  - by rewrite DeriveKey_length.
  - rewrite length_drop. lia.
Qed.

Lemma DecryptWithPassword_envelope (P : list byte) (S : string) (salt nonce : list byte) :
  length salt = SaltSize ->
  length nonce = NonceSize ->
  (N.of_nat (length P) <= gcmMaxPlaintext)%N ->
  DecryptWithPassword (salt ++ nonce ++ gcm_Seal (DeriveKey S salt) nonce P []) S = Ok P.
Proof.
  intros Hs Hn HP. unfold DecryptWithPassword.
  rewrite !length_app, Hs, Hn.
  destruct (Nat.ltb_spec (SaltSize + (NonceSize + length (gcm_Seal (DeriveKey S salt) nonce P [])))
              (SaltSize + NonceSize)); [lia|].
  rewrite take_app_length', drop_app_length' by done.
  apply Decrypt_Seal; [by rewrite DeriveKey_length | done..].
Qed.

(** C1.  Decrypting, with the same secret, the blob that
    [EncryptWithPassword] returned for a plaintext gives back that plaintext;
    and [EncryptWithPassword] does return a blob whenever the random source
    delivers the 32 + 12 bytes it asks for and the plaintext is within the
    size limit of GCM. *)
Theorem EncryptWithPassword_roundtrip (P : list byte) (S : string) (r : Reader) :
  (forall blob r', EncryptWithPassword P S r = (Ok blob, r') ->
                   DecryptWithPassword blob S = Ok P) /\
  ((SaltSize + NonceSize <= length r)%nat ->
   (N.of_nat (length P) <= gcmMaxPlaintext)%N ->
   exists blob r', EncryptWithPassword P S r = (Ok blob, r')).
Proof.
  split.
  - intros blob r' Henc.
    apply EncryptWithPassword_Ok in Henc as (Hr & HP & -> & _).
    apply DecryptWithPassword_envelope; [| | done].
    + rewrite length_take_le; [done | lia].
    + rewrite length_take_le; [done | rewrite length_drop; lia].
  - intros Hr HP. eexists _, _. by apply EncryptWithPassword_enough.
Qed.

(** C8.  The blob that [EncryptWithPassword] returns is a 32-byte salt, then
    a 12-byte nonce, then what GCM sealed of the plaintext under the key
    derived from secret and salt, which is 16 bytes (the tag) longer than the
    plaintext: length(P) + 32 + 12 + 16 bytes in all.  Salt and nonce are the
    bytes read from the random source, in this order. *)
Theorem EncryptWithPassword_layout (P : list byte) (S : string) (r : Reader) :
  (forall blob r', EncryptWithPassword P S r = (Ok blob, r') ->
     let salt := take 32 blob in
     let nonce := take 12 (drop 32 blob) in
     let sealed := drop (32 + 12) blob in
     blob = salt ++ nonce ++ sealed /\
     length salt = 32%nat /\ salt = take 32 r /\
     length nonce = 12%nat /\ nonce = take 12 (drop 32 r) /\
     sealed = gcm_Seal (DeriveKey S salt) nonce P [] /\
     length sealed = (length P + 16)%nat /\
     length blob = (length P + 32 + 12 + 16)%nat) /\
  ((32 + 12 <= length r)%nat ->
   (N.of_nat (length P) <= gcmMaxPlaintext)%N ->
   exists blob r', EncryptWithPassword P S r = (Ok blob, r')).
Proof.
  split.
  - intros blob r' Henc.
    apply EncryptWithPassword_Ok in Henc as (Hr & HP & Hblob & _).
    change SaltSize with 32%nat in *. change NonceSize with 12%nat in *.
    assert (length (take 32 r) = 32%nat) as Hs by (rewrite length_take_le; lia).
    assert (length (take 12 (drop 32 r)) = 12%nat) as Hn
      by (rewrite length_take_le; [done | rewrite length_drop; lia]).
    assert (length (gcm_Seal (DeriveKey S (take 32 r)) (take 12 (drop 32 r)) P [])
            = (length P + 16)%nat) as Hc.
    { apply gcm_Seal_length; [by rewrite DeriveKey_length | done..]. }
    assert (take 32 blob = take 32 r) as Hts
      by (rewrite Hblob; by apply take_app_length').
    assert (drop 32 blob = take 12 (drop 32 r) ++
              gcm_Seal (DeriveKey S (take 32 r)) (take 12 (drop 32 r)) P []) as Hd
      by (rewrite Hblob; by apply drop_app_length').
    cbv zeta. rewrite <- drop_drop, Hts, Hd.
    rewrite take_app_length', drop_app_length' by done.
    repeat split; try done.
    rewrite Hblob, !length_app, Hs, Hn, Hc. lia.
  - intros Hr HP. eexists _, _. by apply EncryptWithPassword_enough.
Qed.

(** [Decrypt] and [DecryptWithPassword] by cases. *)
Lemma Decrypt_unfold (ct key : list byte) :
  aes_key_size_ok (length key) = true ->
  Decrypt ct key =
    if (length ct <? NonceSize)%nat then Err ErrInvalidCiphertext
    else match gcm_Open key (take NonceSize ct) (drop NonceSize ct) [] with
         | Some plaintext => Ok plaintext
         | None => Err ErrDecryptionFailed
         end.
Proof.
  intros Hkey. unfold Decrypt, aes_NewCipher. rewrite Hkey.
  destruct (Nat.ltb_spec (length ct) NonceSize) as [|Hge]; [done|].
  unfold AEAD_Open. rewrite length_take_le, Nat.eqb_refl by done. simpl.
  by destruct (gcm_Open _ _ _ _).
Qed.

Lemma DecryptWithPassword_unfold (blob : list byte) (S : string) :
  DecryptWithPassword blob S =
    if (length blob <? SaltSize + NonceSize)%nat then Err ErrInvalidCiphertext
    else match gcm_Open (DeriveKey S (take SaltSize blob))
                 (take NonceSize (drop SaltSize blob))
                 (drop NonceSize (drop SaltSize blob)) [] with
         | Some plaintext => Ok plaintext
         | None => Err ErrDecryptionFailed
         end.
Proof.
  unfold DecryptWithPassword.
  destruct (Nat.ltb_spec (length blob) (SaltSize + NonceSize)) as [|Hge]; [done|].
  rewrite Decrypt_unfold by (by rewrite DeriveKey_length).
  rewrite length_drop.
  by destruct (Nat.ltb_spec (length blob - SaltSize) NonceSize); [lia|].
Qed.

(** C9, as the code has it.  With a key of an AES size, [Decrypt] answers an
    input shorter than the 12-byte nonce with [ErrInvalidCiphertext], and an
    input of at least 12 bytes that GCM does not open (too short for a tag,
    altered, or sealed under another key) with the one error
    [ErrDecryptionFailed]; it returns no other error.
    [DecryptWithPassword] returns [ErrInvalidCiphertext] exactly when the
    blob is shorter than 32 + 12 bytes, and otherwise fails only with
    [ErrDecryptionFailed], whenever GCM does not open the rest under the key
    derived from the secret and the salt in front. *)
Theorem Decrypt_errors (ct key blob : list byte) (S : string) :
  aes_key_size_ok (length key) = true ->
  ((length ct < 12)%nat -> Decrypt ct key = Err ErrInvalidCiphertext) /\
  ((12 <= length ct)%nat ->
   gcm_Open key (take 12 ct) (drop 12 ct) [] = None ->
   Decrypt ct key = Err ErrDecryptionFailed) /\
  ((12 <= length ct < 12 + 16)%nat -> Decrypt ct key = Err ErrDecryptionFailed) /\
  (forall e, Decrypt ct key = Err e ->
             e = ErrInvalidCiphertext /\ (length ct < 12)%nat \/
             e = ErrDecryptionFailed /\ (12 <= length ct)%nat) /\
  (DecryptWithPassword blob S = Err ErrInvalidCiphertext <-> (length blob < 32 + 12)%nat) /\
  ((32 + 12 <= length blob)%nat ->
   gcm_Open (DeriveKey S (take 32 blob)) (take 12 (drop 32 blob))
            (drop 12 (drop 32 blob)) [] = None ->
   DecryptWithPassword blob S = Err ErrDecryptionFailed) /\
  (forall e, DecryptWithPassword blob S = Err e ->
             e = ErrInvalidCiphertext \/ e = ErrDecryptionFailed) /\
  ErrInvalidCiphertext <> ErrDecryptionFailed.
Proof.
  intros Hkey. rewrite DecryptWithPassword_unfold, (Decrypt_unfold ct key Hkey).
  change SaltSize with 32%nat. change NonceSize with 12%nat.
  repeat split.
  - intros Hlt. by destruct (Nat.ltb_spec (length ct) 12); [|lia].
  - intros Hge Hopen. destruct (Nat.ltb_spec (length ct) 12); [lia|]. by rewrite Hopen.
  - intros [Hge Hlt]. destruct (Nat.ltb_spec (length ct) 12); [lia|].
    rewrite gcm_Open_short; [done|]. rewrite length_drop. unfold gcmTagSize. lia.
  - intros e. destruct (Nat.ltb_spec (length ct) 12).
    + intros [= <-]. by left.
    + destruct (gcm_Open _ _ _ _); [done|]. intros [= <-]. by right.
  - destruct (Nat.ltb_spec (length blob) (32 + 12)); [done|].
    by destruct (gcm_Open _ _ _ _).
  - intros Hlt. by destruct (Nat.ltb_spec (length blob) (32 + 12)); [|lia].
  - intros Hge Hopen. destruct (Nat.ltb_spec (length blob) (32 + 12)); [lia|].
    by rewrite Hopen.
  - intros e. destruct (Nat.ltb_spec (length blob) (32 + 12)).
    + intros [= <-]. by left.
    + destruct (gcm_Open _ _ _ _); [done|]. intros [= <-]. by right.
  - done.
Qed.

End envelope.

(** ** The item repository *)


(** *** Queries and statements on the table *)

Section queries.
Context (P : data_items.row -> Prop) `{!forall r, Decision (P r)}.

Lemma QueryRow_None (db : DB) :
  QueryRow P db = None <-> forall r, r ∈ tbl_data_items db -> ~ P r.
Proof.
  unfold QueryRow. rewrite head_None. split.
  - intros Hnil r Hr HP. by eapply filter_nil_not_elem_of.
  - intros Hno. induction (tbl_data_items db) as [|r rows IH]; [done|].
    rewrite filter_cons_False by (apply Hno; left).
    apply IH. intros r' Hr'. apply Hno. by right.
Qed.

Lemma QueryRow_Some (db : DB) (r : data_items.row) :
  QueryRow P db = Some r -> r ∈ tbl_data_items db /\ P r.
Proof.
  unfold QueryRow. intros Hhead.
  apply head_Some_elem_of, list_elem_of_filter in Hhead. tauto.
Qed.

Lemma update_rows_none (set : data_items.row -> error + data_items.row)
  (rows : list data_items.row) :
  (forall r, r ∈ rows -> ~ P r) -> update_rows P set rows = inr (rows, 0).
Proof.
  induction rows as [|r rows IH]; intros Hno; simpl; [done|].
  rewrite IH by (intros r' Hr'; apply Hno; by right).
  rewrite decide_False by (apply Hno; left). done.
Qed.

Lemma update_rows_one (set : data_items.row -> error + data_items.row)
  (l1 l2 : list data_items.row) (r : data_items.row) :
  (forall x, x ∈ l1 -> ~ P x) ->
  (forall x, x ∈ l2 -> ~ P x) ->
  P r ->
  update_rows P set (l1 ++ r :: l2) =
    match set r with
    | inr r' => inr (l1 ++ r' :: l2, 1)
    | inl e => inl e
    end.
Proof.
  intros H1 H2 Hr. induction l1 as [|x l1 IH]; simpl.
  - rewrite update_rows_none by done. rewrite decide_True by done.
    by destruct (set r).
  - rewrite IH by (intros y Hy; apply H1; by right).
    destruct (set r); [done|].
    rewrite decide_False by (apply H1; left). done.
Qed.

End queries.


(** Under the primary key, the rows around a row have other ids. *)
Lemma primary_key_split (rows l1 l2 : list data_items.row) (r x : data_items.row) :
  NoDup (data_items.id <$> rows) -> rows = l1 ++ r :: l2 ->
  x ∈ l1 \/ x ∈ l2 -> data_items.id x <> data_items.id r.
Proof.
  intros Hnd -> Hx Heq. rewrite fmap_app, fmap_cons in Hnd.
  apply NoDup_app in Hnd as (_ & Hdisj & Hnd).
  apply NoDup_cons in Hnd as (Hnot & _).
  destruct Hx as [Hx|Hx].
  - apply (Hdisj (data_items.id x)); [by apply list_elem_of_fmap_2|].
    rewrite Heq. left.
  - apply Hnot. rewrite <- Heq. by apply list_elem_of_fmap_2.
Qed.

Lemma QueryRow_at (P : data_items.row -> Prop) `{!forall r, Decision (P r)}
  (db : DB) (l1 l2 : list data_items.row) (r : data_items.row) :
  tbl_data_items db = l1 ++ r :: l2 ->
  (forall x, x ∈ l1 -> ~ P x) -> P r ->
  QueryRow P db = Some r.
Proof.
  intros Hrows H1 Hr. unfold QueryRow. rewrite Hrows. clear Hrows.
  induction l1 as [|x l1 IH]; simpl.
  - by rewrite filter_cons_True.
  - rewrite filter_cons_False by (apply H1; left).
    apply IH. intros y Hy. apply H1. by right.
Qed.

(** *** What [db.Exec] makes of the metadata *)

Lemma metadataToJSON_None (m : gmap string string) :
  metadataToJSON m = None <-> m = ∅.
Proof.
  unfold metadataToJSON. destruct (Nat.eqb_spec (size m) 0) as [Hs|Hs].
  - split; [intros _; by apply map_size_empty_iff | done].
  - split; [done|]. intros ->. by rewrite map_size_empty in Hs.
Qed.

Lemma driver_args_untagged (ordinal : nat) (m : gmap string string) :
  m = ∅ -> driver_args ordinal (metadataToJSON m) = None.
Proof. intros Hm. apply metadataToJSON_None in Hm. by rewrite Hm. Qed.

Lemma driver_args_tagged (ordinal : nat) (m : gmap string string) :
  m <> ∅ -> driver_args ordinal (metadataToJSON m) = Some (sql_unsupported_type ordinal).
Proof.
  intros Hm. destruct (metadataToJSON m) eqn:Hj; [done|].
  by apply metadataToJSON_None in Hj.
Qed.

(** [CreateItem] of an item without tags sends its statement; of an item
    with tags it sends nothing. *)
Lemma CreateItem_untagged (uuid : string) (now1 now2 : Time) (item : DataItem) (db : DB) :
  Metadata item = ∅ ->
  CreateItem uuid now1 now2 item db =
    let item := {| ID := if bool_decide (ID item = "") then uuid else ID item;
                   UserID := UserID item; Type_ := Type_ item; Name := Name item;
                   EncryptedData := EncryptedData item; Metadata := Metadata item;
                   CreatedAt := now1; UpdatedAt := now2; Version := 1;
                   Deleted := Deleted item |} in
    let '(err, db') :=
      insert_data_items
        {| data_items.id := ID item; data_items.user_id := UserID item;
           data_items.type := Type_ item; data_items.name := Name item;
           data_items.encrypted_data := EncryptedData item;
           data_items.metadata := None;
           data_items.created_at := CreatedAt item;
           data_items.updated_at := UpdatedAt item;
           data_items.version := Version item;
           data_items.deleted := Deleted item |} db in
    (err, item, db').
Proof.
  intros Hm. unfold CreateItem. cbn [Metadata].
  rewrite driver_args_untagged by exact Hm.
  apply metadataToJSON_None in Hm. by rewrite Hm.
Qed.

Lemma CreateItem_tagged (uuid : string) (now1 now2 : Time) (item : DataItem) (db : DB) :
  Metadata item <> ∅ ->
  CreateItem uuid now1 now2 item db =
    (Some (sql_unsupported_type 6),
     {| ID := if bool_decide (ID item = "") then uuid else ID item;
        UserID := UserID item; Type_ := Type_ item; Name := Name item;
        EncryptedData := EncryptedData item; Metadata := Metadata item;
        CreatedAt := now1; UpdatedAt := now2; Version := 1;
        Deleted := Deleted item |}, db).
Proof.
  intros Hm. unfold CreateItem. cbn [Metadata].
  by rewrite driver_args_tagged by exact Hm.
Qed.

Lemma UpdateItem_exec_untagged (item : DataItem) (db : DB) :
  Metadata item = ∅ ->
  UpdateItem_exec item db =
    match Exec_update
            (fun r => data_items.id r = ID item /\ data_items.user_id r = UserID item
                      /\ data_items.version r = Version item
                      /\ data_items.deleted r = false)
            (UpdateItem_set item) db with
    | (inl err, db') => (Some err, db')
    | (inr rowsAffected, db') =>
        if rowsAffected =? 0 then (Some ErrVersionConflict, db')
        else (None, db')
    end.
Proof. intros Hm. unfold UpdateItem_exec. by rewrite driver_args_untagged by exact Hm. Qed.

Lemma UpdateItem_exec_tagged (item : DataItem) (db : DB) :
  Metadata item <> ∅ ->
  UpdateItem_exec item db = (Some (sql_unsupported_type 2), db).
Proof. intros Hm. unfold UpdateItem_exec. by rewrite driver_args_tagged by exact Hm. Qed.

(** The statement of [UpdateItem], for an item without tags, on a table in
    which the row with the id of the item is [r]. *)
Lemma UpdateItem_exec_at (item : DataItem) (db : DB)
  (l1 l2 : list data_items.row) (r : data_items.row) :
  primary_key db ->
  tbl_data_items db = l1 ++ r :: l2 ->
  data_items.id r = ID item ->
  Metadata item = ∅ ->
  UpdateItem_exec item db =
    if decide (data_items.user_id r = UserID item /\ data_items.version r = Version item
               /\ data_items.deleted r = false)
    then match UpdateItem_set item r with
         | inr r' => (None, {| tbl_users := tbl_users db; tbl_data_items := l1 ++ r' :: l2 |})
         | inl e => (Some e, db)
         end
    else (Some ErrVersionConflict, db).
Proof.
  intros Hpk Hrows Hid Hm. rewrite UpdateItem_exec_untagged by exact Hm.
  unfold Exec_update.
  assert (forall x, x ∈ l1 \/ x ∈ l2 -> data_items.id x <> ID item) as Hother.
  { intros x Hx. rewrite <- Hid. by eapply primary_key_split. }
  case_decide as Hmatch.
  - rewrite Hrows, update_rows_one; [| | |tauto].
    + by destruct (UpdateItem_set item r).
    + intros x Hx [Hx' _]. by eapply Hother; [left|].
    + intros x Hx [Hx' _]. by eapply Hother; [right|].
  - rewrite update_rows_none; [by destruct db|].
    intros x Hx HP. rewrite Hrows in Hx.
    apply elem_of_app in Hx as [Hx|Hx]; [by eapply Hother; [left|apply HP]|].
    apply elem_of_cons in Hx as [->|Hx]; [tauto|].
    by eapply Hother; [right|apply HP].
Qed.

Lemma int64_add_small (a : Z) :
  min_int64 <= a < max_int64 -> int64_add a 1 = a + 1.
Proof.
  unfold int64_add, min_int64, max_int64. intros Ha.
  rewrite Z.mod_small; lia.
Qed.

Lemma UpdateItem_set_Ok (item : DataItem) (r : data_items.row) :
  data_items.version r < max_int64 ->
  exists r', UpdateItem_set item r = inr r' /\
    data_items.id r' = data_items.id r /\
    data_items.user_id r' = data_items.user_id r /\
    data_items.type r' = data_items.type r /\
    data_items.name r' = data_items.name r /\
    data_items.encrypted_data r' = EncryptedData item /\
    data_items.metadata r' = metadataToJSON (Metadata item) /\
    data_items.created_at r' = data_items.created_at r /\
    data_items.updated_at r' = UpdatedAt item /\
    data_items.version r' = data_items.version r + 1 /\
    data_items.deleted r' = data_items.deleted r.
Proof.
  intros Hv. unfold UpdateItem_set.
  destruct (Z.ltb_spec max_int64 (data_items.version r + 1)); [lia|].
  eexists. split; [done|]. simpl. tauto.
Qed.

Lemma GetItem_at (db : DB) (l1 l2 : list data_items.row) (r : data_items.row) :
  primary_key db ->
  tbl_data_items db = l1 ++ r :: l2 ->
  data_items.deleted r = false ->
  GetItem (data_items.user_id r) (data_items.id r) db = Ok (scan_item r).
Proof.
  intros Hpk Hrows Hd. unfold GetItem.
  rewrite (QueryRow_at _ db l1 l2 r Hrows); [done| |done].
  intros x Hx [Hx' _]. by eapply primary_key_split; [| |left|].
Qed.

Lemma server_UpdateItem_live (now : Time) (db : DB)
  (l1 l2 : list data_items.row) (r : data_items.row)
  (claims : auth.Claims) (req : pb.UpdateItemRequest.t) :
  primary_key db ->
  tbl_data_items db = l1 ++ r :: l2 ->
  min_int64 <= data_items.version r < max_int64 ->
  auth.UserID claims = data_items.user_id r ->
  pb.UpdateItemRequest.ItemId req = data_items.id r ->
  data_items.deleted r = false ->
  default ∅ (pb.UpdateItemRequest.Metadata req) = ∅ ->
  exists r' db'',
    server.UpdateItem (Ok claims) req now db =
      (Ok {| pb.UpdateItemResponse.Message := "item updated successfully";
             pb.UpdateItemResponse.NewVersion := data_items.version r + 1 |}, db'') /\
    tbl_data_items db'' = l1 ++ r' :: l2 /\
    data_items.version r' = data_items.version r + 1.
Proof.
  intros Hpk Hrows Hrange Hc Hreq Hd Hm. unfold server.UpdateItem.
  rewrite Hc, Hreq, (GetItem_at db l1 l2 r) by done.
  unfold UpdateItem.
  rewrite (UpdateItem_exec_at _ db l1 l2 r Hpk Hrows); [|done|].
  2:{ simpl. destruct (pb.UpdateItemRequest.Metadata req); [exact Hm|].
      unfold jsonToMetadata. by case_bool_decide. }
  rewrite decide_True by done.
  match goal with |- context [UpdateItem_set ?i r] =>
    destruct (UpdateItem_set_Ok i r) as (r' & -> & Hr'); [lia|] end.
  simpl. rewrite int64_add_small by done.
  eexists r', _. split; [done|]. split; [done|]. tauto.
Qed.

(** C2, as the code has it.  [UpdateItem] of the repository on a stored
    item, with the request naming the item and its owner and carrying no
    tags: the call succeeds exactly when the stored version equals the
    version in the request and the item is not tombstoned.  On success the
    one statement has put the new ciphertext in the row, set its version to
    the expected version plus one and its updated-at to the clock reading,
    and left every other row alone; on failure the error is
    [ErrVersionConflict] and the database is what it was.  Test and write
    are the one step that the call takes on the database.  The call returns
    its error and nothing else: the item of the caller still carries the
    expected version.  The new version is returned by the handler
    [server.UpdateItem], whose request carries no version: it answers with
    the version it read itself, plus one. *)
Theorem UpdateItem_optimistic (now : Time) (item : DataItem) (db : DB)
  (l1 l2 : list data_items.row) (r : data_items.row) :
  primary_key db ->
  tbl_data_items db = l1 ++ r :: l2 ->
  data_items.id r = ID item ->
  data_items.user_id r = UserID item ->
  min_int64 <= data_items.version r < max_int64 ->
  Metadata item = ∅ ->
  exists err item' db',
    UpdateItem now item db = (err, item', db') /\
    (err = None <-> data_items.version r = Version item /\ data_items.deleted r = false) /\
    (err = None ->
       exists r', tbl_data_items db' = l1 ++ r' :: l2 /\ tbl_users db' = tbl_users db /\
         data_items.version r' = Version item + 1 /\
         data_items.updated_at r' = now /\
         data_items.encrypted_data r' = EncryptedData item /\
         data_items.metadata r' = metadataToJSON (Metadata item) /\
         data_items.id r' = data_items.id r /\
         data_items.user_id r' = data_items.user_id r /\
         data_items.type r' = data_items.type r /\
         data_items.name r' = data_items.name r /\
         data_items.created_at r' = data_items.created_at r /\
         data_items.deleted r' = false) /\
    (err <> None -> err = Some ErrVersionConflict /\ db' = db) /\
    UpdatedAt item' = now /\
    Version item' = Version item /\
    (forall t, inflight.call_step t (inflight.Stamped item') db
               = (inflight.Returned err item', db')) /\
    (forall (claims : auth.Claims) (req : pb.UpdateItemRequest.t),
       auth.UserID claims = data_items.user_id r ->
       pb.UpdateItemRequest.ItemId req = data_items.id r ->
       data_items.deleted r = false ->
       default ∅ (pb.UpdateItemRequest.Metadata req) = ∅ ->
       exists r' db'',
         server.UpdateItem (Ok claims) req now db =
           (Ok {| pb.UpdateItemResponse.Message := "item updated successfully";
                  pb.UpdateItemResponse.NewVersion := data_items.version r + 1 |}, db'') /\
         tbl_data_items db'' = l1 ++ r' :: l2 /\
         data_items.version r' = data_items.version r + 1).
Proof.
  intros Hpk Hrows Hid Huser Hrange Hm.
  unfold UpdateItem.
  rewrite (UpdateItem_exec_at _ db l1 l2 r Hpk Hrows) by done.
  destruct (UpdateItem_set_Ok (UpdateItem_stamp now item) r) as (r' & Hset & Hr'); [lia|].
  rewrite Hset. simpl.
  case_decide as Hmatch.
  - eexists _, _, _. split; [done|].
    destruct Hmatch as (_ & Hv & Hd). destruct Hr' as (?&?&?&?&?&?&?&?&?&?).
    repeat split; try done.
    + intros _. exists r'. simpl. repeat split; try done; congruence.
    + intros t. simpl. rewrite (UpdateItem_exec_at _ db l1 l2 r Hpk Hrows) by done.
      rewrite decide_True by done. by rewrite Hset.
    + intros claims req Hc Hreq Hd' Hreqm. by eapply server_UpdateItem_live.
  - eexists _, _, _. split; [done|]. repeat split; try done.
    + intros (Hv & Hd). destruct Hmatch. done.
    + intros t. simpl. rewrite (UpdateItem_exec_at _ db l1 l2 r Hpk Hrows) by done.
      by rewrite decide_False by done.
    + intros claims req Hc Hreq Hd Hreqm. by eapply server_UpdateItem_live.
Qed.

(** C4.  [GetItem] returns [ErrItemNotFound], and nothing else, exactly when
    every stored row with the given id is tombstoned or another owner's; so
    an id that no row has, the id of a tombstoned item and the id of another
    owner's item all get this one answer.  [GetItemByName] likewise, by
    name. *)
Theorem GetItem_not_found_uniform (db : DB) (userID itemID name : string) :
  let rows := tbl_data_items db in
  (GetItem userID itemID db = Err ErrItemNotFound <->
     forall r, r ∈ rows -> data_items.id r = itemID ->
               data_items.user_id r <> userID \/ data_items.deleted r = true) /\
  ((forall r, r ∈ rows -> data_items.id r <> itemID) ->
     GetItem userID itemID db = Err ErrItemNotFound) /\
  ((forall r, r ∈ rows -> data_items.id r = itemID -> data_items.deleted r = true) ->
     GetItem userID itemID db = Err ErrItemNotFound) /\
  ((forall r, r ∈ rows -> data_items.id r = itemID -> data_items.user_id r <> userID) ->
     GetItem userID itemID db = Err ErrItemNotFound) /\
  (forall e, GetItem userID itemID db = Err e -> e = ErrItemNotFound) /\
  (GetItemByName userID name db = Err ErrItemNotFound <->
     forall r, r ∈ rows -> data_items.name r = name ->
               data_items.user_id r <> userID \/ data_items.deleted r = true) /\
  ((forall r, r ∈ rows -> data_items.name r <> name) ->
     GetItemByName userID name db = Err ErrItemNotFound) /\
  ((forall r, r ∈ rows -> data_items.name r = name -> data_items.deleted r = true) ->
     GetItemByName userID name db = Err ErrItemNotFound) /\
  ((forall r, r ∈ rows -> data_items.name r = name -> data_items.user_id r <> userID) ->
     GetItemByName userID name db = Err ErrItemNotFound) /\
  (forall e, GetItemByName userID name db = Err e -> e = ErrItemNotFound).
Proof.
  intros rows.
  assert (GetItem userID itemID db = Err ErrItemNotFound <->
          forall r, r ∈ rows -> data_items.id r = itemID ->
                    data_items.user_id r <> userID \/ data_items.deleted r = true) as Hid.
  { unfold GetItem.
    destruct (QueryRow _ db) as [r|] eqn:Hq.
    - split; [done|]. intros Hall.
      apply QueryRow_Some in Hq as (Hr & Hi & Hu & Hd).
      destruct (Hall r Hr Hi) as [?|Hd']; [done | congruence].
    - split; [|done]. intros _ r Hr Hi.
      pose proof (proj1 (QueryRow_None _ db) Hq r Hr) as Hno.
      destruct (decide (data_items.user_id r = userID)); [|by left].
      right. destruct (data_items.deleted r) eqn:Hd; [done|]. by destruct Hno. }
  assert (GetItemByName userID name db = Err ErrItemNotFound <->
          forall r, r ∈ rows -> data_items.name r = name ->
                    data_items.user_id r <> userID \/ data_items.deleted r = true) as Hname.
  { unfold GetItemByName.
    destruct (QueryRow _ db) as [r|] eqn:Hq.
    - split; [done|]. intros Hall.
      apply QueryRow_Some in Hq as (Hr & Hu & Hn & Hd).
      destruct (Hall r Hr Hn) as [?|Hd']; [done | congruence].
    - split; [|done]. intros _ r Hr Hn.
      pose proof (proj1 (QueryRow_None _ db) Hq r Hr) as Hno.
      destruct (decide (data_items.user_id r = userID)); [|by left].
      right. destruct (data_items.deleted r) eqn:Hd; [done|]. by destruct Hno. }
  repeat split.
  - apply Hid.
  - apply Hid.
  - intros Habsent. apply Hid. intros r Hr Hi. by destruct (Habsent r Hr).
  - intros Hdel. apply Hid. intros r Hr Hi. right. by apply Hdel.
  - intros Hother. apply Hid. intros r Hr Hi. left. by apply Hother.
  - unfold GetItem. destruct (QueryRow _ db); [done|]. by intros e [= <-].
  - apply Hname.
  - apply Hname.
  - intros Habsent. apply Hname. intros r Hr Hn. by destruct (Habsent r Hr).
  - intros Hdel. apply Hname. intros r Hr Hn. right. by apply Hdel.
  - intros Hother. apply Hname. intros r Hr Hn. left. by apply Hother.
  - unfold GetItemByName. destruct (QueryRow _ db); [done|]. by intros e [= <-].
Qed.

Lemma insert_data_items_None (r : data_items.row) (db db' : DB) :
  insert_data_items r db = (None, db') ->
  (data_items.id r ∉ (data_items.id <$> tbl_data_items db)) /\
  (owner_name r ∉ (owner_name <$> tbl_data_items db)) /\
  data_items.user_id r ∈ (users.id <$> tbl_users db) /\
  db' = {| tbl_users := tbl_users db; tbl_data_items := tbl_data_items db ++ [r] |}.
Proof.
  unfold insert_data_items. repeat case_bool_decide; try done.
  by intros [= <-].
Qed.

Lemma jsonToMetadata_empty (jsonStr : string) : jsonToMetadata jsonStr = ∅.
Proof. unfold jsonToMetadata. by case_bool_decide. Qed.

Lemma scan_item_Metadata (r : data_items.row) : Metadata (scan_item r) = ∅.
Proof. apply jsonToMetadata_empty. Qed.

(** C5.  Whatever the [metadata] column of a row holds, the item read from it
    has the empty map as its [Metadata]: [jsonToMetadata] returns the empty
    map for every text.  So it is for the item of [GetItem] and of
    [GetItemByName] and for every item of [ListItems] and of
    [GetItemsModifiedAfter]; and so it is for the item read back after
    [CreateItem] has entered it, whatever its row holds. *)
Theorem reads_return_empty_Metadata (db : DB) (userID itemID name : string)
  (dataType : DataType) (timestamp : Time) :
  (forall jsonStr, jsonToMetadata jsonStr = ∅) /\
  (forall item, GetItem userID itemID db = Ok item -> Metadata item = ∅) /\
  (forall item, GetItemByName userID name db = Ok item -> Metadata item = ∅) /\
  (forall items, ListItems userID dataType db = Ok items ->
                 Forall (fun item => Metadata item = ∅) items) /\
  (forall items, GetItemsModifiedAfter userID timestamp db = Ok items ->
                 Forall (fun item => Metadata item = ∅) items) /\
  (forall uuid now1 now2 item item' db',
     CreateItem uuid now1 now2 item db = (None, item', db') ->
     Deleted item = false ->
     exists row got,
       row ∈ tbl_data_items db' /\
       data_items.metadata row = metadataToJSON (Metadata item) /\
       GetItem (UserID item') (ID item') db' = Ok got /\
       got = scan_item row /\
       Metadata got = ∅).
Proof.
  repeat split.
  - apply jsonToMetadata_empty.
  - unfold GetItem. destruct (QueryRow _ db); [|done].
    intros item [= <-]. apply scan_item_Metadata.
  - unfold GetItemByName. destruct (QueryRow _ db); [|done].
    intros item [= <-]. apply scan_item_Metadata.
  - unfold ListItems. intros items.
    destruct (negb _); intros [= <-]; apply Forall_fmap, Forall_forall;
      intros r _; apply scan_item_Metadata.
  - unfold GetItemsModifiedAfter. intros items [= <-].
    apply Forall_fmap, Forall_forall. intros r _. apply scan_item_Metadata.
  - intros uuid now1 now2 item item' db'.
    destruct (decide (Metadata item = ∅)) as [Hm|Hm];
      [|by rewrite CreateItem_tagged by exact Hm].
    rewrite CreateItem_untagged by exact Hm. cbv zeta.
    destruct (insert_data_items _ db) as [err db1] eqn:Hins.
    intros [= -> <- <-] Hlive.
    apply insert_data_items_None in Hins as (Hfresh & _ & _ & ->).
    simpl in *. eexists _, _. split; [apply elem_of_app; right; left|].
    split; [simpl; symmetry; by apply metadataToJSON_None|].
    split; [|split; [done | apply scan_item_Metadata]].
    unfold GetItem.
    erewrite (QueryRow_at _ _ (tbl_data_items db) []); [done|done| |done].
    intros x Hx [Hx' _]. apply Hfresh. rewrite <- Hx'. by apply list_elem_of_fmap_2.
Qed.

(** The items of [GetItemsModifiedAfter]. *)
Lemma GetItemsModifiedAfter_elem (db : DB) (userID : string) (timestamp : Time)
  (item : DataItem) :
  (exists items, GetItemsModifiedAfter userID timestamp db = Ok items /\ item ∈ items) <->
  (exists r, (data_items.user_id r = userID /\ timestamp < data_items.updated_at r)
             /\ r ∈ tbl_data_items db /\ item = scan_item r).
Proof.
  unfold GetItemsModifiedAfter. split.
  - intros (items & [= <-] & Hin). revert Hin.
    rewrite list_elem_of_fmap. setoid_rewrite merge_sort_Permutation.
    setoid_rewrite list_elem_of_filter.
    intros (r & H1 & H2); exists r; tauto.
  - intros (r & HP & Hr & ->). eexists. split; [done|].
    apply list_elem_of_fmap_2. rewrite merge_sort_Permutation.
    by apply list_elem_of_filter.
Qed.

(** C6.  [GetItemsModifiedAfter] returns, for an owner and a timestamp, the
    rows of that owner whose updated-at is strictly later than the timestamp,
    each once, tombstoned or not, and no other item; the items are in
    ascending order of updated-at. *)
Theorem GetItemsModifiedAfter_exact (db : DB) (userID : string) (timestamp : Time) :
  exists items,
    GetItemsModifiedAfter userID timestamp db = Ok items /\
    items ≡ₚ scan_item <$>
               filter (fun r => data_items.user_id r = userID
                                /\ timestamp < data_items.updated_at r) (tbl_data_items db) /\
    (forall r, r ∈ tbl_data_items db -> data_items.user_id r = userID ->
               timestamp < data_items.updated_at r -> scan_item r ∈ items) /\
    (forall item, item ∈ items ->
       exists r, r ∈ tbl_data_items db /\ item = scan_item r /\
                 UserID item = userID /\ timestamp < UpdatedAt item /\
                 Deleted item = data_items.deleted r) /\
    StronglySorted (fun a b => UpdatedAt a <= UpdatedAt b) items.
Proof.
  eexists. split; [done|]. repeat split.
  - by rewrite merge_sort_Permutation.
  - intros r Hr Hu Ht.
    destruct (proj2 (GetItemsModifiedAfter_elem db userID timestamp (scan_item r)))
      as (items & [= <-] & Hin); [by exists r | done].
  - intros item Hin.
    destruct (proj1 (GetItemsModifiedAfter_elem db userID timestamp item))
      as (r & (Hu & Ht) & Hr & ->); [by eexists | by exists r].
  - apply (StronglySorted_fmap _ updated_at_asc); [done|].
    apply StronglySorted_merge_sort; apply _.
Qed.

(** [DeleteItem] changes neither ids, nor owners, nor names. *)
Lemma update_rows_total (P : data_items.row -> Prop) `{!forall r, Decision (P r)}
  (f : data_items.row -> data_items.row) (rows : list data_items.row) :
  exists n, update_rows P (fun r => inr (f r)) rows =
              inr ((fun r => if decide (P r) then f r else r) <$> rows, n).
Proof.
  induction rows as [|r rows [n IH]]; simpl; [by eexists|].
  rewrite IH. case_decide; by eexists.
Qed.

Lemma DeleteItem_keeps_keys (now : Time) (userID itemID : string) (db : DB) :
  exists db',
    DeleteItem now userID itemID db = (None, db') /\
    tbl_users db' = tbl_users db /\
    data_items.id <$> tbl_data_items db' = data_items.id <$> tbl_data_items db /\
    owner_name <$> tbl_data_items db' = owner_name <$> tbl_data_items db.
Proof.
  unfold DeleteItem, Exec_update.
  match goal with |- context [update_rows ?P (fun r => inr (@?f r)) ?rows] =>
    destruct (update_rows_total P f rows) as [n ->] end.
  eexists. split; [done|]. simpl. split; [done|].
  split; rewrite <- list_fmap_compose; apply list_fmap_ext;
    intros i r _; simpl; by case_decide.
Qed.

Lemma insert_data_items_name_taken (r : data_items.row) (db : DB) :
  data_items.id r ∉ (data_items.id <$> tbl_data_items db) ->
  owner_name r ∈ (owner_name <$> tbl_data_items db) ->
  insert_data_items r db = (Some (pq_unique_violation "data_items_user_id_name_key"), db).
Proof.
  intros Hfresh Htaken. unfold insert_data_items.
  rewrite bool_decide_eq_false_2 by done.
  by rewrite bool_decide_eq_true_2 by done.
Qed.

Lemma insert_data_items_name_free (r : data_items.row) (db : DB) :
  data_items.id r ∉ (data_items.id <$> tbl_data_items db) ->
  owner_name r ∉ (owner_name <$> tbl_data_items db) ->
  data_items.user_id r ∈ (users.id <$> tbl_users db) ->
  insert_data_items r db =
    (None, {| tbl_users := tbl_users db; tbl_data_items := tbl_data_items db ++ [r] |}).
Proof.
  intros Hfresh Hfree Huser. unfold insert_data_items.
  rewrite bool_decide_eq_false_2 by done.
  rewrite bool_decide_eq_false_2 by done.
  by rewrite bool_decide_eq_true_2 by done.
Qed.

(** C3, as the code has it.  The uniqueness of (owner, name) covers every
    stored row, tombstoned ones too.  For an item without tags given a fresh
    id:
    [CreateItem] fails with the unique violation of the store, and changes
    nothing, when a row of the same owner, live or tombstoned, has the
    name; it succeeds, entering a row at version 1, when the name is used by
    other owners only (or by no one) and the owner is registered; and
    [DeleteItem] does not free a name: after it, the same create fails as
    before. *)
Theorem CreateItem_name_unique (uuid : string) (now1 now2 : Time) (item : DataItem) (db : DB) :
  let id := if bool_decide (ID item = "") then uuid else ID item in
  id ∉ (data_items.id <$> tbl_data_items db) ->
  Metadata item = ∅ ->
  exists item',
    ID item' = id /\ UserID item' = UserID item /\ Name item' = Name item /\
    Version item' = 1 /\
    ((exists r, r ∈ tbl_data_items db /\ data_items.user_id r = UserID item
                /\ data_items.name r = Name item) ->
     CreateItem uuid now1 now2 item db =
       (Some (pq_unique_violation "data_items_user_id_name_key"), item', db)) /\
    ((forall r, r ∈ tbl_data_items db -> data_items.name r = Name item ->
                data_items.user_id r <> UserID item) ->
     UserID item ∈ (users.id <$> tbl_users db) ->
     exists row,
       CreateItem uuid now1 now2 item db =
         (None, item',
          {| tbl_users := tbl_users db; tbl_data_items := tbl_data_items db ++ [row] |}) /\
       data_items.id row = id /\ data_items.user_id row = UserID item /\
       data_items.name row = Name item /\ data_items.version row = 1 /\
       data_items.encrypted_data row = EncryptedData item /\
       data_items.deleted row = Deleted item) /\
    (forall now userID itemID,
       (exists r, r ∈ tbl_data_items db /\ data_items.user_id r = UserID item
                  /\ data_items.name r = Name item) ->
       exists db2,
         DeleteItem now userID itemID db = (None, db2) /\
         CreateItem uuid now1 now2 item db2 =
           (Some (pq_unique_violation "data_items_user_id_name_key"), item', db2)).
Proof.
  intros id Hfresh Hm. eexists. split; [|split; [|split; [|split]]];
    [| | | |split; [|split]].
  6: { intros Hfree Huser. rewrite CreateItem_untagged by exact Hm. cbv zeta.
       rewrite insert_data_items_name_free; simpl; [|done| |done].
       - eexists. split; [reflexivity|]. simpl. done.
       - intros (r & [= Hu Hn] & Hr)%list_elem_of_fmap. by eapply Hfree. }
  all: simpl; try reflexivity.
  - intros (r & Hr & Hu & Hn). rewrite CreateItem_untagged by exact Hm. cbv zeta.
    rewrite insert_data_items_name_taken; simpl; [done|done|].
    apply list_elem_of_fmap. exists r. split; [|done]. unfold owner_name. simpl. congruence.
  - intros now userID itemID (r & Hr & Hu & Hn).
    destruct (DeleteItem_keeps_keys now userID itemID db) as (db2 & Hdel & _ & Hids & Hkeys).
    exists db2. split; [done|]. rewrite CreateItem_untagged by exact Hm. cbv zeta.
    rewrite insert_data_items_name_taken; simpl; [done|by rewrite Hids|].
    rewrite Hkeys. apply list_elem_of_fmap. exists r. split; [|done].
    unfold owner_name. simpl. congruence.
Qed.

Lemma update_rows_ids (P : data_items.row -> Prop) `{!forall r, Decision (P r)}
  (set : data_items.row -> error + data_items.row)
  (rows rows' : list data_items.row) (n : Z) :
  (forall r r', set r = inr r' -> data_items.id r' = data_items.id r) ->
  update_rows P set rows = inr (rows', n) ->
  data_items.id <$> rows' = data_items.id <$> rows.
Proof.
  intros Hset. revert rows' n. induction rows as [|r rows IH]; intros rows' n; simpl.
  - by intros [= <- <-].
  - destruct (update_rows P set rows) as [e|[rest m]]; [done|].
    case_decide.
    + destruct (set r) as [e|r'] eqn:Hr; [done|].
      intros [= <- <-]. rewrite !fmap_cons. f_equal; [by apply Hset | by eapply IH].
    + intros [= <- <-]. rewrite !fmap_cons. f_equal. by eapply IH.
Qed.

(** The operations keep the primary key: a database that the operations
    made from an empty one satisfies it. *)
Lemma CreateItem_primary_key (uuid : string) (now1 now2 : Time) (item : DataItem) (db : DB) :
  primary_key db -> primary_key (CreateItem uuid now1 now2 item db).2.
Proof.
  intros Hpk.
  destruct (decide (Metadata item = ∅)) as [Hm|Hm];
    [|by rewrite CreateItem_tagged by exact Hm].
  rewrite CreateItem_untagged by exact Hm. cbv zeta.
  destruct (insert_data_items _ db) as [[err|] db'] eqn:Hins; simpl.
  - unfold insert_data_items in Hins.
    repeat case_bool_decide; simplify_eq; assumption.
  - apply insert_data_items_None in Hins as (Hfresh & _ & _ & ->).
    unfold primary_key in *. simpl in *. rewrite fmap_app. apply NoDup_app.
    split; [done|]. split; [|apply NoDup_singleton].
    intros x Hx ->%list_elem_of_singleton. done.
Qed.

Lemma UpdateItem_primary_key (now : Time) (item : DataItem) (db : DB) :
  primary_key db -> primary_key (UpdateItem now item db).2.
Proof.
  intros Hpk. unfold UpdateItem.
  destruct (decide (Metadata (UpdateItem_stamp now item) = ∅)) as [Hm|Hm];
    [|by rewrite UpdateItem_exec_tagged by exact Hm].
  rewrite UpdateItem_exec_untagged by exact Hm. unfold Exec_update.
  destruct (update_rows _ _ (tbl_data_items db)) as [e|[rows' n]] eqn:Hupd; simpl; [done|].
  apply update_rows_ids in Hupd.
  - assert (primary_key {| tbl_users := tbl_users db; tbl_data_items := rows' |})
      by (unfold primary_key in *; simpl; by rewrite Hupd).
    by destruct (n =? 0).
  - intros r r'. unfold UpdateItem_set. case_match; [done|]. by intros [= <-].
Qed.

Lemma DeleteItem_primary_key (now : Time) (userID itemID : string) (db : DB) :
  primary_key db -> primary_key (DeleteItem now userID itemID db).2.
Proof.
  intros Hpk. destruct (DeleteItem_keeps_keys now userID itemID db) as (db' & -> & _ & Hids & _).
  unfold primary_key in *. simpl. by rewrite Hids.
Qed.

(** C7, as the code has it.  [Sync] answers with the items that
    [GetItemsModifiedAfter] found for the owner after the old watermark, and
    with a new watermark that is the clock read when the response is built,
    after the query, in whole seconds; the watermark does not depend on the
    items.  A later [Sync] from that watermark delivers every row of the
    owner whose updated-at is then strictly later than it. *)
Theorem Sync_watermark (claims : auth.Claims) (req : pb.SyncRequest.t)
  (asked answered : server.World) :
  exists resp items,
    server.Sync (Ok claims) req asked answered = Ok resp /\
    GetItemsModifiedAfter (auth.UserID claims)
      (time_Unix (pb.SyncRequest.LastSyncTimestamp req)) (server.store asked) = Ok items /\
    pb.SyncResponse.Items resp = server.modelItemToProtoItem <$> items /\
    pb.SyncResponse.SyncTimestamp resp = Time_Unix (server.clock answered) /\
    (forall asked', exists resp',
       server.Sync (Ok claims) req asked' answered = Ok resp' /\
       pb.SyncResponse.SyncTimestamp resp' = pb.SyncResponse.SyncTimestamp resp) /\
    (forall token asked2 answered2 r,
       r ∈ tbl_data_items (server.store asked2) ->
       data_items.user_id r = auth.UserID claims ->
       time_Unix (pb.SyncResponse.SyncTimestamp resp) < data_items.updated_at r ->
       exists resp2,
         server.Sync (Ok claims)
           {| pb.SyncRequest.Token := token;
              pb.SyncRequest.LastSyncTimestamp := pb.SyncResponse.SyncTimestamp resp |}
           asked2 answered2 = Ok resp2 /\
         server.modelItemToProtoItem (scan_item r) ∈ pb.SyncResponse.Items resp2).
Proof.
  unfold server.Sync. eexists _, _. split; [reflexivity|]. simpl.
  repeat split.
  - intros asked'. by eexists.
  - intros token asked2 answered2 r Hr Hu Ht.
    destruct (proj2 (GetItemsModifiedAfter_elem (server.store asked2) (auth.UserID claims)
                       (time_Unix (Time_Unix (server.clock answered))) (scan_item r)))
      as (items2 & Hq2 & Hin); [by exists r|].
    unfold GetItemsModifiedAfter in Hq2. injection Hq2 as <-.
    eexists. split; [reflexivity|]. simpl.
    by apply list_elem_of_fmap_2.
Qed.

(** ** Calls in flight *)


(** The invariant of the race is kept by every step. *)

Section race.
Context (l1 l2 : list data_items.row) (k u : string) (N : Z).
Hypothesis N_range : N < max_int64.

Lemma targets_stamp (now : Time) (item : DataItem) :
  targets k u N item -> targets k u N (UpdateItem_stamp now item).
Proof. by intros (? & ? & ? & ?). Qed.

Lemma exec_wins (item : DataItem) (db : DB) :
  targets k u N item -> stored_at l1 l2 k u N db ->
  exists db', UpdateItem_exec item db = (None, db') /\ stored_at l1 l2 k u (N + 1) db'.
Proof.
  intros (Hk & Hu & Hv & Hm) (Hpk & r & Hrows & Hid & Huser & Hver & Hlive).
  rewrite (UpdateItem_exec_at item db l1 l2 r Hpk Hrows) by congruence.
  rewrite decide_True by (repeat split; congruence).
  destruct (UpdateItem_set_Ok item r) as (r' & -> & Hr'); [lia|].
  destruct Hr' as (Hid' & Hu' & _ & _ & _ & _ & _ & _ & Hv' & Hd').
  eexists. split; [done|]. split.
  - unfold primary_key in *. simpl. rewrite Hrows in Hpk.
    rewrite fmap_app, fmap_cons in *. by rewrite Hid'.
  - exists r'. simpl. repeat split; congruence.
Qed.

Lemma exec_loses (item : DataItem) (db : DB) :
  targets k u N item -> stored_at l1 l2 k u (N + 1) db ->
  UpdateItem_exec item db = (Some ErrVersionConflict, db).
Proof.
  intros (Hk & Hu & Hv & Hm) (Hpk & r & Hrows & Hid & Huser & Hver & Hlive).
  rewrite (UpdateItem_exec_at item db l1 l2 r Hpk Hrows) by congruence.
  rewrite decide_False; [done|]. intros (_ & Hv' & _). lia.
Qed.

Lemma race_inv_step (f : flight) (t : turn * Time) :
  race_inv l1 l2 k u N f -> race_inv l1 l2 k u N (step f t).
Proof.
  destruct f as [c1 c2 db], t as [[] now]; unfold step; simpl; intros [H1 H2 Hdb|H1 H2 Hdb|H1 H2 Hdb]; simpl in *.
  - (* open, first moves *)
    destruct c1 as [item|item|]; simpl in *; [| |done].
    + apply race_open; simpl; auto using targets_stamp.
    + destruct (exec_wins item db) as (db' & -> & Hdb'); [done..|].
      apply race_first; simpl; [by exists item | by left | done].
  - (* first has won, first moves *)
    destruct H1 as (item & -> & Ht). simpl. apply race_first; simpl; [by exists item|done..].
  - (* second has won, first moves *)
    destruct H1 as [H1|(item & -> & Ht)].
    + destruct c1 as [item|item|]; simpl in *; [| |done].
      * apply race_second; simpl; [left; by apply targets_stamp | done..].
      * rewrite exec_loses by done.
        apply race_second; simpl; [right; by exists item | done..].
    + simpl. apply race_second; simpl; [right; by exists item | done..].
  - (* open, second moves *)
    destruct c2 as [item|item|]; simpl in *; [| |done].
    + apply race_open; simpl; auto using targets_stamp.
    + destruct (exec_wins item db) as (db' & -> & Hdb'); [done..|].
      apply race_second; simpl; [by left | by exists item | done].
  - (* first has won, second moves *)
    destruct H2 as [H2|(item & -> & Ht)].
    + destruct c2 as [item|item|]; simpl in *; [| |done].
      * apply race_first; simpl; [done | left; by apply targets_stamp | done].
      * rewrite exec_loses by done.
        apply race_first; simpl; [done | right; by exists item | done].
    + simpl. apply race_first; simpl; [done | right; by exists item | done].
  - (* second has won, second moves *)
    destruct H2 as (item & -> & Ht). simpl. apply race_second; simpl; [done | by exists item | done].
Qed.

Lemma race_inv_run (schedule : list (turn * Time)) (f : flight) :
  race_inv l1 l2 k u N f -> race_inv l1 l2 k u N (run schedule f).
Proof.
  unfold run. revert f. induction schedule as [|t schedule IH]; intros f Hf; simpl; [done|].
  by apply IH, race_inv_step.
Qed.

End race.

(** A call returns with its second step. *)
Lemma phase_step_first (f : flight) (t : turn * Time) :
  phase (first (step f t)) =
    if decide (t.1 = FirstCall) then Nat.min 2 (S (phase (first f))) else phase (first f).
Proof.
  destruct f as [c1 c2 db], t as [[] now]; unfold step; simpl.
  - destruct c1; simpl; [done| |done]. by destruct (UpdateItem_exec _ _).
  - by destruct (call_step now c2 db).
Qed.

Lemma phase_step_second (f : flight) (t : turn * Time) :
  phase (second (step f t)) =
    if decide (t.1 = SecondCall) then Nat.min 2 (S (phase (second f))) else phase (second f).
Proof.
  destruct f as [c1 c2 db], t as [[] now]; unfold step; simpl.
  - by destruct (call_step now c1 db).
  - destruct c2; simpl; [done| |done]. by destruct (UpdateItem_exec _ _).
Qed.

Lemma phase_run_first (schedule : list (turn * Time)) (f : flight) :
  phase (first (run schedule f)) = Nat.min 2 (phase (first f) + turns FirstCall schedule).
Proof.
  unfold run, turns. revert f. induction schedule as [|t schedule IH]; intros f.
  - change (phase (first f) = Nat.min 2 (phase (first f) + 0)).
    destruct (first f); simpl; lia.
  - change (foldl step f (t :: schedule)) with (foldl step (step f t) schedule).
    rewrite IH, phase_step_first, filter_cons.
    case_decide; cbn [length]; lia.
Qed.

Lemma phase_run_second (schedule : list (turn * Time)) (f : flight) :
  phase (second (run schedule f)) = Nat.min 2 (phase (second f) + turns SecondCall schedule).
Proof.
  unfold run, turns. revert f. induction schedule as [|t schedule IH]; intros f.
  - change (phase (second f) = Nat.min 2 (phase (second f) + 0)).
    destruct (second f); simpl; lia.
  - change (foldl step f (t :: schedule)) with (foldl step (step f t) schedule).
    rewrite IH, phase_step_second, filter_cons.
    case_decide; cbn [length]; lia.
Qed.

(** Two calls of [UpdateItem] for one stored item, both without tags and
    both presenting its current version N, run at the same time: however
    their steps are interleaved, once both have returned, one of them has
    returned no error and the other [ErrVersionConflict]; the row is at
    version N + 1, which is also what the handler computes from the winner's
    item as the new version; and both calls do return as soon as each has
    had its two steps. *)
Lemma concurrent_UpdateItem_one_wins (db : DB) (l1 l2 : list data_items.row)
  (r : data_items.row) (a b : DataItem) (schedule : list (turn * Time)) :
  primary_key db ->
  tbl_data_items db = l1 ++ r :: l2 ->
  data_items.deleted r = false ->
  min_int64 <= data_items.version r < max_int64 ->
  ID a = data_items.id r -> UserID a = data_items.user_id r ->
  Version a = data_items.version r -> Metadata a = ∅ ->
  ID b = data_items.id r -> UserID b = data_items.user_id r ->
  Version b = data_items.version r -> Metadata b = ∅ ->
  (2 <= turns FirstCall schedule)%nat ->
  (2 <= turns SecondCall schedule)%nat ->
  exists ea eb a' b' db' r',
    run schedule {| first := Called a; second := Called b; shared := db |} =
      {| first := Returned ea a'; second := Returned eb b'; shared := db' |} /\
    (ea = None /\ eb = Some ErrVersionConflict \/
     ea = Some ErrVersionConflict /\ eb = None) /\
    tbl_data_items db' = l1 ++ r' :: l2 /\
    data_items.id r' = data_items.id r /\
    data_items.version r' = data_items.version r + 1 /\
    (ea = None -> int64_add (Version a') 1 = data_items.version r + 1) /\
    (eb = None -> int64_add (Version b') 1 = data_items.version r + 1).
Proof.
  intros Hpk Hrows Hlive Hrange Ha1 Ha2 Ha3 Ha4 Hb1 Hb2 Hb3 Hb4 Hturns1 Hturns2.
  set (f0 := {| first := Called a; second := Called b; shared := db |}).
  assert (race_inv l1 l2 (data_items.id r) (data_items.user_id r) (data_items.version r)
            (run schedule f0)) as Hinv.
  { apply race_inv_run; [lia|]. apply race_open; simpl; [done..|].
    split; [done|]. by exists r. }
  assert (phase (first (run schedule f0)) = 2%nat) as Hp1.
  { rewrite phase_run_first. change (phase (first f0)) with 0%nat. lia. }
  assert (phase (second (run schedule f0)) = 2%nat) as Hp2.
  { rewrite phase_run_second. change (phase (second f0)) with 0%nat. lia. }
  destruct (run schedule f0) as [c1 c2 db']. simpl in *.
  destruct c1 as [?|?|ea a']; [done..|].
  destruct c2 as [?|?|eb b']; [done..|].
  destruct Hinv as [[] _ _ | (i & [= -> ->] & Hi) [[]|(j & [= -> ->] & Hj)] Hdb
                          | [[]|(i & [= -> ->] & Hi)] (j & [= -> ->] & Hj) Hdb];
    simpl in *;
    destruct Hdb as (_ & r' & Hrows' & Hid' & _ & Hv' & _);
    destruct Hi as (_ & _ & Hiv & _), Hj as (_ & _ & Hjv & _);
    eexists _, _, _, _, _, r'; (split; [reflexivity|]);
    rewrite Hiv, Hjv, !int64_add_small by done; tauto.
Qed.

(** ** The properties on concrete data *)


(** The round trip of C1 on the test double. *)
Lemma EncryptWithPassword_roundtrip_witness :
  exists blob r',
    @EncryptWithPassword toy.provider fixtures.plaintext "mypassword" fixtures.entropy
      = (Ok blob, r') /\
    @DecryptWithPassword toy.provider blob "mypassword" = Ok fixtures.plaintext.
Proof.
  destruct (EncryptWithPassword_roundtrip (C := toy.provider) (L := toy_laws)
              fixtures.plaintext "mypassword" fixtures.entropy) as [Hback Hreturns].
  destruct Hreturns as (blob & r' & Henc).
  - vm_compute. lia.
  - by vm_compute.
  - exists blob, r'. split; [exact Henc | exact (Hback blob r' Henc)].
Defined.

(** The layout of C8 on the test double: 18 bytes of plaintext give a blob of
    78 bytes. *)
Lemma EncryptWithPassword_layout_witness :
  exists blob r',
    @EncryptWithPassword toy.provider fixtures.plaintext "mypassword" fixtures.entropy
      = (Ok blob, r') /\
    take 32 blob = take 32 fixtures.entropy /\
    take 12 (drop 32 blob) = take 12 (drop 32 fixtures.entropy) /\
    length blob = 78%nat.
Proof.
  destruct (EncryptWithPassword_layout (C := toy.provider) (L := toy_laws)
              fixtures.plaintext "mypassword" fixtures.entropy) as [Hlayout Hreturns].
  destruct Hreturns as (blob & r' & Henc).
  - vm_compute. lia.
  - by vm_compute.
  - exists blob, r'. split; [exact Henc|].
    destruct (Hlayout blob r' Henc) as (_ & _ & Hs & _ & Hn & _ & _ & Hlen).
    split; [exact Hs|]. split; [exact Hn|exact Hlen].
Defined.

(** C9 on the test double: the inputs of [TestDecryptInvalidCiphertext]. *)
Lemma Decrypt_errors_witness :
  @Decrypt toy.provider fixtures.short fixtures.key = Err ErrInvalidCiphertext /\
  @DecryptWithPassword toy.provider fixtures.short "testpassword" = Err ErrInvalidCiphertext /\
  @DecryptWithPassword toy.provider fixtures.zeros "testpassword" = Err ErrDecryptionFailed.
Proof.
  destruct (Decrypt_errors (C := toy.provider) (L := toy_laws)
              fixtures.short fixtures.key fixtures.zeros "testpassword" eq_refl)
    as (Hshort & _ & _ & _ & _ & Hzeros & _).
  destruct (Decrypt_errors (C := toy.provider) (L := toy_laws)
              fixtures.short fixtures.key fixtures.short "testpassword" eq_refl)
    as (_ & _ & _ & _ & Hblob & _).
  split; [apply Hshort; vm_compute; lia|].
  split; [apply Hblob; vm_compute; lia|].
  apply Hzeros; [vm_compute; lia | by vm_compute].
Defined.

(** C9 as the spec has it fails: with one key, an input shorter than the
    nonce and an input that GCM does not open get two different errors. *)
Lemma Decrypt_short_input_other_error :
  (length fixtures.short < NonceSize)%nat /\
  @Decrypt toy.provider fixtures.short fixtures.key = Err ErrInvalidCiphertext /\
  @gcm_Open toy.provider fixtures.key (take NonceSize fixtures.zeros)
     (drop NonceSize fixtures.zeros) [] = None /\
  @Decrypt toy.provider fixtures.zeros fixtures.key = Err ErrDecryptionFailed /\
  ErrInvalidCiphertext <> ErrDecryptionFailed.
Proof. vm_compute. repeat split; [lia | done]. Qed.

Lemma fixtures_db1 :
  fixtures.db1 = {| tbl_users := [fixtures.alice; fixtures.bob];
                    tbl_data_items := [] ++ fixtures.row1 :: [] |}.
Proof. by vm_compute. Qed.

Lemma fixtures_db1_key : primary_key fixtures.db1.
Proof. rewrite fixtures_db1. unfold primary_key. simpl. apply NoDup_singleton. Qed.

(** C2 on the item "GitHub" at version 1: an update that expects version 1
    is applied and the row is at version 2. *)
Lemma UpdateItem_optimistic_witness :
  exists item' db',
    UpdateItem (23 * fixtures.sec / 2) fixtures.item1' fixtures.db1 = (None, item', db') /\
    exists r', tbl_data_items db' = [r'] /\ data_items.version r' = 2.
Proof.
  destruct (UpdateItem_optimistic (23 * fixtures.sec / 2) fixtures.item1' fixtures.db1
              [] [] fixtures.row1 fixtures_db1_key)
    as (err & item' & db' & Hcall & Hiff & Hdone & _); try done.
  assert (err = None) as -> by (by apply Hiff).
  destruct (Hdone eq_refl) as (r' & Hrows & _ & Hv & _).
  exists item', db'. split; [exact Hcall|]. exists r'. split; [exact Hrows | exact Hv].
Defined.

(** C2 as the spec has it fails: no operation both takes an expected
    version and returns the new one.  [UpdateItem] of the repository takes
    the expected version and returns its error only: after the update that
    put the row at version 2, the item of the caller still says 1.  The
    handler returns the new version, but its request carries none: two
    devices that have both read version 1 send their changes one after the
    other, and the second, whose copy is stale by then, is answered with
    success and version 3, its data replacing that of the first. *)
Lemma UpdateItem_no_version_in_and_out :
  (exists item' db',
     UpdateItem (23 * fixtures.sec / 2) fixtures.item1' fixtures.db1 = (None, item', db') /\
     Version item' = 1 /\
     data_items.version <$> tbl_data_items db' = [2]) /\
  (exists db' db'',
     server.UpdateItem (Ok fixtures.alice_claims) (fixtures.device_req ["002"%byte])
       (11 * fixtures.sec) fixtures.db1
     = (Ok {| pb.UpdateItemResponse.Message := "item updated successfully";
              pb.UpdateItemResponse.NewVersion := 2 |}, db') /\
     server.UpdateItem (Ok fixtures.alice_claims) (fixtures.device_req ["003"%byte])
       (12 * fixtures.sec) db'
     = (Ok {| pb.UpdateItemResponse.Message := "item updated successfully";
              pb.UpdateItemResponse.NewVersion := 3 |}, db'') /\
     data_items.encrypted_data <$> tbl_data_items db'' = [["003"%byte]]).
Proof.
  split.
  - eexists _, _. split; [vm_compute; reflexivity|]. split; reflexivity.
  - eexists _, _. split; [vm_compute; reflexivity|].
    split; [vm_compute; reflexivity | reflexivity].
Qed.

(** C3 as the spec has it fails: after Alice's "GitHub" is tombstoned, no
    live item of hers has the name, and yet she cannot create it again. *)
Lemma CreateItem_after_delete_refused :
  DeleteItem (20 * fixtures.sec) "U1" "id-1" fixtures.db1 = (None, fixtures.db2) /\
  GetItemByName "U1" "GitHub" fixtures.db2 = Err ErrItemNotFound /\
  (forall r, r ∈ tbl_data_items fixtures.db2 -> data_items.deleted r = true) /\
  (CreateItem "id-2" (30 * fixtures.sec) (30 * fixtures.sec)
     (fixtures.github "U1" ["004"%byte] ∅) fixtures.db2).1.1
    = Some (pq_unique_violation "data_items_user_id_name_key").
Proof.
  split; [by vm_compute|]. split; [by vm_compute|]. split; [|by vm_compute].
  intros r Hr. vm_compute in Hr. apply list_elem_of_singleton in Hr as ->. done.
Qed.

(** C3 on the same data: Bob may have a "GitHub" of his own, and Alice may
    not have a second one. *)
Lemma CreateItem_name_unique_witness :
  (CreateItem "id-2" (30 * fixtures.sec) (30 * fixtures.sec)
     (fixtures.github "U1" ["004"%byte] ∅) fixtures.db1).1.1
    = Some (pq_unique_violation "data_items_user_id_name_key") /\
  (CreateItem "id-2" (30 * fixtures.sec) (30 * fixtures.sec)
     (fixtures.github "U2" ["004"%byte] ∅) fixtures.db1).1.1 = None.
Proof.
  split.
  - destruct (CreateItem_name_unique "id-2" (30 * fixtures.sec) (30 * fixtures.sec)
                (fixtures.github "U1" ["004"%byte] ∅) fixtures.db1)
      as (item' & _ & _ & _ & _ & Htaken & _).
    + rewrite fixtures_db1. by vm_compute; intros ?%list_elem_of_singleton.
    + reflexivity.
    + rewrite Htaken; [done|]. exists fixtures.row1. rewrite fixtures_db1.
      split; [simpl; left | split; reflexivity].
  - destruct (CreateItem_name_unique "id-2" (30 * fixtures.sec) (30 * fixtures.sec)
                (fixtures.github "U2" ["004"%byte] ∅) fixtures.db1)
      as (item' & _ & _ & _ & _ & _ & Hfree & _).
    + rewrite fixtures_db1. by vm_compute; intros ?%list_elem_of_singleton.
    + reflexivity.
    + destruct Hfree as (row & -> & _); [| |done].
      * rewrite fixtures_db1. simpl. intros r ->%list_elem_of_singleton _. discriminate.
      * vm_compute. right. left.
Defined.

(** C7 as the spec has it fails: the query of a sync runs at 10.9 s and its
    response is built at 12.05 s.  The watermark is 12, not the 10 of the
    instant at which the query started.  The change that another device
    made at 11.5 s, which the query did not see, is not delivered by the next
    sync from that watermark either; nor is it when it is stamped 12 s, the
    new watermark itself. *)
Lemma Sync_watermark_read_after_query :
  server.clock fixtures.asked <= server.clock fixtures.answered /\
  Time_Unix (server.clock fixtures.asked) = 10 /\
  (exists resp resp2 r,
     server.Sync (Ok fixtures.alice_claims) (fixtures.sync_req 8)
       fixtures.asked fixtures.answered = Ok resp /\
     pb.SyncResponse.SyncTimestamp resp = 12 /\
     pb.SyncResponse.Items resp = [] /\
     tbl_data_items (server.store fixtures.answered) = [r] /\
     data_items.version r = 2 /\
     data_items.updated_at r = 11500000000 /\
     server.Sync (Ok fixtures.alice_claims)
       (fixtures.sync_req (pb.SyncResponse.SyncTimestamp resp))
       fixtures.next fixtures.next = Ok resp2 /\
     pb.SyncResponse.Items resp2 = []) /\
  (exists resp resp2 r,
     server.Sync (Ok fixtures.alice_claims) (fixtures.sync_req 8)
       fixtures.asked fixtures.answered_at = Ok resp /\
     pb.SyncResponse.Items resp = [] /\
     tbl_data_items (server.store fixtures.answered_at) = [r] /\
     data_items.version r = 2 /\
     data_items.updated_at r = time_Unix (pb.SyncResponse.SyncTimestamp resp) /\
     server.Sync (Ok fixtures.alice_claims)
       (fixtures.sync_req (pb.SyncResponse.SyncTimestamp resp))
       fixtures.next_at fixtures.next_at = Ok resp2 /\
     pb.SyncResponse.Items resp2 = []).
Proof.
  split; [by vm_compute|]. split; [by vm_compute|]. split.
  - eexists _, _, _.
    split; [vm_compute; reflexivity|]. split; [reflexivity|]. split; [reflexivity|].
    split; [vm_compute; reflexivity|]. split; [reflexivity|]. split; [reflexivity|].
    split; vm_compute; reflexivity.
  - eexists _, _, _.
    split; [vm_compute; reflexivity|]. split; [reflexivity|].
    split; [vm_compute; reflexivity|]. split; [reflexivity|]. split; [reflexivity|].
    split; vm_compute; reflexivity.
Qed.

(** C10 at the failing input: the two calls carry a tag each.  Neither
    statement is sent: both calls return the conversion error of
    [database/sql], nobody wins, and the row is at version 1 as before. *)
Lemma concurrent_UpdateItem_tagged_nobody_wins :
  run fixtures.schedule
    {| first := Called (fixtures.tagged fixtures.item1');
       second := Called (fixtures.tagged fixtures.item1'');
       shared := fixtures.db1 |} =
    {| first := Returned (Some (sql_unsupported_type 2))
                  (UpdateItem_stamp (11 * fixtures.sec) (fixtures.tagged fixtures.item1'));
       second := Returned (Some (sql_unsupported_type 2))
                   (UpdateItem_stamp (11 * fixtures.sec + 1)
                      (fixtures.tagged fixtures.item1''));
       shared := fixtures.db1 |} /\
  data_items.version <$> tbl_data_items fixtures.db1 = [1].
Proof. split; by vm_compute. Qed.

(** The same item and calls without tags: the call whose statement comes
    first wins, here the second. *)
Lemma concurrent_UpdateItem_one_wins_witness :
  exists a' b' db' r',
    run fixtures.schedule
      {| first := Called fixtures.item1'; second := Called fixtures.item1'';
         shared := fixtures.db1 |} =
      {| first := Returned (Some ErrVersionConflict) a'; second := Returned None b';
         shared := db' |} /\
    tbl_data_items db' = [r'] /\ data_items.version r' = 2.
Proof.
  destruct (concurrent_UpdateItem_one_wins fixtures.db1 [] [] fixtures.row1
              fixtures.item1' fixtures.item1'' fixtures.schedule fixtures_db1_key)
    as (ea & eb & a' & b' & db' & r' & Hrun & Hone & Hrows & _ & Hv & _);
    try reflexivity; try (vm_compute; lia); try (split; by vm_compute).
  exists a', b', db', r'.
  assert (ea = Some ErrVersionConflict /\ eb = None) as [-> ->].
  { destruct Hone as [[-> ->]|]; [|done]. exfalso. vm_compute in Hrun. discriminate. }
  split; [exact Hrun|]. split; [exact Hrows | exact Hv].
Defined.

(** * Further properties *)

Import schema.

(** ** The item repository, continued *)

(** What a statement makes of each row. *)
Lemma update_rows_each (P : data_items.row -> Prop) `{!forall r, Decision (P r)}
  (set : data_items.row -> error + data_items.row)
  (rows rows' : list data_items.row) (n : Z) :
  update_rows P set rows = inr (rows', n) ->
  Forall2 (fun r r' => if decide (P r) then set r = inr r' else r' = r) rows rows'.
Proof.
  revert rows' n. induction rows as [|r rows IH]; intros rows' n; simpl.
  - intros [= <- <-]. constructor.
  - destruct (update_rows P set rows) as [e|[rest m]]; [discriminate|].
    case_decide as HP.
    + destruct (set r) as [e|r'] eqn:Hr; [discriminate|].
      intros [= <- <-]. constructor; [by rewrite decide_True | by eapply IH].
    + intros [= <- <-]. constructor; [by rewrite decide_False | by eapply IH].
Qed.

Lemma update_rows_abort (P : data_items.row -> Prop) `{!forall r, Decision (P r)}
  (set : data_items.row -> error + data_items.row)
  (rows : list data_items.row) (e : error) :
  update_rows P set rows = inl e -> exists r, r ∈ rows /\ P r /\ set r = inl e.
Proof.
  induction rows as [|r rows IH]; simpl; [discriminate|].
  destruct (update_rows P set rows) as [e'|[rest m]].
  - intros [= ->]. destruct IH as (x & Hx & HP & Hset); [reflexivity|].
    exists x. split; [by right | by split].
  - case_decide as HP; [|discriminate].
    destruct (set r) as [e'|r'] eqn:Hr; [|discriminate].
    intros [= ->]. exists r. split; [left | by split].
Qed.

(** [DeleteItem] as a map over the table. *)
Lemma DeleteItem_map (now : Time) (userID itemID : string) (db : DB) :
  DeleteItem now userID itemID db =
    (None,
     {| tbl_users := tbl_users db;
        tbl_data_items :=
          (fun r => if decide (data_items.id r = itemID /\ data_items.user_id r = userID)
                    then tombstoned now r else r) <$> tbl_data_items db |}).
Proof.
  unfold DeleteItem, Exec_update.
  match goal with |- context [update_rows ?P (fun r => inr (@?f r)) ?rows] =>
    destruct (update_rows_total P f rows) as [n ->] end.
  reflexivity.
Qed.

(** X1.  [CreateItem] enters only items without tags, and an item that it
    has entered is what [GetItem] finds under its id and [GetItemByName]
    under its name: the ciphertext, kind and name given, version 1, the two
    clock readings as timestamps, whatever version and timestamps the caller
    had put in the item. *)
Theorem CreateItem_then_read (uuid : string) (now1 now2 : Time) (item item' : DataItem)
  (db db' : DB) :
  CreateItem uuid now1 now2 item db = (None, item', db') ->
  Deleted item = false ->
  let stored :=
    {| ID := if bool_decide (ID item = "") then uuid else ID item;
       UserID := UserID item; Type_ := Type_ item; Name := Name item;
       EncryptedData := EncryptedData item; Metadata := ∅;
       CreatedAt := now1; UpdatedAt := now2; Version := 1; Deleted := false |} in
  Metadata item = ∅ /\
  GetItem (UserID item) (ID item') db' = Ok stored /\
  GetItemByName (UserID item) (Name item) db' = Ok stored /\
  ID item' = ID stored /\ Version item' = 1 /\
  CreatedAt item' = now1 /\ UpdatedAt item' = now2.
Proof.
  destruct (decide (Metadata item = ∅)) as [Hm|Hm];
    [|by rewrite CreateItem_tagged by exact Hm].
  rewrite CreateItem_untagged by exact Hm. cbv zeta.
  destruct (insert_data_items _ db) as [err db1] eqn:Hins.
  intros [= -> <- <-] Hlive.
  apply insert_data_items_None in Hins as (Hfresh & Hname & _ & ->).
  simpl in *. rewrite Hlive in *.
  split; [exact Hm|]. split; [|split; [|repeat split]].
  - unfold GetItem.
    erewrite (QueryRow_at _ _ (tbl_data_items db) []); [| reflexivity | | ].
    + unfold scan_item. simpl. by rewrite jsonToMetadata_empty.
    + intros x Hx [Hx' _]. apply Hfresh. rewrite <- Hx'. by apply list_elem_of_fmap_2.
    + simpl. tauto.
  - unfold GetItemByName.
    erewrite (QueryRow_at _ _ (tbl_data_items db) []); [| reflexivity | | ].
    + unfold scan_item. simpl. by rewrite jsonToMetadata_empty.
    + intros x Hx (Hu & Hn & _). apply Hname.
      apply list_elem_of_fmap. exists x. split; [|exact Hx].
      unfold owner_name. simpl. by rewrite Hu, Hn.
    + simpl. tauto.
Qed.

(** X2.  A [CreateItem] that fails has changed nothing, and its error says
    why: the item carries tags, which [db.Exec] refuses before anything is
    sent, whatever else holds of the item; or, for an item without tags, the
    id is taken, or the owner has a row, live or tombstoned, of that name, or
    the owner is not a registered user. *)
Theorem CreateItem_failure (uuid : string) (now1 now2 : Time) (item item' : DataItem)
  (db db' : DB) (err : error) :
  CreateItem uuid now1 now2 item db = (Some err, item', db') ->
  db' = db /\
  (Metadata item <> ∅ <-> err = sql_unsupported_type 6) /\
  (err = sql_unsupported_type 6 \/
   err = pq_unique_violation "data_items_pkey" /\
     ID item' ∈ (data_items.id <$> tbl_data_items db) \/
   err = pq_unique_violation "data_items_user_id_name_key" /\
     (exists r, r ∈ tbl_data_items db /\ data_items.user_id r = UserID item
                /\ data_items.name r = Name item) \/
   err = pq_foreign_key_violation "data_items_user_id_fkey" /\
     ~ (UserID item ∈ (users.id <$> tbl_users db))).
Proof.
  destruct (decide (Metadata item = ∅)) as [Hm|Hm].
  2:{ rewrite CreateItem_tagged by exact Hm. intros [= <- <- <-].
      split; [reflexivity|]. split; [done | by left]. }
  rewrite CreateItem_untagged by exact Hm. cbv zeta.
  unfold insert_data_items. simpl.
  set (i := if bool_decide (ID item = "") then uuid else ID item).
  case_bool_decide as Hid.
  { intros [= <- <- <-]. split; [reflexivity|]. split; [done|]. right. left. by split. }
  case_bool_decide as Hname.
  { intros [= <- <- <-]. split; [reflexivity|]. split; [done|]. right. right. left.
    split; [reflexivity|].
    apply list_elem_of_fmap in Hname as (r & [= Hu Hn] & Hr).
    exists r. by rewrite Hu, Hn. }
  case_bool_decide as Huser; [discriminate|].
  intros [= <- <- <-]. split; [reflexivity|]. split; [done|]. right. right. right.
  by split.
Qed.

(** X3.  [DeleteItem] for an id that the user has no row of (none at all, or
    another owner's) returns no error and leaves the database as it was. *)
Theorem DeleteItem_not_owned (now : Time) (userID itemID : string) (db : DB) :
  (forall r, r ∈ tbl_data_items db -> data_items.id r = itemID ->
             data_items.user_id r <> userID) ->
  DeleteItem now userID itemID db = (None, db).
Proof.
  intros Hnone. rewrite DeleteItem_map. f_equal. destruct db as [us rows]. simpl in *.
  f_equal. rewrite <- (list_fmap_id rows) at 2. apply list_fmap_ext.
  intros i r Hr. rewrite decide_False; [reflexivity|].
  intros [Hid Hu]. eapply Hnone; [|exact Hid|exact Hu].
  by eapply list_elem_of_lookup_2.
Qed.

(** X4.  Deleting an item again is deleting it once, at the later time:
    [DeleteItem] never fails, and a second [DeleteItem] only moves the
    updated-at of the tombstone. *)
Theorem DeleteItem_twice (now1 now2 : Time) (userID itemID : string) (db : DB) :
  DeleteItem now2 userID itemID (DeleteItem now1 userID itemID db).2
  = DeleteItem now2 userID itemID db.
Proof.
  rewrite !DeleteItem_map. simpl. f_equal. f_equal.
  rewrite <- list_fmap_compose. apply list_fmap_ext.
  intros i r _. simpl. destruct (decide (data_items.id r = itemID /\ _)) as [HP|HP].
  - rewrite decide_True by exact HP. reflexivity.
  - rewrite decide_False by exact HP. reflexivity.
Qed.

(** X5.  [UpdateItem] for an id that the user has no row of (none at all, or
    another owner's) fails, whatever version it presents, and leaves the
    database as it was: with [ErrVersionConflict] when the item carries no
    tags, and with the conversion error of [db.Exec] when it does. *)
Theorem UpdateItem_not_owned (now : Time) (item : DataItem) (db : DB) :
  (forall r, r ∈ tbl_data_items db -> data_items.id r = ID item ->
             data_items.user_id r <> UserID item) ->
  UpdateItem now item db =
    (Some (if decide (Metadata item = ∅) then ErrVersionConflict
           else sql_unsupported_type 2),
     UpdateItem_stamp now item, db).
Proof.
  intros Hnone. unfold UpdateItem. case_decide as Hm.
  - rewrite UpdateItem_exec_untagged by exact Hm. unfold Exec_update.
    rewrite update_rows_none.
    + simpl. by destruct db.
    + intros r Hr (Hid & Hu & _). simpl in *. by eapply Hnone.
  - by rewrite UpdateItem_exec_tagged by exact Hm.
Qed.

Lemma NoDup_fmap_split {A B : Type} (f : A -> B) (l1 l2 : list A) (r x : A) :
  NoDup (f <$> (l1 ++ r :: l2)) -> x ∈ l1 \/ x ∈ l2 -> f x <> f r.
Proof.
  rewrite fmap_app, fmap_cons. intros Hnd Hx Heq.
  apply NoDup_app in Hnd as (_ & Hdisj & Hnd).
  apply NoDup_cons in Hnd as (Hnot & _).
  destruct Hx as [Hx|Hx].
  - apply (Hdisj (f x)); [by apply list_elem_of_fmap_2|]. rewrite Heq. left.
  - apply Hnot. rewrite <- Heq. by apply list_elem_of_fmap_2.
Qed.

Lemma DeleteItem_at (now : Time) (db : DB) (l1 l2 : list data_items.row)
  (r : data_items.row) :
  primary_key db ->
  tbl_data_items db = l1 ++ r :: l2 ->
  DeleteItem now (data_items.user_id r) (data_items.id r) db =
    (None, {| tbl_users := tbl_users db;
              tbl_data_items := l1 ++ tombstoned now r :: l2 |}).
Proof.
  intros Hpk Hrows. rewrite DeleteItem_map. f_equal. f_equal.
  unfold primary_key in Hpk. rewrite Hrows in *.
  assert (forall l : list data_items.row,
            (forall x, x ∈ l -> data_items.id x <> data_items.id r) ->
            (fun x => if decide (data_items.id x = data_items.id r
                                  /\ data_items.user_id x = data_items.user_id r)
                      then tombstoned now x else x) <$> l = l) as Hsame.
  { intros l Hl. rewrite <- (list_fmap_id l) at 2. apply list_fmap_ext.
    intros i x Hx. rewrite decide_False; [reflexivity|].
    intros [Hid _]. eapply Hl; [|exact Hid]. by eapply list_elem_of_lookup_2. }
  rewrite fmap_app, fmap_cons, decide_True by done.
  rewrite !Hsame; [reflexivity| |].
  - intros x Hx. eapply (NoDup_fmap_split data_items.id); [exact Hpk | by right].
  - intros x Hx. eapply (NoDup_fmap_split data_items.id); [exact Hpk | by left].
Qed.

(** X6.  After [DeleteItem] of an item by its owner, [GetItem] and
    [GetItemByName] answer [ErrItemNotFound] for it and [ListItems] does not
    list it; the row stays where it was, tombstoned, at its version, with
    updated-at the time of the deletion, and [GetItemsModifiedAfter] from
    any earlier time delivers it so. *)
Theorem DeleteItem_then_reads (now T : Time) (dataType : DataType) (db : DB)
  (l1 l2 : list data_items.row) (r : data_items.row) :
  primary_key db ->
  unique_names db ->
  tbl_data_items db = l1 ++ r :: l2 ->
  exists db',
    DeleteItem now (data_items.user_id r) (data_items.id r) db = (None, db') /\
    tbl_data_items db' = l1 ++ tombstoned now r :: l2 /\
    GetItem (data_items.user_id r) (data_items.id r) db' = Err ErrItemNotFound /\
    GetItemByName (data_items.user_id r) (data_items.name r) db' = Err ErrItemNotFound /\
    (forall items item,
       ListItems (data_items.user_id r) dataType db' = Ok items ->
       item ∈ items -> ID item <> data_items.id r) /\
    (T < now ->
     exists items,
       GetItemsModifiedAfter (data_items.user_id r) T db' = Ok items /\
       scan_item (tombstoned now r) ∈ items).
Proof.
  intros Hpk Hun Hrows. eexists. split; [by apply DeleteItem_at|]. simpl.
  split; [reflexivity|].
  unfold primary_key, unique_names in *. rewrite Hrows in *.
  assert (forall x, x ∈ l1 ++ tombstoned now r :: l2 ->
            data_items.id x = data_items.id r -> data_items.deleted x = true) as Hdead.
  { intros x Hx Hid. apply elem_of_app in Hx as [Hx|Hx].
    - exfalso. eapply (NoDup_fmap_split data_items.id); [exact Hpk | by left | exact Hid].
    - apply elem_of_cons in Hx as [->|Hx]; [reflexivity|].
      exfalso. eapply (NoDup_fmap_split data_items.id); [exact Hpk | by right | exact Hid]. }
  split; [|split; [|split]].
  - unfold GetItem.
    match goal with |- context [QueryRow ?P ?d] =>
      rewrite (proj2 (QueryRow_None P d)) end; [reflexivity|].
    simpl. intros x Hx (Hid & _ & Hlive). rewrite (Hdead x Hx Hid) in Hlive. discriminate.
  - unfold GetItemByName.
    match goal with |- context [QueryRow ?P ?d] =>
      rewrite (proj2 (QueryRow_None P d)) end; [reflexivity|].
    simpl. intros x Hx (Hu & Hn & Hlive).
    assert (owner_name x = owner_name r) as Hkey by (unfold owner_name; by rewrite Hu, Hn).
    apply elem_of_app in Hx as [Hx|Hx].
    + eapply (NoDup_fmap_split owner_name); [exact Hun | by left | exact Hkey].
    + apply elem_of_cons in Hx as [->|Hx]; [discriminate|].
      eapply (NoDup_fmap_split owner_name); [exact Hun | by right | exact Hkey].
  - intros items item Hlist Hin Hid.
    assert (exists x, x ∈ l1 ++ tombstoned now r :: l2 /\ item = scan_item x
                      /\ data_items.deleted x = false) as (x & Hx & -> & Hlive).
    { unfold ListItems in Hlist. simpl in Hlist.
      destruct (negb _); injection Hlist as <-;
        apply list_elem_of_fmap in Hin as (x & -> & Hin);
        rewrite merge_sort_Permutation in Hin;
        apply list_elem_of_filter in Hin as (HP & Hin); exists x; tauto. }
    rewrite (Hdead x Hx Hid) in Hlive. discriminate.
  - intros HT.
    apply (proj2 (GetItemsModifiedAfter_elem _ _ _ _)).
    exists (tombstoned now r). simpl. split; [by split|]. split; [|reflexivity].
    apply elem_of_app. right. left.
Qed.

(** The rows that [ListItems] selects. *)
Lemma ListItems_rows (userID : string) (dataType : DataType) (db : DB) :
  ListItems userID dataType db =
    Ok (scan_item <$>
          merge_sort created_at_desc
            (filter (fun r => data_items.user_id r = userID
                              /\ (dataType = "" \/ data_items.type r = dataType)
                              /\ data_items.deleted r = false) (tbl_data_items db))).
Proof.
  unfold ListItems. case_bool_decide as Hty; simpl; do 3 f_equal.
  - apply list_filter_iff. intros r. tauto.
  - apply list_filter_iff. intros r. tauto.
Qed.

(** X7.  [ListItems] returns the live rows of the owner, each once, and no
    other item: all of them when the type asked for is the empty string,
    those of that type otherwise; the items are in descending order of
    created-at. *)
Theorem ListItems_exact (userID : string) (dataType : DataType) (db : DB) :
  exists items,
    ListItems userID dataType db = Ok items /\
    items ≡ₚ scan_item <$>
               filter (fun r => data_items.user_id r = userID
                                /\ (dataType = "" \/ data_items.type r = dataType)
                                /\ data_items.deleted r = false) (tbl_data_items db) /\
    (forall r, r ∈ tbl_data_items db -> data_items.user_id r = userID ->
               data_items.deleted r = false ->
               dataType = "" \/ data_items.type r = dataType ->
               scan_item r ∈ items) /\
    (forall item, item ∈ items ->
       exists r, r ∈ tbl_data_items db /\ item = scan_item r /\
                 UserID item = userID /\ Deleted item = false /\
                 (dataType = "" \/ Type_ item = dataType)) /\
    StronglySorted (fun a b => CreatedAt b <= CreatedAt a) items.
Proof.
  rewrite ListItems_rows. eexists. split; [reflexivity|]. repeat split.
  - by rewrite merge_sort_Permutation.
  - intros r Hr Hu Hd Hty. apply list_elem_of_fmap_2.
    rewrite merge_sort_Permutation. apply list_elem_of_filter. tauto.
  - intros item (r & -> & Hin)%list_elem_of_fmap.
    rewrite merge_sort_Permutation in Hin.
    apply list_elem_of_filter in Hin as ((Hu & Hty & Hd) & Hin).
    exists r. simpl. tauto.
  - apply (StronglySorted_fmap _ created_at_desc); [by intros x y|].
    apply StronglySorted_merge_sort; apply _.
Qed.

(** X8.  No read crosses owners: every item that [GetItem], [GetItemByName],
    [ListItems] or [GetItemsModifiedAfter] returns for a user is a row of
    that user, and the first three return no tombstoned item. *)
Theorem reads_stay_with_owner (userID itemID name : string) (dataType : DataType)
  (timestamp : Time) (db : DB) :
  (forall item, GetItem userID itemID db = Ok item ->
     UserID item = userID /\ ID item = itemID /\ Deleted item = false /\
     exists r, r ∈ tbl_data_items db /\ item = scan_item r) /\
  (forall item, GetItemByName userID name db = Ok item ->
     UserID item = userID /\ Name item = name /\ Deleted item = false /\
     exists r, r ∈ tbl_data_items db /\ item = scan_item r) /\
  (forall items, ListItems userID dataType db = Ok items ->
     Forall (fun item => UserID item = userID /\ Deleted item = false) items) /\
  (forall items, GetItemsModifiedAfter userID timestamp db = Ok items ->
     Forall (fun item => UserID item = userID /\ timestamp < UpdatedAt item) items).
Proof.
  split; [|split; [|split]].
  - unfold GetItem. destruct (QueryRow _ db) as [r|] eqn:Hq; [|discriminate].
    intros item [= <-]. apply QueryRow_Some in Hq as (Hr & Hi & Hu & Hd).
    simpl. repeat split; [assumption..|]. by exists r.
  - unfold GetItemByName. destruct (QueryRow _ db) as [r|] eqn:Hq; [|discriminate].
    intros item [= <-]. apply QueryRow_Some in Hq as (Hr & Hu & Hn & Hd).
    simpl. repeat split; [assumption..|]. by exists r.
  - rewrite ListItems_rows. intros items [= <-].
    apply Forall_fmap, Forall_forall. intros r Hin.
    rewrite merge_sort_Permutation in Hin.
    apply list_elem_of_filter in Hin as ((Hu & _ & Hd) & _). simpl. by split.
  - unfold GetItemsModifiedAfter. intros items [= <-].
    apply Forall_fmap, Forall_forall. intros r Hin.
    rewrite merge_sort_Permutation in Hin.
    apply list_elem_of_filter in Hin as ((Hu & Ht) & _). simpl. by split.
Qed.

Lemma insert_data_items_Some (r : data_items.row) (db db' : DB) (e : error) :
  insert_data_items r db = (Some e, db') -> db' = db.
Proof.
  unfold insert_data_items. repeat case_bool_decide; intros [= _ <-]; reflexivity.
Qed.

Lemma evolves_refl (r : data_items.row) : evolves r r.
Proof. unfold evolves. repeat split; try reflexivity; try lia. tauto. Qed.

Lemma UpdateItem_set_inr (item : DataItem) (r r' : data_items.row) :
  UpdateItem_set item r = inr r' ->
  data_items.id r' = data_items.id r /\
  data_items.user_id r' = data_items.user_id r /\
  data_items.type r' = data_items.type r /\
  data_items.name r' = data_items.name r /\
  data_items.created_at r' = data_items.created_at r /\
  data_items.version r' = data_items.version r + 1 /\
  data_items.deleted r' = data_items.deleted r.
Proof.
  unfold UpdateItem_set. case_match; [discriminate|]. intros [= <-]. simpl. tauto.
Qed.

(** The rows of the table after [UpdateItem], against those before. *)
Lemma UpdateItem_rows (now : Time) (item : DataItem) (db : DB) :
  tbl_users (UpdateItem now item db).2 = tbl_users db /\
  Forall2 (fun r r' =>
             r' = r \/
             (data_items.deleted r = false /\ data_items.user_id r = UserID item /\
              UpdateItem_set (UpdateItem_stamp now item) r = inr r'))
    (tbl_data_items db) (tbl_data_items (UpdateItem now item db).2).
Proof.
  unfold UpdateItem.
  destruct (decide (Metadata (UpdateItem_stamp now item) = ∅)) as [Hm|Hm].
  2:{ rewrite UpdateItem_exec_tagged by exact Hm. simpl. split; [reflexivity|].
      apply Forall2_same_length_lookup_2; [reflexivity|].
      intros i x y Hx Hy. left. congruence. }
  rewrite UpdateItem_exec_untagged by exact Hm. unfold Exec_update.
  destruct (update_rows _ _ (tbl_data_items db)) as [e|[rows' n]] eqn:Hupd; simpl.
  - split; [reflexivity|]. apply Forall2_same_length_lookup_2; [reflexivity|].
    intros i x y Hx Hy. left. congruence.
  - apply update_rows_each in Hupd.
    assert (Forall2 (fun r r' =>
              r' = r \/
              (data_items.deleted r = false /\ data_items.user_id r = UserID item /\
               UpdateItem_set (UpdateItem_stamp now item) r = inr r'))
              (tbl_data_items db) rows') as Hrows.
    { eapply Forall2_impl; [exact Hupd|].
      intros r r' Hr. simpl in Hr. case_decide as HP; [|by left].
      right. tauto. }
    by destruct (n =? 0).
Qed.

(** X9.  What the repository never does to a stored row.  [CreateItem] only
    adds at most one row at the end.  [UpdateItem] and [DeleteItem] keep
    every row in its place with its id, owner, kind, name and created-at,
    never lower a version and never lift a tombstone; [UpdateItem] leaves
    tombstoned rows and other owners' rows exactly as they are, and
    [DeleteItem] leaves version, ciphertext and tags of every row as they
    are. *)
Theorem rows_only_evolve (db : DB) :
  (forall uuid now1 now2 item,
     exists new, tbl_data_items (CreateItem uuid now1 now2 item db).2
                 = tbl_data_items db ++ new /\ (length new <= 1)%nat) /\
  (forall now item,
     Forall2 (fun r r' =>
                evolves r r' /\
                (data_items.deleted r = true \/ data_items.user_id r <> UserID item -> r' = r))
       (tbl_data_items db) (tbl_data_items (UpdateItem now item db).2)) /\
  (forall now userID itemID,
     Forall2 (fun r r' =>
                evolves r r' /\
                data_items.version r' = data_items.version r /\
                data_items.encrypted_data r' = data_items.encrypted_data r /\
                data_items.metadata r' = data_items.metadata r /\
                (data_items.user_id r <> userID -> r' = r))
       (tbl_data_items db) (tbl_data_items (DeleteItem now userID itemID db).2)).
Proof.
  split; [|split].
  - intros uuid now1 now2 item.
    destruct (decide (Metadata item = ∅)) as [Hm|Hm].
    2:{ rewrite CreateItem_tagged by exact Hm. simpl. exists [].
        split; [by rewrite app_nil_r | simpl; lia]. }
    rewrite CreateItem_untagged by exact Hm. cbv zeta.
    destruct (insert_data_items _ db) as [[err|] db'] eqn:Hins; simpl.
    + apply insert_data_items_Some in Hins as ->. exists [].
      split; [by rewrite app_nil_r | simpl; lia].
    + apply insert_data_items_None in Hins as (_ & _ & _ & ->). simpl. by eexists [_].
  - intros now item. destruct (UpdateItem_rows now item db) as [_ Hrows].
    eapply Forall2_impl; [exact Hrows|].
    intros r r' [->|(Hlive & Hu & Hset)].
    + split; [apply evolves_refl | reflexivity].
    + apply UpdateItem_set_inr in Hset as (?&?&?&?&?&?&?).
      split; [|intros [Hd|Hn]; congruence].
      unfold evolves. repeat split; try assumption; try lia. congruence.
  - intros now userID itemID. rewrite DeleteItem_map. simpl.
    apply Forall2_fmap_r, Forall_Forall2_diag, Forall_forall.
    intros r _. unfold compose. case_decide as HP.
    + split; [|repeat split; try reflexivity; tauto].
      unfold evolves, tombstoned. simpl. repeat split; try reflexivity; lia.
    + split; [apply evolves_refl|]. repeat split; reflexivity.
Qed.

Lemma Forall2_evolves_keys (rows rows' : list data_items.row) :
  Forall2 evolves rows rows' ->
  data_items.id <$> rows' = data_items.id <$> rows /\
  owner_name <$> rows' = owner_name <$> rows /\
  data_items.user_id <$> rows' = data_items.user_id <$> rows.
Proof.
  induction 1 as [|r r' rows rows' Hr _ (IH1 & IH2 & IH3)]; [done|].
  destruct Hr as (Hid & Hu & _ & Hn & _).
  rewrite !fmap_cons, IH1, IH2, IH3. unfold owner_name. by rewrite Hid, Hu, Hn.
Qed.

Lemma keys_ok_evolves (db db' : DB) :
  tbl_users db' = tbl_users db ->
  Forall2 evolves (tbl_data_items db) (tbl_data_items db') ->
  keys_ok db -> keys_ok db'.
Proof.
  intros Hus Hrows (Hpk & Hun & Hfk).
  apply Forall2_evolves_keys in Hrows as (Hids & Hkeys & Howners).
  unfold keys_ok, primary_key, unique_names, owners_registered in *.
  rewrite Hids, Hkeys, Hus. split; [exact Hpk|]. split; [exact Hun|].
  intros r' Hr'.
  assert (data_items.user_id r' ∈ (data_items.user_id <$> tbl_data_items db)) as Hin
    by (rewrite <- Howners; by apply list_elem_of_fmap_2).
  apply list_elem_of_fmap in Hin as (r & -> & Hr). by apply Hfk.
Qed.

(** X10.  The three constraints of the schema on [data_items] (ids are
    unique, (owner, name) pairs are unique, every owner is a registered
    user) hold of an empty table and are kept by [CreateItem],
    [UpdateItem] and [DeleteItem], so they hold of every database these
    operations produce. *)
Theorem keys_ok_kept (db : DB) :
  keys_ok db ->
  (forall uuid now1 now2 item, keys_ok (CreateItem uuid now1 now2 item db).2) /\
  (forall now item, keys_ok (UpdateItem now item db).2) /\
  (forall now userID itemID, keys_ok (DeleteItem now userID itemID db).2) /\
  keys_ok {| tbl_users := tbl_users db; tbl_data_items := [] |}.
Proof.
  intros Hok. split; [|split; [|split]].
  - intros uuid now1 now2 item.
    destruct (decide (Metadata item = ∅)) as [Hm|Hm];
      [|by rewrite CreateItem_tagged by exact Hm].
    rewrite CreateItem_untagged by exact Hm. cbv zeta.
    destruct (insert_data_items _ db) as [[err|] db'] eqn:Hins; simpl.
    + by apply insert_data_items_Some in Hins as ->.
    + apply insert_data_items_None in Hins as (Hfresh & Hname & Huser & ->).
      destruct Hok as (Hpk & Hun & Hfk).
      unfold keys_ok, primary_key, unique_names, owners_registered in *. simpl in *.
      rewrite !fmap_app. split; [|split].
      * apply NoDup_app. split; [exact Hpk|]. split; [|apply NoDup_singleton].
        intros x Hx ->%list_elem_of_singleton. by apply Hfresh.
      * apply NoDup_app. split; [exact Hun|]. split; [|apply NoDup_singleton].
        intros x Hx ->%list_elem_of_singleton. by apply Hname.
      * intros r [Hr| ->%list_elem_of_singleton]%elem_of_app; [by apply Hfk | exact Huser].
  - intros now item. destruct (UpdateItem_rows now item db) as [Hus Hrows].
    apply (keys_ok_evolves db); [exact Hus| |exact Hok].
    eapply Forall2_impl; [exact Hrows|].
    intros r r' [->|(_ & _ & Hset)]; [apply evolves_refl|].
    apply UpdateItem_set_inr in Hset as (?&?&?&?&?&?&?).
    unfold evolves. repeat split; try assumption; try lia. congruence.
  - intros now userID itemID.
    apply (keys_ok_evolves db); [by rewrite DeleteItem_map| |exact Hok].
    rewrite DeleteItem_map. simpl.
    apply Forall2_fmap_r, Forall_Forall2_diag, Forall_forall.
    intros r _. unfold compose. case_decide; [|apply evolves_refl].
    unfold evolves, tombstoned. simpl. repeat split; try reflexivity; lia.
  - unfold keys_ok, primary_key, unique_names, owners_registered. simpl.
    split; [constructor|]. split; [constructor|]. intros r Hr. by apply elem_of_nil in Hr.
Qed.

(** ** Substrings *)

Import gostring storage_users.

Lemma chars_length (s : string) : length (list_ascii_of_string s) = String.length s.
Proof. induction s as [|a s IH]; simpl; [reflexivity | by rewrite IH]. Qed.

Lemma chars_append (s1 s2 : string) :
  list_ascii_of_string (s1 +:+ s2) = list_ascii_of_string s1 ++ list_ascii_of_string s2.
Proof. induction s1 as [|a s1 IH]; simpl; [reflexivity | by rewrite IH]. Qed.

Lemma chars_inj (s1 s2 : string) :
  list_ascii_of_string s1 = list_ascii_of_string s2 -> s1 = s2.
Proof.
  intros H. rewrite <- (string_of_list_ascii_of_string s1),
    <- (string_of_list_ascii_of_string s2). by rewrite H.
Qed.

Lemma chars_substring (n m : nat) (s : string) :
  list_ascii_of_string (substring n m s) = take m (drop n (list_ascii_of_string s)).
Proof.
  revert n m. induction s as [|a s IH]; intros [|n] [|m]; simpl; try reflexivity.
  - by rewrite IH.
  - apply IH.
  - apply IH.
Qed.

Lemma string_length_append (s1 s2 : string) :
  String.length (s1 +:+ s2) = (String.length s1 + String.length s2)%nat.
Proof. by rewrite <- !chars_length, chars_append, length_app. Qed.

(** A slice of the length of [substr] equals [substr] exactly when [substr]
    sits at that index. *)
Lemma slice_eq_iff (s substr : string) (i : nat) :
  (i + String.length substr <= String.length s)%nat ->
  slice s i (i + String.length substr) = substr <->
  exists pre post, s = pre +:+ substr +:+ post /\ String.length pre = i.
Proof.
  intros Hi. unfold slice.
  replace (i + String.length substr - i)%nat with (String.length substr) by lia.
  split.
  - intros Hs.
    exists (substring 0 i s),
           (substring (i + String.length substr) (String.length s) s).
    split.
    + apply chars_inj. rewrite !chars_append, <- Hs at 1. rewrite !chars_substring.
      rewrite drop_0.
      rewrite (take_ge (drop (i + _) _)) by (rewrite length_drop, chars_length; lia).
      rewrite <- drop_drop, take_drop, take_drop. reflexivity.
    + rewrite <- chars_length, chars_substring, drop_0, length_take, chars_length. lia.
  - intros (pre & post & -> & <-). apply chars_inj.
    rewrite chars_substring, !chars_append, <- !chars_length.
    rewrite drop_app_length, take_app_length. reflexivity.
Qed.

Lemma containsMiddle_loop_true (s substr : string) (i todo : nat) :
  containsMiddle_loop s substr i todo = true <->
  exists j, (i <= j < i + todo)%nat /\ slice s j (j + String.length substr) = substr.
Proof.
  revert i. induction todo as [|todo IH]; intros i; simpl.
  - split; [discriminate | intros (j & Hj & _); lia].
  - case_bool_decide as Hhere.
    + split; [|reflexivity]. intros _. exists i. split; [lia | exact Hhere].
    + rewrite IH. split; intros (j & Hj & Hs).
      * exists j. split; [lia | exact Hs].
      * exists j. split; [|exact Hs].
        destruct (decide (j = i)) as [->|]; [contradiction | lia].
Qed.

Lemma containsMiddle_occurs (s substr : string) :
  containsMiddle s substr = true <-> occurs_in substr s.
Proof.
  unfold containsMiddle, occurs_in.
  destruct (Nat.ltb_spec (String.length s) (String.length substr)) as [Hlt|Hge].
  - split; [discriminate|]. intros (pre & post & ->).
    rewrite !string_length_append in Hlt. lia.
  - rewrite containsMiddle_loop_true. split.
    + intros (j & Hj & Hs). apply slice_eq_iff in Hs as (pre & post & -> & _); [|lia].
      by exists pre, post.
    + intros (pre & post & Hs). exists (String.length pre). split.
      * rewrite Hs, !string_length_append. lia.
      * apply slice_eq_iff; [|by exists pre, post].
        rewrite Hs, !string_length_append. lia.
Qed.

Lemma occurs_in_refl (s : string) : occurs_in s s.
Proof.
  exists "", "". apply chars_inj. rewrite !chars_append. simpl. by rewrite app_nil_r.
Qed.

Lemma occurs_in_whole (s substr : string) :
  occurs_in substr s -> (String.length s <= String.length substr)%nat -> s = substr.
Proof.
  intros (pre & post & ->) Hlen. rewrite !string_length_append in Hlen.
  destruct pre; [|simpl in Hlen; lia]. destruct post; [|simpl in Hlen; lia].
  apply chars_inj. rewrite !chars_append. simpl. by rewrite app_nil_r.
Qed.

Lemma contains_containsMiddle (s substr : string) :
  contains s substr = containsMiddle s substr.
Proof.
  unfold contains.
  destruct (Nat.leb_spec (String.length substr) (String.length s)) as [Hle|Hgt]; simpl.
  - destruct (containsMiddle s substr) eqn:Hmid.
    + case_bool_decide as Heq; [reflexivity|].
      destruct (Nat.ltb_spec (String.length substr) (String.length s)) as [|Hge]; simpl.
      * by rewrite !orb_true_r.
      * apply containsMiddle_occurs in Hmid. by apply occurs_in_whole in Hmid.
    + assert (~ occurs_in substr s) as Hno
        by (rewrite <- containsMiddle_occurs, Hmid; discriminate).
      case_bool_decide as Heq.
      { exfalso. apply Hno. subst s. apply occurs_in_refl. }
      destruct (Nat.ltb_spec (String.length substr) (String.length s)) as [Hlt|]; [|reflexivity].
      simpl. rewrite orb_false_r.
      case_bool_decide as Hpre.
      { exfalso. apply Hno. apply (slice_eq_iff s substr 0) in Hpre as (pre & post & -> & _);
          [by exists pre, post | simpl; lia]. }
      case_bool_decide as Hsuf; [|reflexivity].
      exfalso. apply Hno.
      replace (String.length s) with
        (String.length s - String.length substr + String.length substr)%nat in Hsuf at 2 by lia.
      apply slice_eq_iff in Hsuf as (pre & post & -> & _); [by exists pre, post | lia].
  - unfold containsMiddle.
    by destruct (Nat.ltb_spec (String.length s) (String.length substr)); [|lia].
Qed.

Lemma models_test_contains_containsMiddle (s substr : string) :
  models_test_contains s substr = containsMiddle s substr.
Proof.
  unfold models_test_contains.
  destruct (Nat.leb_spec (String.length substr) (String.length s)) as [Hle|Hgt]; simpl.
  - destruct (containsMiddle s substr) eqn:Hmid.
    + case_bool_decide as Heq; [reflexivity|].
      destruct (Nat.ltb_spec (String.length substr) (String.length s)) as [|Hge];
        [reflexivity|].
      apply containsMiddle_occurs in Hmid. by apply occurs_in_whole in Hmid.
    + case_bool_decide as Heq; [|by rewrite andb_false_r].
      exfalso. assert (occurs_in substr s) as Hocc by (subst s; apply occurs_in_refl).
      apply containsMiddle_occurs in Hocc. congruence.
  - unfold containsMiddle.
    by destruct (Nat.ltb_spec (String.length s) (String.length substr)); [|lia].
Qed.

(** X11.  [contains] decides whether [substr] occurs in [s], for all
    strings: the empty [substr] occurs in every string, and a [substr]
    longer than [s] in none.  [containsMiddle] alone decides the same. *)
Theorem contains_occurs (s substr : string) :
  (contains s substr = true <-> occurs_in substr s) /\
  (containsMiddle s substr = contains s substr) /\
  contains s "" = true /\
  ((String.length s < String.length substr)%nat -> contains s substr = false).
Proof.
  rewrite !contains_containsMiddle.
  split; [apply containsMiddle_occurs|]. split; [reflexivity|]. split.
  - apply containsMiddle_occurs. exists "", s. reflexivity.
  - intros Hlt. unfold containsMiddle.
    by destruct (Nat.ltb_spec (String.length s) (String.length substr)); [|lia].
Qed.

(** X12.  The [contains] of the tests of package models decides the same as
    the [contains] of package storage. *)
Theorem models_test_contains_agrees (s substr : string) :
  models_test_contains s substr = contains s substr /\
  (models_test_contains s substr = true <-> occurs_in substr s).
Proof.
  rewrite models_test_contains_containsMiddle, contains_containsMiddle.
  split; [reflexivity | apply containsMiddle_occurs].
Qed.

(** ** The users *)

Lemma head_filter_None {A : Type} (P : A -> Prop) `{!forall x, Decision (P x)} (l : list A) :
  head (filter P l) = None <-> forall x, x ∈ l -> ~ P x.
Proof.
  rewrite head_None. split.
  - intros Hnil x Hx HP. by eapply filter_nil_not_elem_of.
  - intros Hno. induction l as [|x l IH]; [reflexivity|].
    rewrite filter_cons_False by (apply Hno; left).
    apply IH. intros y Hy. apply Hno. by right.
Qed.

Lemma head_filter_last {A : Type} (P : A -> Prop) `{!forall x, Decision (P x)}
  (l : list A) (x : A) :
  (forall y, y ∈ l -> ~ P y) -> P x -> head (filter P (l ++ [x])) = Some x.
Proof.
  intros Hno Hx. induction l as [|y l IH]; simpl.
  - by rewrite filter_cons_True.
  - rewrite filter_cons_False by (apply Hno; left).
    apply IH. intros z Hz. apply Hno. by right.
Qed.

Lemma head_filter_app_other {A : Type} (P : A -> Prop) `{!forall x, Decision (P x)}
  (l : list A) (x : A) :
  ~ P x -> head (filter P (l ++ [x])) = head (filter P l).
Proof.
  intros Hx. rewrite filter_app, filter_cons_False by exact Hx.
  by rewrite filter_nil, app_nil_r.
Qed.

(** X13.  [CreateUser] with a username that a user already has returns
    [ErrUserAlreadyExists] and enters nothing; so it does when the new id is
    taken.  It returns no other error. *)
Theorem CreateUser_taken (uuid : string) (now1 now2 : Time) (username passwordHash : string)
  (db : DB) :
  (username ∈ (users.username <$> tbl_users db) \/ uuid ∈ (users.id <$> tbl_users db) ->
   CreateUser uuid now1 now2 username passwordHash db = (Err ErrUserAlreadyExists, db)) /\
  (forall e db',
     CreateUser uuid now1 now2 username passwordHash db = (Err e, db') ->
     e = ErrUserAlreadyExists /\ db' = db /\
     (username ∈ (users.username <$> tbl_users db) \/ uuid ∈ (users.id <$> tbl_users db))).
Proof.
  unfold CreateUser, insert_users. simpl. split.
  - intros Htaken. case_bool_decide as Hid; [reflexivity|].
    case_bool_decide as Hname; [reflexivity|]. tauto.
  - intros e db'. case_bool_decide as Hid.
    { intros [= <- <-]. repeat split. by right. }
    case_bool_decide as Hname; [|discriminate].
    intros [= <- <-]. repeat split. by left.
Qed.

(** X14.  A user that [CreateUser] has entered, under an id and a username
    that were free, is what [GetUserByUsername] and [GetUserByID] return
    for that username and that id; the users there were are found as
    before, and the items are untouched. *)
Theorem CreateUser_then_lookup (uuid : string) (now1 now2 : Time)
  (username passwordHash : string) (db : DB) :
  ~ (username ∈ (users.username <$> tbl_users db)) ->
  ~ (uuid ∈ (users.id <$> tbl_users db)) ->
  let user := {| models_User.ID := uuid; models_User.Username := username;
                 models_User.PasswordHash := passwordHash;
                 models_User.CreatedAt := now1; models_User.UpdatedAt := now2 |} in
  exists db',
    CreateUser uuid now1 now2 username passwordHash db = (Ok user, db') /\
    GetUserByUsername username db' = Ok user /\
    GetUserByID uuid db' = Ok user /\
    (forall name, name <> username -> GetUserByUsername name db' = GetUserByUsername name db) /\
    (forall id, id <> uuid -> GetUserByID id db' = GetUserByID id db) /\
    tbl_data_items db' = tbl_data_items db /\
    (users_keys_ok db -> users_keys_ok db').
Proof.
  intros Hname Hid user. unfold CreateUser, insert_users. simpl.
  rewrite bool_decide_eq_false_2 by exact Hid.
  rewrite bool_decide_eq_false_2 by exact Hname.
  eexists. split; [reflexivity|]. simpl.
  unfold GetUserByUsername, GetUserByID. simpl.
  split; [|split; [|split; [|split; [|split]]]].
  - rewrite head_filter_last; [reflexivity| |reflexivity].
    intros y Hy Hy'. apply Hname. rewrite <- Hy'. by apply list_elem_of_fmap_2.
  - rewrite head_filter_last; [reflexivity| |reflexivity].
    intros y Hy Hy'. apply Hid. rewrite <- Hy'. by apply list_elem_of_fmap_2.
  - intros name Hne. rewrite head_filter_app_other; [reflexivity|]. simpl. congruence.
  - intros id Hne. rewrite head_filter_app_other; [reflexivity|]. simpl. congruence.
  - reflexivity.
  - intros [Hids Hnames]. unfold users_keys_ok. simpl. rewrite !fmap_app. split.
    + apply NoDup_app. split; [exact Hids|]. split; [|apply NoDup_singleton].
      intros x Hx ->%list_elem_of_singleton. by apply Hid.
    + apply NoDup_app. split; [exact Hnames|]. split; [|apply NoDup_singleton].
      intros x Hx ->%list_elem_of_singleton. by apply Hname.
Qed.

(** X15.  [GetUserByUsername] returns [ErrUserNotFound], and no other error,
    exactly when no user has the username, and otherwise a stored user of that
    username; [GetUserByID] likewise, by id. *)
Theorem user_lookup_sound (name id : string) (db : DB) :
  (GetUserByUsername name db = Err ErrUserNotFound <->
     ~ (name ∈ (users.username <$> tbl_users db))) /\
  (forall e, GetUserByUsername name db = Err e -> e = ErrUserNotFound) /\
  (forall user, GetUserByUsername name db = Ok user ->
     models_User.Username user = name /\
     exists u, u ∈ tbl_users db /\ user = scan_user u) /\
  (GetUserByID id db = Err ErrUserNotFound <-> ~ (id ∈ (users.id <$> tbl_users db))) /\
  (forall e, GetUserByID id db = Err e -> e = ErrUserNotFound) /\
  (forall user, GetUserByID id db = Ok user ->
     models_User.ID user = id /\
     exists u, u ∈ tbl_users db /\ user = scan_user u).
Proof.
  unfold GetUserByUsername, GetUserByID.
  split; [|split; [|split; [|split; [|split]]]].
  - destruct (head (filter _ (tbl_users db))) as [u|] eqn:Hh.
    + split; [discriminate|]. intros Hno. exfalso. apply Hno.
      apply head_Some_elem_of, list_elem_of_filter in Hh as [<- Hu].
      by apply list_elem_of_fmap_2.
    + split; [|reflexivity]. intros _ (u & -> & Hu)%list_elem_of_fmap.
      by eapply (proj1 (head_filter_None _ _) Hh u Hu).
  - destruct (head (filter _ (tbl_users db))); [discriminate|]. by intros e [= <-].
  - destruct (head (filter _ (tbl_users db))) as [u|] eqn:Hh; [|discriminate].
    intros user [= <-]. apply head_Some_elem_of, list_elem_of_filter in Hh as [Hn Hu].
    split; [exact Hn | by exists u].
  - destruct (head (filter _ (tbl_users db))) as [u|] eqn:Hh.
    + split; [discriminate|]. intros Hno. exfalso. apply Hno.
      apply head_Some_elem_of, list_elem_of_filter in Hh as [<- Hu].
      by apply list_elem_of_fmap_2.
    + split; [|reflexivity]. intros _ (u & -> & Hu)%list_elem_of_fmap.
      by eapply (proj1 (head_filter_None _ _) Hh u Hu).
  - destruct (head (filter _ (tbl_users db))); [discriminate|]. by intros e [= <-].
  - destruct (head (filter _ (tbl_users db))) as [u|] eqn:Hh; [|discriminate].
    intros user [= <-]. apply head_Some_elem_of, list_elem_of_filter in Hh as [Hn Hu].
    split; [exact Hn | by exists u].
Qed.

(** ** Package crypto, continued *)

Section keys.
Context {C : CryptoProvider}.

(** X16.  How [Encrypt] fails.  A key whose length is not 16, 24 or 32
    bytes is refused before anything else is looked at: [Encrypt] returns the
    key-size error and has read nothing from the random source, and [Decrypt]
    returns the key-size error even for an input shorter than a nonce.  With
    a key of an AES size and fewer than 12 random bytes left, [Encrypt]
    returns [io.EOF] when none is left and [io.ErrUnexpectedEOF] otherwise,
    and the source is drained; with 12 bytes read and a plaintext beyond the
    limit of GCM it panics.  It returns no other error. *)
Theorem Encrypt_failures (plaintext key : list byte) (r : Reader) :
  (aes_key_size_ok (length key) = false ->
   Encrypt plaintext key r = (Err (KeySizeError (length key)), r) /\
   Decrypt plaintext key = Err (KeySizeError (length key))) /\
  (aes_key_size_ok (length key) = true ->
   (r = [] -> Encrypt plaintext key r = (Err io_EOF, [])) /\
   ((0 < length r < 12)%nat -> Encrypt plaintext key r = (Err io_ErrUnexpectedEOF, [])) /\
   ((12 <= length r)%nat ->
    (gcmMaxPlaintext < N.of_nat (length plaintext))%N ->
    Encrypt plaintext key r =
      (Panic "crypto/cipher: message too large for GCM", drop 12 r)) /\
   (forall e r', Encrypt plaintext key r = (Err e, r') ->
      (length r < 12)%nat /\ r' = [] /\ (e = io_EOF \/ e = io_ErrUnexpectedEOF))).
Proof.
  unfold Encrypt, Decrypt, aes_NewCipher. split; intros Hkey; rewrite Hkey; [done|].
  unfold io_ReadFull, AEAD_Seal. change NonceSize with 12%nat.
  destruct (Nat.leb_spec 12 (length r)) as [Hge|Hlt].
  - rewrite length_take_le, Nat.eqb_refl by done. simpl.
    split; [intros ->; simpl in Hge; lia|]. split; [lia|]. split.
    + intros _ Hbig.
      by destruct (N.ltb_spec gcmMaxPlaintext (N.of_nat (length plaintext))); [|lia].
    + intros e r'.
      by destruct (N.ltb_spec gcmMaxPlaintext (N.of_nat (length plaintext))).
  - destruct r as [|b rest].
    + repeat split; try done; try (simpl; lia).
      * by simplify_eq.
      * simplify_eq. by left.
    + repeat split; try done; try (simpl in *; lia).
      * by simplify_eq.
      * simplify_eq. by right.
Qed.

(** X17.  Decryption never panics: the nonce handed to GCM is always the
    12 bytes that were checked to be there.  [Decrypt] and
    [DecryptWithPassword] return a plaintext or an error for every input,
    every key and every secret. *)
Theorem Decrypt_never_panics (ct key : list byte) (S : string) (m : string) :
  Decrypt ct key <> Panic m /\ DecryptWithPassword ct S <> Panic m.
Proof.
  assert (forall ct key, Decrypt ct key <> Panic m) as HD.
  { clear. intros ct key. unfold Decrypt, aes_NewCipher.
    destruct (aes_key_size_ok (length key)); [|done].
    destruct (Nat.ltb_spec (length ct) NonceSize); [done|].
    unfold AEAD_Open. rewrite length_take_le, Nat.eqb_refl by done. simpl.
    by destruct (gcm_Open _ _ _ _). }
  split; [apply HD|]. unfold DecryptWithPassword.
  destruct (_ <? _)%nat; [done | apply HD].
Qed.

End keys.

Section envelope_more.
Context {C : CryptoProvider} {L : CryptoLaws C}.

(** X18.  What [Encrypt] returned under a key, [Decrypt] opens under the
    same key: the result is the plaintext.  The ciphertext is the 12-byte
    nonce read from the random source followed by the sealed message, 12 + 16
    bytes longer than the plaintext, and exactly 12 random bytes were used. *)
Theorem Encrypt_Decrypt_roundtrip (plaintext key ct : list byte) (r r' : Reader) :
  Encrypt plaintext key r = (Ok ct, r') ->
  Decrypt ct key = Ok plaintext /\
  take 12 ct = take 12 r /\
  length ct = (12 + length plaintext + 16)%nat /\
  r' = drop 12 r.
Proof.
  intros (Hkey & Hr & HP & -> & ->)%Encrypt_Ok.
  change NonceSize with 12%nat in *.
  assert (length (take 12 r) = 12%nat) as Hn by (by rewrite length_take_le).
  repeat split.
  - by apply Decrypt_Seal.
  - by rewrite take_app_length'.
  - rewrite length_app, Hn, gcm_Seal_length by done. unfold gcmTagSize. lia.
Qed.

(** X19.  [EncryptWithPassword] fails only for want of random bytes: with a
    plaintext within the limit of GCM it returns an error exactly when the
    random source has fewer than 32 + 12 bytes left, the error is [io.EOF]
    when the source is empty or ends right after the salt and
    [io.ErrUnexpectedEOF] otherwise, and the source is drained.  The derived
    key is never refused. *)
Theorem EncryptWithPassword_failures (P : list byte) (S : string) (r : Reader) :
  (N.of_nat (length P) <= gcmMaxPlaintext)%N ->
  ((length r < 32 + 12)%nat ->
   EncryptWithPassword P S r =
     (Err (if bool_decide (length r = 0%nat \/ length r = 32%nat)
           then io_EOF else io_ErrUnexpectedEOF), [])) /\
  (forall e r', EncryptWithPassword P S r = (Err e, r') -> (length r < 32 + 12)%nat) /\
  (forall m r', EncryptWithPassword P S r <> (Panic m, r')).
Proof.
  intros HP.
  destruct (Nat.le_gt_cases (32 + 12) (length r)) as [Hge|Hlt].
  { pose proof (EncryptWithPassword_enough P S r Hge HP) as Henc.
    cbv zeta in Henc. rewrite Henc. repeat split; [lia | done | done]. }
  assert (EncryptWithPassword P S r =
     (Err (if bool_decide (length r = 0%nat \/ length r = 32%nat)
           then io_EOF else io_ErrUnexpectedEOF), [])) as ->.
  { unfold EncryptWithPassword, GenerateSalt, io_ReadFull.
    change SaltSize with 32%nat.
    destruct (Nat.leb_spec 32 (length r)) as [H32|H32].
    - unfold Encrypt, aes_NewCipher. rewrite DeriveKey_length. simpl aes_key_size_ok.
      cbv iota. unfold io_ReadFull. change NonceSize with 12%nat.
      rewrite length_drop.
      destruct (Nat.leb_spec 12 (length r - 32)); [lia|].
      destruct (drop 32 r) as [|b rest] eqn:Hd.
      + apply (f_equal length) in Hd. rewrite length_drop in Hd. simpl in Hd.
        rewrite bool_decide_eq_true_2 by lia. done.
      + apply (f_equal length) in Hd. rewrite length_drop in Hd. simpl in Hd.
        rewrite bool_decide_eq_false_2 by lia. done.
    - destruct r as [|b rest].
      + by rewrite bool_decide_eq_true_2 by (simpl; lia).
      + by rewrite bool_decide_eq_false_2 by (simpl in *; lia). }
  repeat split; done.
Qed.

End envelope_more.

(** ** The handlers *)

Import pb_messages.

(** A statement that changes only rows of one user leaves the rows of the
    others as they were. *)
Lemma Forall2_rows_of_others (u : string) (rows rows' : list data_items.row) :
  Forall2 (fun r r' => r' = r \/
             (data_items.user_id r = u /\ data_items.user_id r' = u)) rows rows' ->
  filter (fun r => data_items.user_id r <> u) rows'
  = filter (fun r => data_items.user_id r <> u) rows.
Proof.
  induction 1 as [|r r' rows rows' Hr _ IH]; [done|].
  destruct Hr as [->|[Hu Hu']].
  - rewrite !filter_cons. by rewrite IH.
  - rewrite !filter_cons. rewrite !decide_False by tauto. exact IH.
Qed.

Lemma CreateItem_rows (uuid : string) (now1 now2 : Time) (item : DataItem) (db : DB) :
  tbl_users (CreateItem uuid now1 now2 item db).2 = tbl_users db /\
  ((CreateItem uuid now1 now2 item db).2 = db \/
   exists r, data_items.user_id r = UserID item /\
     tbl_data_items (CreateItem uuid now1 now2 item db).2 = tbl_data_items db ++ [r]).
Proof.
  destruct (decide (Metadata item = ∅)) as [Hm|Hm];
    [|rewrite CreateItem_tagged by exact Hm; by split; [|left]].
  rewrite CreateItem_untagged by exact Hm. cbv zeta.
  destruct (insert_data_items _ db) as [[e|] db1] eqn:Hins; simpl.
  - apply insert_data_items_Some in Hins as ->. by split; [|left].
  - apply insert_data_items_None in Hins as (_ & _ & _ & ->). simpl.
    split; [done|]. right. eexists. split; [|reflexivity]. reflexivity.
Qed.

Lemma GetItem_Ok (userID itemID : string) (db : DB) (item : DataItem) :
  GetItem userID itemID db = Ok item ->
  exists r, r ∈ tbl_data_items db /\ item = scan_item r /\
            data_items.id r = itemID /\ data_items.user_id r = userID /\
            data_items.deleted r = false.
Proof.
  unfold GetItem.
  destruct (QueryRow _ db) as [r|] eqn:Hq; [|done].
  apply QueryRow_Some in Hq as (Hin & Hid & Hu & Hd).
  intros [= <-]. by exists r.
Qed.

Lemma GetItemByName_Ok (userID name : string) (db : DB) (item : DataItem) :
  GetItemByName userID name db = Ok item ->
  exists r, r ∈ tbl_data_items db /\ item = scan_item r /\
            data_items.user_id r = userID /\ data_items.name r = name /\
            data_items.deleted r = false.
Proof.
  unfold GetItemByName.
  destruct (QueryRow _ db) as [r|] eqn:Hq; [|done].
  apply QueryRow_Some in Hq as (Hin & Hu & Hn & Hd).
  intros [= <-]. by exists r.
Qed.

(** X20.  The handlers that write act on the caller's rows only.  Whatever
    the request, [AddItem], [UpdateItem] and [DeleteItem] called with the
    claims of one user leave every row of every other user, and the table of
    users, as they were; and a call whose token was refused leaves the whole
    database as it was. *)
Theorem writes_stay_with_caller (claims : auth.Claims) (e : error) (db : DB)
  (add : AddItemRequest.t) (upd : pb.UpdateItemRequest.t) (del : DeleteItemRequest.t)
  (uuid : string) (now1 now2 : Time) :
  let u := auth.UserID claims in
  let after_add := (handlers.AddItem (Ok claims) add uuid now1 now2 db).2 in
  let after_upd := (server.UpdateItem (Ok claims) upd now1 db).2 in
  let after_del := (handlers.DeleteItem (Ok claims) del now1 db).2 in
  (rows_of_others u after_add = rows_of_others u db /\ tbl_users after_add = tbl_users db) /\
  (rows_of_others u after_upd = rows_of_others u db /\ tbl_users after_upd = tbl_users db) /\
  (rows_of_others u after_del = rows_of_others u db /\ tbl_users after_del = tbl_users db) /\
  (handlers.AddItem (Err e) add uuid now1 now2 db).2 = db /\
  (server.UpdateItem (Err e) upd now1 db).2 = db /\
  (handlers.DeleteItem (Err e) del now1 db).2 = db.
Proof.
  intros u after_add after_upd after_del.
  split; [|split; [|split; [|done]]].
  - subst after_add. unfold handlers.AddItem.
    set (item := {| ID := ""; UserID := auth.UserID claims |}).
    pose proof (CreateItem_rows uuid now1 now2 item db) as [Hu Hrows].
    destruct (CreateItem uuid now1 now2 item db) as [[[err|] item'] db'];
      simpl in *; (split; [|exact Hu]).
    all: destruct Hrows as [->|(r & Hr & Hrows)]; [done|].
    all: unfold rows_of_others; rewrite Hrows, filter_app, filter_cons, filter_nil.
    all: rewrite decide_False by (subst u; tauto); by rewrite app_nil_r.
  - subst after_upd. unfold server.UpdateItem.
    destruct (GetItem _ _ db) as [item|err|m] eqn:Hget; [|done..].
    apply GetItem_Ok in Hget as (r & _ & -> & _ & Hr & _).
    set (item := {| ID := ID (scan_item r) |}).
    pose proof (UpdateItem_rows now1 item db) as [Hu Hrows].
    assert (rows_of_others u (UpdateItem now1 item db).2 = rows_of_others u db) as Ho.
    { apply Forall2_rows_of_others. eapply Forall2_impl; [exact Hrows|].
      intros x y Hxy. simpl in Hxy. destruct Hxy as [->|(_ & Hx & Hset)]; [by left|]. right.
      apply UpdateItem_set_inr in Hset as (_ & Hy & _).
      subst u. simpl in Hx. rewrite Hy, Hx. by rewrite Hr. }
    destruct (UpdateItem now1 item db) as [[[err|] item'] db']; simpl in *.
    + by destruct (errors_Is err ErrVersionConflict).
    + done.
  - subst after_del. unfold handlers.DeleteItem.
    rewrite DeleteItem_map. simpl. split; [|done].
    unfold rows_of_others. simpl. apply Forall2_rows_of_others.
    apply Forall2_fmap_r, Forall_Forall2_diag, Forall_forall.
    intros r _. unfold compose. case_decide as Hr; [|by left]. right.
    destruct Hr as [_ Hr]. by split.
Qed.

(** X21.  How [GetItem] chooses.  A request with an item id is answered by
    id and its name is ignored; a request with neither id nor name is
    refused.  With a valid token the handler either returns a row that is in
    the table, belongs to the caller, is not deleted and carries the id asked
    for (or, without an id, the name asked for), or it returns one of the two
    fresh errors "item not found" and "either item_id or name must be
    provided", which wrap nothing. *)
Theorem GetItem_dispatch (claims : auth.Claims) (token itemID name : string) (db : DB) :
  let req := {| GetItemRequest.Token := token; GetItemRequest.ItemId := itemID;
                GetItemRequest.Name := name |} in
  (itemID <> "" ->
   forall c, handlers.GetItem c req db =
     handlers.GetItem c {| GetItemRequest.Token := token; GetItemRequest.ItemId := itemID;
                           GetItemRequest.Name := "" |} db) /\
  (itemID = "" -> name = "" ->
   handlers.GetItem (Ok claims) req db =
     handlers.Fault (handlers.rpc_new "either item_id or name must be provided")) /\
  ((exists r, r ∈ tbl_data_items db /\
      data_items.user_id r = auth.UserID claims /\ data_items.deleted r = false /\
      (if bool_decide (itemID = "") then data_items.name r = name
       else data_items.id r = itemID) /\
      handlers.GetItem (Ok claims) req db =
        handlers.Reply {| GetItemResponse.Item := server.modelItemToProtoItem (scan_item r) |})
   \/ handlers.GetItem (Ok claims) req db = handlers.Fault (handlers.rpc_new "item not found")
   \/ handlers.GetItem (Ok claims) req db =
        handlers.Fault (handlers.rpc_new "either item_id or name must be provided")).
Proof.
  intros req. unfold handlers.GetItem. subst req. simpl.
  split; [|split].
  - intros Hid c. by rewrite (bool_decide_eq_false_2 _ Hid).
  - intros -> ->. done.
  - case_bool_decide as Hid; simpl.
    + case_bool_decide as Hname; simpl; [by right; right|].
      destruct (GetItemByName _ name db) as [item|err|m] eqn:Hget.
      * apply GetItemByName_Ok in Hget as (r & Hin & -> & Hu & Hn & Hd).
        left. by exists r.
      * unfold GetItemByName in Hget. destruct (QueryRow _ db); [done|].
        injection Hget as <-. by right; left.
      * unfold GetItemByName in Hget. by destruct (QueryRow _ db).
    + destruct (GetItem _ itemID db) as [item|err|m] eqn:Hget.
      * apply GetItem_Ok in Hget as (r & Hin & -> & Hi & Hu & Hd).
        left. by exists r.
      * unfold GetItem in Hget. destruct (QueryRow _ db); [done|].
        injection Hget as <-. by right; left.
      * unfold GetItem in Hget. by destruct (QueryRow _ db).
Qed.

Lemma modelTypeToProtoType_protoTypeToModelType (t : pb.DataType) :
  server.modelTypeToProtoType (handlers.protoTypeToModelType t) = t.
Proof. by destruct t. Qed.

Section end_to_end.
Context {C : CryptoProvider} {L : CryptoLaws C}.

(** X22.  From the client's plaintext to the server and back.  When
    [EncryptWithPassword] has returned a blob for a plaintext and [AddItem]
    has accepted a request carrying that blob, [GetItem] with the same claims
    returns the item, by the id that [AddItem] returned and by the name of
    the request, with version 1, the type of the request, no metadata and
    the same blob, and [DecryptWithPassword] with the same secret turns that
    blob into the plaintext. *)
Theorem AddItem_GetItem_Decrypt (P : list byte) (S : string) (r r' : Reader)
  (blob : list byte) (claims : auth.Claims) (req : AddItemRequest.t)
  (uuid token : string) (now1 now2 : Time) (db db' : DB) (resp : AddItemResponse.t) :
  EncryptWithPassword P S r = (Ok blob, r') ->
  AddItemRequest.EncryptedData req = blob ->
  handlers.AddItem (Ok claims) req uuid now1 now2 db = (handlers.Reply resp, db') ->
  let item :=
    {| pb.DataItem.Id := uuid; pb.DataItem.UserId := auth.UserID claims;
       pb.DataItem.Type_ := AddItemRequest.Type_ req;
       pb.DataItem.Name := AddItemRequest.Name req;
       pb.DataItem.EncryptedData := blob; pb.DataItem.Metadata := ∅;
       pb.DataItem.CreatedAt := Time_Unix now1; pb.DataItem.UpdatedAt := Time_Unix now2;
       pb.DataItem.Version := 1; pb.DataItem.Deleted := false |} in
  AddItemResponse.ItemId resp = uuid /\
  (uuid <> "" ->
   handlers.GetItem (Ok claims)
     {| GetItemRequest.Token := token; GetItemRequest.ItemId := AddItemResponse.ItemId resp;
        GetItemRequest.Name := "" |} db'
   = handlers.Reply {| GetItemResponse.Item := item |}) /\
  (AddItemRequest.Name req <> "" ->
   handlers.GetItem (Ok claims)
     {| GetItemRequest.Token := token; GetItemRequest.ItemId := "";
        GetItemRequest.Name := AddItemRequest.Name req |} db'
   = handlers.Reply {| GetItemResponse.Item := item |}) /\
  DecryptWithPassword (pb.DataItem.EncryptedData item) S = Ok P.
Proof.
  intros Henc Hblob. unfold handlers.AddItem.
  destruct (decide (AddItemRequest.Metadata req = ∅)) as [Hm|Hm];
    [|by rewrite CreateItem_tagged by exact Hm].
  rewrite CreateItem_untagged by exact Hm. cbv zeta.
  destruct (insert_data_items _ db) as [[err|] db1] eqn:Hins; [done|].
  simpl. intros [= <- <-].
  apply insert_data_items_None in Hins as (Hfresh & Hname & _ & ->).
  simpl in *.
  split; [done|]. split; [|split].
  - intros Huuid. unfold handlers.GetItem. simpl.
    rewrite (bool_decide_eq_false_2 _ Huuid). simpl. unfold GetItem.
    erewrite (QueryRow_at _ _ (tbl_data_items db) []); [| reflexivity | | ].
    + unfold server.modelItemToProtoItem, scan_item. simpl.
      rewrite jsonToMetadata_empty, modelTypeToProtoType_protoTypeToModelType.
      by rewrite Hblob.
    + intros x Hx [Hx' _]. apply Hfresh. rewrite <- Hx'. by apply list_elem_of_fmap_2.
    + simpl. tauto.
  - intros Hn. unfold handlers.GetItem. simpl.
    rewrite (bool_decide_eq_false_2 _ Hn). simpl. unfold GetItemByName.
    erewrite (QueryRow_at _ _ (tbl_data_items db) []); [| reflexivity | | ].
    + unfold server.modelItemToProtoItem, scan_item. simpl.
      rewrite jsonToMetadata_empty, modelTypeToProtoType_protoTypeToModelType.
      by rewrite Hblob.
    + intros x Hx (Hu & Hn' & _). apply Hname.
      apply list_elem_of_fmap. exists x. split; [|exact Hx].
      unfold owner_name. simpl. by rewrite Hu, Hn'.
    + simpl. tauto.
  - apply EncryptWithPassword_Ok in Henc as (Hr & HP & -> & _).
    apply DecryptWithPassword_envelope; [| | done].
    + rewrite length_take_le; [done | lia].
    + rewrite length_take_le; [done | rewrite length_drop; lia].
Qed.

End end_to_end.

(** X23.  What [UpdateItem] of the server can write.  A request with tags
    is refused before the statement is sent, whatever the row: the handler
    returns "failed to update item" around the conversion error of
    [db.Exec], and nothing changes.  A request without tags (no map, or an
    empty one) for a live row of the caller replaces the encrypted data by
    that of the request, sets [updated_at] to the clock, adds one to the
    version, keeps id, owner, type, name and [created_at], and stores NULL
    as metadata, whatever the row held; when the version is at the top of
    BIGINT the statement fails and nothing changes.  So no update through
    the handler leaves tags in the row. *)
Theorem UpdateItem_handler_overwrites (now : Time) (db : DB)
  (l1 l2 : list data_items.row) (r : data_items.row)
  (claims : auth.Claims) (req : pb.UpdateItemRequest.t) :
  primary_key db ->
  tbl_data_items db = l1 ++ r :: l2 ->
  auth.UserID claims = data_items.user_id r ->
  pb.UpdateItemRequest.ItemId req = data_items.id r ->
  data_items.deleted r = false ->
  let tags := default ∅ (pb.UpdateItemRequest.Metadata req) in
  let r' :=
    {| data_items.id := data_items.id r; data_items.user_id := data_items.user_id r;
       data_items.type := data_items.type r; data_items.name := data_items.name r;
       data_items.encrypted_data := pb.UpdateItemRequest.EncryptedData req;
       data_items.metadata := None;
       data_items.created_at := data_items.created_at r;
       data_items.updated_at := now;
       data_items.version := data_items.version r + 1;
       data_items.deleted := false |} in
  (tags <> ∅ ->
   server.UpdateItem (Ok claims) req now db =
     (Err (fmt_Errorf_w "failed to update item" (sql_unsupported_type 2)), db)) /\
  (tags = ∅ -> min_int64 <= data_items.version r < max_int64 ->
   server.UpdateItem (Ok claims) req now db =
     (Ok {| pb.UpdateItemResponse.Message := "item updated successfully";
            pb.UpdateItemResponse.NewVersion := data_items.version r + 1 |},
      {| tbl_users := tbl_users db; tbl_data_items := l1 ++ r' :: l2 |})) /\
  (tags = ∅ -> data_items.version r = max_int64 ->
   server.UpdateItem (Ok claims) req now db =
     (Err (fmt_Errorf_w "failed to update item" pq_numeric_value_out_of_range), db)).
Proof.
  intros Hpk Hrows Hc Hreq Hd tags r'. unfold server.UpdateItem.
  rewrite Hc, Hreq, (GetItem_at db l1 l2 r) by done.
  unfold UpdateItem.
  match goal with |- context [UpdateItem_exec ?i db] => set (item := i) end.
  assert (Metadata item = tags) as Hitem.
  { subst item tags. simpl. rewrite jsonToMetadata_empty.
    by destruct (pb.UpdateItemRequest.Metadata req). }
  split; [|split].
  - intros Hm. rewrite UpdateItem_exec_tagged by (by rewrite Hitem). done.
  - intros Hm Hrange.
    rewrite (UpdateItem_exec_at item db l1 l2 r Hpk Hrows) by (by rewrite ?Hitem).
    rewrite decide_True by done.
    unfold UpdateItem_set. subst item. simpl.
    destruct (Z.ltb_spec max_int64 (data_items.version r + 1)); [lia|].
    rewrite int64_add_small by done. subst r'. rewrite Hd.
    simpl in Hitem. rewrite Hitem. by rewrite (proj2 (metadataToJSON_None tags) Hm).
  - intros Hm Hmax.
    rewrite (UpdateItem_exec_at item db l1 l2 r Hpk Hrows) by (by rewrite ?Hitem).
    rewrite decide_True by done.
    unfold UpdateItem_set. subst item. simpl.
    by destruct (Z.ltb_spec max_int64 (data_items.version r + 1)); [|lia].
Qed.

(** X24.  [UpdateItem] of the server answers with the wrapped
    [ErrItemNotFound], under "failed to get item", exactly when the table
    has no row with the id of the request that belongs to the caller and is
    not deleted; the database is then as it was, and the three cases (no
    such id, another user's item, a deleted item) get the same answer. *)
Theorem UpdateItem_handler_missing (now : Time) (db : DB)
  (claims : auth.Claims) (req : pb.UpdateItemRequest.t) :
  (forall r, r ∈ tbl_data_items db ->
     ~ (data_items.id r = pb.UpdateItemRequest.ItemId req /\
        data_items.user_id r = auth.UserID claims /\ data_items.deleted r = false)) <->
  server.UpdateItem (Ok claims) req now db =
    (Err (fmt_Errorf_w "failed to get item" ErrItemNotFound), db).
Proof.
  unfold server.UpdateItem, GetItem.
  destruct (QueryRow _ db) as [r|] eqn:Hq.
  - apply QueryRow_Some in Hq as [Hin HP]. split.
    { intros Hno. by destruct (Hno r Hin). }
    intros Heq. exfalso. revert Heq.
    match goal with |- context [UpdateItem now ?i db] =>
      destruct (UpdateItem now i db) as [[[err|] item'] db'] end; [|done].
    destruct (errors_Is err ErrVersionConflict); [done|].
    intros [=].
  - split; [done|]. intros _. exact (proj1 (QueryRow_None _ db) Hq).
Qed.

(** *** Registration and login *)

Lemma CreateUser_fresh (uuid : string) (now1 now2 : Time) (username passwordHash : string)
  (db : DB) :
  ~ (username ∈ (users.username <$> tbl_users db)) ->
  ~ (uuid ∈ (users.id <$> tbl_users db)) ->
  CreateUser uuid now1 now2 username passwordHash db =
    (Ok {| models_User.ID := uuid; models_User.Username := username;
           models_User.PasswordHash := passwordHash;
           models_User.CreatedAt := now1; models_User.UpdatedAt := now2 |},
     {| tbl_users := tbl_users db ++
          [{| users.id := uuid; users.username := username;
              users.password_hash := passwordHash;
              users.created_at := now1; users.updated_at := now2 |}];
        tbl_data_items := tbl_data_items db |}).
Proof.
  intros Hname Hid. unfold CreateUser, insert_users. simpl.
  rewrite bool_decide_eq_false_2 by exact Hid.
  by rewrite bool_decide_eq_false_2 by exact Hname.
Qed.

Lemma CreateUser_dup (uuid : string) (now1 now2 : Time) (username passwordHash : string)
  (db : DB) :
  username ∈ (users.username <$> tbl_users db) ->
  CreateUser uuid now1 now2 username passwordHash db = (Err ErrUserAlreadyExists, db).
Proof.
  intros Htaken. unfold CreateUser, insert_users. simpl.
  case_bool_decide as Hid; [reflexivity|].
  by rewrite bool_decide_eq_true_2 by exact Htaken.
Qed.

Lemma GetUserByUsername_last (db : DB) (u : users.row) :
  ~ (users.username u ∈ (users.username <$> tbl_users db)) ->
  GetUserByUsername (users.username u)
    {| tbl_users := tbl_users db ++ [u]; tbl_data_items := tbl_data_items db |}
  = Ok (scan_user u).
Proof.
  intros Hname. unfold GetUserByUsername. simpl.
  rewrite head_filter_last; [reflexivity| |reflexivity].
  intros y Hy Hy'. apply Hname. rewrite <- Hy'. by apply list_elem_of_fmap_2.
Qed.

Lemma GetUserByUsername_unknown (db : DB) (name : string) :
  ~ (name ∈ (users.username <$> tbl_users db)) ->
  GetUserByUsername name db = Err ErrUserNotFound.
Proof.
  intros Hname. unfold GetUserByUsername.
  destruct (head _) as [u|] eqn:Hhead; [|done].
  apply head_Some_elem_of, list_elem_of_filter in Hhead as [Hu Hin].
  destruct Hname. rewrite <- Hu. by apply list_elem_of_fmap_2.
Qed.

(** X25.  Registration, then login.  A registration with a user name and a
    password that are not empty, for a name that is not taken, names the new
    user's id and the token in its reply.  After it, a login under that name
    succeeds with the same id exactly when the password check accepts the
    password against the stored hash; a refused password and a name that
    nobody registered get one and the same reply, "invalid credentials"
    without id or token. *)
Theorem Register_then_Login (req : RegisterRequest.t) (hash uuid tok : string)
  (now1 now2 : Time) (db : DB) :
  RegisterRequest.Username req <> "" ->
  RegisterRequest.Password req <> "" ->
  ~ (RegisterRequest.Username req ∈ (users.username <$> tbl_users db)) ->
  ~ (uuid ∈ (users.id <$> tbl_users db)) ->
  exists db',
    handlers.Register req (Ok hash) uuid now1 now2 (Ok tok) db =
      (handlers.Reply {| RegisterResponse.UserId := uuid; RegisterResponse.Token := tok;
                         RegisterResponse.Message := "registration successful" |}, db') /\
    (forall (check : string -> string -> option error) (pw tok' : string),
       pw <> "" ->
       handlers.Login {| LoginRequest.Username := RegisterRequest.Username req;
                         LoginRequest.Password := pw |} check (Ok tok') db' =
         match check pw hash with
         | None =>
             handlers.Reply {| LoginResponse.UserId := uuid; LoginResponse.Token := tok';
                               LoginResponse.Message := "login successful" |}
         | Some _ =>
             handlers.Reply {| LoginResponse.UserId := ""; LoginResponse.Token := "";
                               LoginResponse.Message := "invalid credentials" |}
         end) /\
    (forall (check : string -> string -> option error) (name pw : string)
            (tok' : outcome string),
       name <> "" -> pw <> "" ->
       ~ (name ∈ (users.username <$> tbl_users db')) ->
       handlers.Login {| LoginRequest.Username := name; LoginRequest.Password := pw |}
         check tok' db' =
         handlers.Reply {| LoginResponse.UserId := ""; LoginResponse.Token := "";
                           LoginResponse.Message := "invalid credentials" |}).
Proof.
  intros Hu Hp Hname Hid. unfold handlers.Register.
  rewrite (bool_decide_eq_false_2 _ Hu), (bool_decide_eq_false_2 _ Hp). simpl.
  rewrite CreateUser_fresh by done. simpl.
  eexists. split; [reflexivity|]. split.
  - intros check pw tok' Hpw. unfold handlers.Login. simpl.
    rewrite (bool_decide_eq_false_2 _ Hu), (bool_decide_eq_false_2 _ Hpw). simpl.
    match goal with |- context [tbl_users db ++ [?u]] =>
      pose proof (GetUserByUsername_last db u Hname) as Hlast end.
    simpl in Hlast. rewrite Hlast. simpl. by destruct (check pw hash).
  - intros check name pw tok' Hn Hpw Hunknown. unfold handlers.Login. simpl.
    rewrite (bool_decide_eq_false_2 _ Hn), (bool_decide_eq_false_2 _ Hpw). simpl.
    by rewrite GetUserByUsername_unknown by exact Hunknown.
Qed.

(** X26.  What [Register] refuses, and what it leaves behind.  An empty
    user name or password is answered before the password is hashed or the
    store is asked, and a name that is taken is answered with "user already
    exists"; both leave the database as it was.  When the token cannot be
    generated the handler returns the error, but the user has been created:
    the same registration, tried again, is answered with "user already
    exists". *)
Theorem Register_refusals (req : RegisterRequest.t) (hashed token : outcome string)
  (hash uuid uuid' : string) (now1 now2 : Time) (e : error) (db : DB) :
  (RegisterRequest.Username req = "" \/ RegisterRequest.Password req = "" ->
   handlers.Register req hashed uuid now1 now2 token db =
     (handlers.Reply {| RegisterResponse.UserId := ""; RegisterResponse.Token := "";
                        RegisterResponse.Message := "username and password are required" |},
      db)) /\
  (RegisterRequest.Username req <> "" -> RegisterRequest.Password req <> "" ->
   RegisterRequest.Username req ∈ (users.username <$> tbl_users db) ->
   handlers.Register req (Ok hash) uuid now1 now2 token db =
     (handlers.Reply {| RegisterResponse.UserId := ""; RegisterResponse.Token := "";
                        RegisterResponse.Message := "user already exists" |}, db)) /\
  (RegisterRequest.Username req <> "" -> RegisterRequest.Password req <> "" ->
   ~ (RegisterRequest.Username req ∈ (users.username <$> tbl_users db)) ->
   ~ (uuid ∈ (users.id <$> tbl_users db)) ->
   exists db',
     handlers.Register req (Ok hash) uuid now1 now2 (Err e) db =
       (handlers.Fault (handlers.rpc_err (fmt_Errorf_w "failed to generate token" e)), db') /\
     RegisterRequest.Username req ∈ (users.username <$> tbl_users db') /\
     handlers.Register req (Ok hash) uuid' now1 now2 token db' =
       (handlers.Reply {| RegisterResponse.UserId := ""; RegisterResponse.Token := "";
                          RegisterResponse.Message := "user already exists" |}, db')).
Proof.
  unfold handlers.Register. split; [|split].
  - intros [->| ->]; [done|]. by rewrite orb_true_r.
  - intros Hu Hp Htaken.
    rewrite (bool_decide_eq_false_2 _ Hu), (bool_decide_eq_false_2 _ Hp). simpl.
    by rewrite CreateUser_dup by done.
  - intros Hu Hp Hname Hid.
    rewrite (bool_decide_eq_false_2 _ Hu), (bool_decide_eq_false_2 _ Hp). simpl.
    rewrite CreateUser_fresh by done. simpl.
    eexists. split; [reflexivity|].
    assert (RegisterRequest.Username req ∈
              (users.username <$> tbl_users db ++
                 [{| users.id := uuid; users.username := RegisterRequest.Username req;
                     users.password_hash := hash;
                     users.created_at := now1; users.updated_at := now2 |}])) as Hin.
    { rewrite fmap_app. apply elem_of_app. right. simpl. apply list_elem_of_singleton.
      reflexivity. }
    split; [exact Hin|].
    by rewrite CreateUser_dup by exact Hin.
Qed.

(** *** The conversions between the model and the messages *)

(** X27.  Across the wire and back.  The type conversions of server and
    client agree; a message type survives the way to the model and back; a
    model type survives only when it is one of the four known types, any
    other string comes back empty.  An item sent by the server and read by
    the client keeps every field but these: the type as just said, and the
    two timestamps, which come back cut down to the whole second. *)
Theorem item_conversion_roundtrip (item : DataItem) (t : pb.DataType) (mt : DataType) :
  client.protoTypeToModelType t = handlers.protoTypeToModelType t /\
  client.modelTypeToProtoType mt = server.modelTypeToProtoType mt /\
  server.modelTypeToProtoType (handlers.protoTypeToModelType t) = t /\
  client.protoTypeToModelType (server.modelTypeToProtoType mt) =
    (if bool_decide (mt ∈ [DataTypeCredential; DataTypeText; DataTypeBinary; DataTypeCard])
     then mt else "") /\
  client.protoToModelItem (server.modelItemToProtoItem item) =
    {| ID := ID item; UserID := UserID item;
       Type_ := client.protoTypeToModelType (server.modelTypeToProtoType (Type_ item));
       Name := Name item; EncryptedData := EncryptedData item;
       Metadata := Metadata item;
       CreatedAt := CreatedAt item - CreatedAt item mod 1000000000;
       UpdatedAt := UpdatedAt item - UpdatedAt item mod 1000000000;
       Version := Version item; Deleted := Deleted item |} /\
  0 <= CreatedAt item - CreatedAt (client.protoToModelItem (server.modelItemToProtoItem item))
    < 1000000000.
Proof.
  assert (forall x : Z, time_Unix (Time_Unix x) = x - x mod 1000000000) as Hfloor.
  { intros x. unfold time_Unix, Time_Unix.
    pose proof (Z.div_mod x 1000000000). lia. }
  split; [done|]. split; [done|]. split; [by destruct t|]. split; [|split].
  - unfold server.modelTypeToProtoType.
    destruct (decide (mt = DataTypeCredential)) as [->|H1]; [by vm_compute|].
    destruct (decide (mt = DataTypeText)) as [->|H2]; [by vm_compute|].
    destruct (decide (mt = DataTypeBinary)) as [->|H3]; [by vm_compute|].
    destruct (decide (mt = DataTypeCard)) as [->|H4]; [by vm_compute|].
    rewrite !bool_decide_eq_false_2; [reflexivity| |done..].
    rewrite !elem_of_cons, elem_of_nil. tauto.
  - unfold client.protoToModelItem, server.modelItemToProtoItem. simpl.
    by rewrite !Hfloor.
  - unfold client.protoToModelItem, server.modelItemToProtoItem. simpl.
    rewrite Hfloor. pose proof (Z.mod_pos_bound (CreatedAt item) 1000000000). lia.
Qed.

(** *** Deleting through the handler *)

Lemma DeleteItem_GetItem (now : Time) (userID itemID : string) (db : DB) :
  GetItem userID itemID (DeleteItem now userID itemID db).2 = Err ErrItemNotFound.
Proof.
  rewrite DeleteItem_map. unfold GetItem.
  destruct (QueryRow _ _) as [r|] eqn:Hq; [|done]. exfalso.
  apply QueryRow_Some in Hq as (Hin & Hid & Hu & Hd). simpl in Hin.
  apply list_elem_of_fmap in Hin as (r0 & -> & _).
  case_decide as Hr0; [done|]. tauto.
Qed.

(** X28.  [DeleteItem] of the server reports success to every caller with a
    valid token, whether or not there was anything to delete; when the
    caller owns no row with that id the database is as it was.  After the
    call the item is gone for that caller in every case: [GetItem] by this
    id answers "item not found" and [UpdateItem] answers with the wrapped
    [ErrItemNotFound] and changes nothing. *)
Theorem DeleteItem_handler_reply (claims : auth.Claims) (token itemID name : string)
  (upd : pb.UpdateItemRequest.t) (now now' : Time) (db : DB) :
  let result :=
    handlers.DeleteItem (Ok claims)
      {| DeleteItemRequest.Token := token; DeleteItemRequest.ItemId := itemID |} now db in
  result.1 = handlers.Reply {| DeleteItemResponse.Message := "item deleted successfully" |} /\
  ((forall r, r ∈ tbl_data_items db -> data_items.id r = itemID ->
              data_items.user_id r <> auth.UserID claims) -> result.2 = db) /\
  (itemID <> "" ->
   handlers.GetItem (Ok claims)
     {| GetItemRequest.Token := token; GetItemRequest.ItemId := itemID;
        GetItemRequest.Name := name |} result.2
   = handlers.Fault (handlers.rpc_new "item not found")) /\
  (pb.UpdateItemRequest.ItemId upd = itemID ->
   server.UpdateItem (Ok claims) upd now' result.2 =
     (Err (fmt_Errorf_w "failed to get item" ErrItemNotFound), result.2)).
Proof.
  intros result.
  assert (result.2 = (DeleteItem now (auth.UserID claims) itemID db).2) as Hdb.
  { subst result. unfold handlers.DeleteItem. simpl. by rewrite DeleteItem_map. }
  split; [|split; [|split]].
  - subst result. unfold handlers.DeleteItem. simpl. by rewrite DeleteItem_map.
  - intros Hnone. rewrite Hdb, DeleteItem_map. simpl.
    destruct db as [us rows]. simpl in *.
    f_equal. rewrite <- (list_fmap_id rows) at 2. apply list_fmap_ext.
    intros i r Hr. rewrite decide_False; [reflexivity|].
    intros [Hid Hu]. eapply Hnone; [|exact Hid|exact Hu].
    by eapply list_elem_of_lookup_2.
  - intros Hid. unfold handlers.GetItem. simpl.
    rewrite (bool_decide_eq_false_2 _ Hid). simpl.
    by rewrite Hdb, DeleteItem_GetItem.
  - intros Hupd. unfold server.UpdateItem.
    by rewrite Hupd, Hdb, DeleteItem_GetItem.
Qed.

(** ** The commands *)

Import cmd_server cmd_client.

Lemma slice_append_right (pre post : string) :
  slice (pre +:+ post) (String.length (pre +:+ post) - String.length post)
        (String.length (pre +:+ post)) = post.
Proof.
  apply chars_inj. unfold slice.
  rewrite chars_substring, string_length_append, chars_append.
  rewrite <- !chars_length.
  set (a := list_ascii_of_string pre). set (b := list_ascii_of_string post).
  replace (length a + length b - length b)%nat with (length a) by lia.
  rewrite drop_app_length. apply take_ge. lia.
Qed.

Lemma slice_append_left (pre post : string) :
  slice (pre +:+ post) 0 (String.length pre) = pre.
Proof.
  apply chars_inj. unfold slice.
  rewrite chars_substring, chars_append, drop_0, Nat.sub_0_r.
  rewrite <- (chars_length pre). apply take_app_length.
Qed.

Lemma string_append_assoc (a b c : string) : (a +:+ b) +:+ c = a +:+ b +:+ c.
Proof. apply chars_inj. rewrite !chars_append. by rewrite (assoc_L (++)). Qed.

(** X29.  What the masks show.  [maskCard] prints a number of at most four
    bytes in full, and of a longer number only the last four bytes, behind
    four stars.  [maskDSN] prints the first ten and the last ten bytes of a
    DSN of more than twenty bytes with three dots for everything between,
    however long, and three stars for a shorter DSN. *)
Theorem masks_show_the_ends (hidden first last : string) :
  ((String.length hidden <= 4)%nat -> maskCard hidden = hidden) /\
  (hidden <> "" -> String.length last = 4%nat ->
   maskCard (hidden +:+ last) = "****" +:+ last) /\
  ((String.length hidden <= 20)%nat -> maskDSN hidden = "***") /\
  (hidden <> "" -> String.length first = 10%nat -> String.length last = 10%nat ->
   maskDSN (first +:+ hidden +:+ last) = first +:+ "..." +:+ last).
Proof.
  assert (hidden <> "" -> (0 < String.length hidden)%nat) as Hpos.
  { destruct hidden; [done|simpl; lia]. }
  split; [|split; [|split]].
  - intros Hlen. unfold maskCard.
    by destruct (Nat.leb_spec (String.length hidden) 4); [|lia].
  - intros Hne Hlast. apply Hpos in Hne. unfold maskCard.
    pose proof (string_length_append hidden last) as Hl.
    destruct (Nat.leb_spec (String.length (hidden +:+ last)) 4); [lia|].
    rewrite <- Hlast. by rewrite slice_append_right.
  - intros Hlen. unfold maskDSN.
    by destruct (Nat.ltb_spec 20 (String.length hidden)); [lia|].
  - intros Hne Hfirst Hlast. apply Hpos in Hne. unfold maskDSN.
    pose proof (string_length_append first (hidden +:+ last)) as Hl.
    pose proof (string_length_append hidden last) as Hl'.
    destruct (Nat.ltb_spec 20 (String.length (first +:+ hidden +:+ last))); [|lia].
    rewrite <- Hfirst at 1. rewrite slice_append_left.
    rewrite <- (string_append_assoc first hidden last).
    rewrite <- Hlast. by rewrite slice_append_right.
Qed.

(** *** The metadata flag *)

Lemma free_of_append (c : Ascii.ascii) (a b : string) :
  free_of c (a +:+ b) <-> free_of c a /\ free_of c b.
Proof. unfold free_of. rewrite chars_append, in_app_iff. tauto. Qed.

Lemma strings_Split_free (s : string) (sep : Ascii.ascii) :
  free_of sep s -> strings_Split s sep = [s].
Proof.
  unfold free_of. induction s as [|a s IH]; [done|]. simpl. intros Hfree.
  destruct (Ascii.eqb_spec a sep) as [->|Hne]; [tauto|].
  rewrite IH by tauto. done.
Qed.

Lemma strings_Split_cons (a b : string) (sep : Ascii.ascii) :
  free_of sep a -> strings_Split (a +:+ String sep b) sep = a :: strings_Split b sep.
Proof.
  unfold free_of. induction a as [|x a IH]; simpl.
  - intros _. by rewrite Ascii.eqb_refl.
  - intros Hfree. destruct (Ascii.eqb_spec x sep) as [->|Hne]; [tauto|].
    change (String.append a (String sep b)) with (a +:+ String sep b).
    rewrite IH by tauto. done.
Qed.

Lemma strings_Split_concat (pieces : list string) (sep : Ascii.ascii) :
  pieces <> [] -> Forall (free_of sep) pieces ->
  strings_Split (String.concat (String sep "") pieces) sep = pieces.
Proof.
  induction pieces as [|p pieces IH]; [done|]. intros _ Hfree.
  apply Forall_cons in Hfree as [Hp Hfree].
  destruct pieces as [|q pieces].
  - simpl. by apply strings_Split_free.
  - change (String.concat (String sep "") (p :: q :: pieces))
      with (p +:+ String sep (String.concat (String sep "") (q :: pieces))).
    rewrite strings_Split_cons by done. by rewrite IH.
Qed.

Lemma strings_SplitN2_cut (k v : string) (sep : Ascii.ascii) :
  free_of sep k -> strings_SplitN2 (k +:+ String sep v) sep = [k; v].
Proof.
  unfold free_of. induction k as [|x k IH]; simpl.
  - intros _. by rewrite Ascii.eqb_refl.
  - intros Hfree. destruct (Ascii.eqb_spec x sep) as [->|Hne]; [tauto|].
    change (String.append k (String sep v)) with (k +:+ String sep v).
    rewrite IH by tauto. done.
Qed.

Lemma strings_SplitN2_free (s : string) (sep : Ascii.ascii) :
  free_of sep s -> strings_SplitN2 s sep = [s].
Proof.
  unfold free_of. induction s as [|a s IH]; [done|]. simpl. intros Hfree.
  destruct (Ascii.eqb_spec a sep) as [->|Hne]; [tauto|].
  rewrite IH by tauto. done.
Qed.

Lemma free_of_Split (s : string) (sep c : Ascii.ascii) (p : string) :
  free_of c s -> p ∈ strings_Split s sep -> free_of c p.
Proof.
  unfold free_of. revert p. induction s as [|a s IH]; simpl; intros p Hfree.
  - by intros ->%list_elem_of_singleton.
  - destruct (Ascii.eqb a sep).
    + intros [->|Hp]%elem_of_cons; [simpl; tauto|]. apply IH; tauto.
    + destruct (strings_Split s sep) as [|q qs] eqn:Hs.
      * intros ->%list_elem_of_singleton. simpl. tauto.
      * intros [->|Hp]%elem_of_cons.
        -- simpl. intros [<-|Hin]; [tauto|].
           apply (IH q); [tauto|by left|done].
        -- apply IH; [tauto|by right].
Qed.

(** X30.  Reading the metadata flag.  For pairs whose keys hold neither
    comma nor equals sign, whose values hold no comma, and which
    [strings.TrimSpace] leaves as they are, [parseMetadata] of
    "k1=v1,k2=v2,..." is the map of these pairs, a later pair replacing an
    earlier one with the same key; a value may hold equals signs.  A flag
    without any equals sign gives the empty map: pieces that are no pair are
    dropped without an error. *)
Theorem parseMetadata_flag_of (TrimSpace : string -> string)
  (kvs : list (string * string)) (flag : string) :
  (Forall (fun kv => free_of comma kv.1 /\ free_of equals kv.1 /\ free_of comma kv.2 /\
                     TrimSpace kv.1 = kv.1 /\ TrimSpace kv.2 = kv.2) kvs ->
   parseMetadata TrimSpace (flag_of kvs) = list_to_map (reverse kvs)) /\
  (free_of equals flag -> parseMetadata TrimSpace flag = ∅).
Proof.
  split.
  - intros Hok. unfold parseMetadata, flag_of.
    destruct kvs as [|kv0 kvs0] eqn:Hkvs; [done|]. rewrite <- Hkvs in *.
    assert (kvs <> []) as Hne by (by rewrite Hkvs). clear Hkvs.
    rewrite bool_decide_eq_false_2.
    2:{ destruct kvs as [|[k v] [|kv' kvs']]; [done| |].
        - simpl. by destruct k.
        - change (String.concat (String comma "") _)
            with ((k +:+ String equals v) +:+ String comma
                    (String.concat (String comma "")
                       ((fun kv => kv.1 +:+ String equals kv.2) <$> kv' :: kvs'))).
          by destruct k. }
    rewrite strings_Split_concat.
    2:{ by destruct kvs. }
    2:{ apply Forall_fmap. eapply Forall_impl; [exact Hok|].
        intros [k v] (Hk & _ & Hv & _). simpl in *.
        apply free_of_append. split; [done|].
        unfold free_of in *. simpl. intros [Heq|Hin]; [discriminate Heq|done]. }
    clear Hne. revert Hok. induction kvs as [|kv kvs IH] using rev_ind; [done|].
    destruct kv as [k v]. intros Hok.
    apply Forall_app in Hok as [Hok Hkv]. rewrite Forall_singleton in Hkv.
    simpl in Hkv. destruct Hkv as (_ & Hk & _ & Htk & Htv).
    rewrite fmap_app, foldl_app, reverse_app. simpl.
    rewrite strings_SplitN2_cut by done. rewrite Htk, Htv, IH by done.
    done.
  - intros Hfree. unfold parseMetadata. case_bool_decide; [done|].
    assert (Forall (free_of equals) (strings_Split flag comma)) as Hpieces.
    { apply Forall_forall. intros p Hp. by eapply free_of_Split. }
    revert Hpieces. generalize (strings_Split flag comma) as ps.
    induction ps as [|p ps IH] using rev_ind; [done|].
    intros [Hps Hp%Forall_inv]%Forall_app.
    rewrite foldl_app. simpl. rewrite strings_SplitN2_free by done. by apply IH.
Qed.

(** * The further properties on the fixtures *)

(** X1 on Alice's "GitHub": created, it is read back by name at version 1
    with the data it was given. *)
Lemma CreateItem_then_read_witness :
  GetItemByName "U1" "GitHub" fixtures.db1 =
    Ok {| ID := "id-1"; UserID := "U1"; Type_ := DataTypeCredential; Name := "GitHub";
          EncryptedData := ["001"%byte]; Metadata := ∅;
          CreatedAt := 5 * fixtures.sec; UpdatedAt := 5 * fixtures.sec;
          Version := 1; Deleted := false |}.
Proof.
  destruct (CreateItem_then_read "id-1" (5 * fixtures.sec) (5 * fixtures.sec)
              (fixtures.github "U1" ["001"%byte] ∅)
              (CreateItem "id-1" (5 * fixtures.sec) (5 * fixtures.sec)
                 (fixtures.github "U1" ["001"%byte] ∅) fixtures.db0).1.2
              fixtures.db0 fixtures.db1) as (_ & _ & Hname & _).
  - reflexivity.
  - reflexivity.
  - exact Hname.
Defined.

(** X2 on the same name again: the statement is refused for the name, and
    the database is as it was. *)
Lemma CreateItem_failure_witness :
  (CreateItem "id-2" (30 * fixtures.sec) (30 * fixtures.sec)
     (fixtures.github "U1" ["004"%byte] ∅) fixtures.db1).2 = fixtures.db1.
Proof.
  destruct (CreateItem_failure "id-2" (30 * fixtures.sec) (30 * fixtures.sec)
              (fixtures.github "U1" ["004"%byte] ∅)
              (CreateItem "id-2" (30 * fixtures.sec) (30 * fixtures.sec)
                 (fixtures.github "U1" ["004"%byte] ∅) fixtures.db1).1.2
              fixtures.db1
              (CreateItem "id-2" (30 * fixtures.sec) (30 * fixtures.sec)
                 (fixtures.github "U1" ["004"%byte] ∅) fixtures.db1).2
              (pq_unique_violation "data_items_user_id_name_key")) as [Hdb _].
  - reflexivity.
  - exact Hdb.
Defined.

Lemma fixtures_db1_not_bobs (r : data_items.row) :
  r ∈ tbl_data_items fixtures.db1 -> data_items.id r = "id-1" ->
  data_items.user_id r <> "U2".
Proof.
  rewrite fixtures_db1. simpl. intros ->%list_elem_of_singleton _. discriminate.
Qed.

(** X3 with Bob and the id of Alice's item: nothing is deleted. *)
Lemma DeleteItem_not_owned_witness :
  DeleteItem (20 * fixtures.sec) "U2" "id-1" fixtures.db1 = (None, fixtures.db1).
Proof.
  apply (DeleteItem_not_owned (20 * fixtures.sec) "U2" "id-1" fixtures.db1).
  exact fixtures_db1_not_bobs.
Defined.

(** X5 with Bob and the id of Alice's item: a version conflict without
    tags, the conversion error with a tag, and nothing is updated. *)
Lemma UpdateItem_not_owned_witness :
  UpdateItem (20 * fixtures.sec) fixtures_more.bobs_item fixtures.db1 =
    (Some ErrVersionConflict,
     UpdateItem_stamp (20 * fixtures.sec) fixtures_more.bobs_item, fixtures.db1) /\
  UpdateItem (20 * fixtures.sec) (fixtures.tagged fixtures_more.bobs_item) fixtures.db1 =
    (Some (sql_unsupported_type 2),
     UpdateItem_stamp (20 * fixtures.sec) (fixtures.tagged fixtures_more.bobs_item),
     fixtures.db1).
Proof.
  split.
  - rewrite (UpdateItem_not_owned (20 * fixtures.sec) fixtures_more.bobs_item fixtures.db1)
      by exact fixtures_db1_not_bobs.
    by rewrite decide_True by reflexivity.
  - rewrite (UpdateItem_not_owned (20 * fixtures.sec)
               (fixtures.tagged fixtures_more.bobs_item) fixtures.db1)
      by exact fixtures_db1_not_bobs.
    by rewrite decide_False by apply map_non_empty_singleton.
Defined.

Lemma fixtures_db1_rows : tbl_data_items fixtures.db1 = [] ++ fixtures.row1 :: [].
Proof. by rewrite fixtures_db1. Qed.

Lemma fixtures_db1_names : unique_names fixtures.db1.
Proof. unfold unique_names. rewrite fixtures_db1. simpl. apply NoDup_singleton. Qed.

(** X6 on Alice's item, deleted at 20 s: no read by id finds it, and a sync
    from 10 s on carries the tombstone. *)
Lemma DeleteItem_then_reads_witness :
  exists db',
    DeleteItem (20 * fixtures.sec) "U1" "id-1" fixtures.db1 = (None, db') /\
    GetItem "U1" "id-1" db' = Err ErrItemNotFound /\
    exists items,
      GetItemsModifiedAfter "U1" (10 * fixtures.sec) db' = Ok items /\
      scan_item (tombstoned (20 * fixtures.sec) fixtures.row1) ∈ items.
Proof.
  destruct (DeleteItem_then_reads (20 * fixtures.sec) (10 * fixtures.sec) "" fixtures.db1
              [] [] fixtures.row1 fixtures_db1_key fixtures_db1_names fixtures_db1_rows)
    as (db' & Hdel & _ & Hget & _ & _ & Hsync).
  exists db'. split; [exact Hdel|]. split; [exact Hget|].
  apply Hsync. by vm_compute.
Defined.

Lemma fixtures_db1_keys_ok : keys_ok fixtures.db1.
Proof.
  split; [exact fixtures_db1_key|]. split; [exact fixtures_db1_names|].
  intros r. rewrite fixtures_db1. simpl. intros ->%list_elem_of_singleton.
  simpl. apply elem_of_cons. by left.
Qed.

(** X10 on the fixture: the keys hold after Alice's update. *)
Lemma keys_ok_kept_witness :
  keys_ok (UpdateItem (23 * fixtures.sec / 2) fixtures.item1' fixtures.db1).2.
Proof.
  destruct (keys_ok_kept fixtures.db1 fixtures_db1_keys_ok) as (_ & Hupd & _).
  exact (Hupd (23 * fixtures.sec / 2) fixtures.item1').
Defined.

Lemma carol_is_new :
  ~ ("carol" ∈ (users.username <$> tbl_users fixtures.db0)) /\
  ~ ("U3" ∈ (users.id <$> tbl_users fixtures.db0)).
Proof.
  split; simpl; rewrite !elem_of_cons, elem_of_nil; intros [H|[H|[]]]; discriminate H.
Qed.

(** X14 with Carol: created, she is found by name. *)
Lemma CreateUser_then_lookup_witness :
  exists db',
    CreateUser "U3" (40 * fixtures.sec) (40 * fixtures.sec) "carol" "$2a$10$c" fixtures.db0
      = (Ok {| models_User.ID := "U3"; models_User.Username := "carol";
               models_User.PasswordHash := "$2a$10$c";
               models_User.CreatedAt := 40 * fixtures.sec;
               models_User.UpdatedAt := 40 * fixtures.sec |}, db') /\
    GetUserByUsername "carol" db'
      = Ok {| models_User.ID := "U3"; models_User.Username := "carol";
              models_User.PasswordHash := "$2a$10$c";
              models_User.CreatedAt := 40 * fixtures.sec;
              models_User.UpdatedAt := 40 * fixtures.sec |}.
Proof.
  destruct (CreateUser_then_lookup "U3" (40 * fixtures.sec) (40 * fixtures.sec)
              "carol" "$2a$10$c" fixtures.db0 (proj1 carol_is_new) (proj2 carol_is_new))
    as (db' & Hcreate & Hname & _).
  exists db'. split; [exact Hcreate | exact Hname].
Defined.

Lemma fixtures_key_ok : aes_key_size_ok (length fixtures.key) = true.
Proof. reflexivity. Qed.

Lemma fixtures_plaintext_fits :
  (N.of_nat (length fixtures.plaintext) <= gcmMaxPlaintext)%N.
Proof. by vm_compute. Qed.

(** X18 on the test double: the greeting, encrypted under the key of
    stars, decrypts to the greeting. *)
Lemma Encrypt_Decrypt_roundtrip_witness :
  exists ct r',
    @Encrypt toy.provider fixtures.plaintext fixtures.key fixtures.entropy = (Ok ct, r') /\
    @Decrypt toy.provider ct fixtures.key = Ok fixtures.plaintext /\
    length ct = (12 + length fixtures.plaintext + 16)%nat.
Proof.
  assert (NonceSize <= length fixtures.entropy)%nat as Hr by (vm_compute; lia).
  pose proof (Encrypt_enough (C := toy.provider) fixtures.plaintext fixtures.key
                fixtures.entropy fixtures_key_ok Hr fixtures_plaintext_fits) as Henc.
  destruct (Encrypt_Decrypt_roundtrip (C := toy.provider) (L := toy_laws)
              fixtures.plaintext fixtures.key _ fixtures.entropy _ Henc)
    as (Hdec & _ & Hlen & _).
  eexists _, _. split; [exact Henc|]. split; [exact Hdec | exact Hlen].
Defined.

(** X19 on a random source that ends right after the salt: [io.EOF]. *)
Lemma EncryptWithPassword_failures_witness :
  @EncryptWithPassword toy.provider fixtures.plaintext "mypassword"
    (take 32 fixtures.entropy) = (Err io_EOF, []).
Proof.
  destruct (EncryptWithPassword_failures (C := toy.provider) (L := toy_laws)
              fixtures.plaintext "mypassword" (take 32 fixtures.entropy)
              fixtures_plaintext_fits) as (Hshort & _).
  rewrite Hshort by (vm_compute; lia).
  rewrite bool_decide_eq_true_2; [reflexivity|]. right. reflexivity.
Defined.

(** X22 on the test double: Alice stores the greeting as "GitHub" and reads
    it back by name. *)
Lemma AddItem_GetItem_Decrypt_witness :
  exists blob db' item,
    (@EncryptWithPassword toy.provider fixtures.plaintext "mypassword" fixtures.entropy).1
      = Ok blob /\
    (handlers.AddItem (Ok fixtures.alice_claims) (fixtures_more.add_req blob) "id-1"
       (5 * fixtures.sec) (5 * fixtures.sec) fixtures.db0).2 = db' /\
    handlers.GetItem (Ok fixtures.alice_claims)
      {| GetItemRequest.Token := "t"; GetItemRequest.ItemId := "";
         GetItemRequest.Name := "GitHub" |} db'
      = handlers.Reply {| GetItemResponse.Item := item |} /\
    @DecryptWithPassword toy.provider (pb.DataItem.EncryptedData item) "mypassword"
      = Ok fixtures.plaintext.
Proof.
  assert (SaltSize + NonceSize <= length fixtures.entropy)%nat as Hr by (vm_compute; lia).
  pose proof (EncryptWithPassword_enough (C := toy.provider) (L := toy_laws)
                fixtures.plaintext "mypassword" fixtures.entropy Hr
                fixtures_plaintext_fits) as Henc.
  cbv zeta in Henc.
  destruct (AddItem_GetItem_Decrypt (C := toy.provider) (L := toy_laws)
              fixtures.plaintext "mypassword" fixtures.entropy _ _
              fixtures.alice_claims (fixtures_more.add_req _) "id-1" "t"
              (5 * fixtures.sec) (5 * fixtures.sec) fixtures.db0 _ _
              Henc eq_refl eq_refl) as (_ & _ & Hname & Hdec).
  eexists _, _, _. split; [by rewrite Henc|]. split; [reflexivity|].
  split; [apply Hname; discriminate | exact Hdec].
Defined.

(** X23 on Alice's item: an update without metadata is applied and leaves
    the row without metadata; the same update with a tag is refused. *)
Lemma UpdateItem_handler_overwrites_witness :
  (exists db',
     server.UpdateItem (Ok fixtures.alice_claims) fixtures_more.upd_req
       (23 * fixtures.sec / 2) fixtures.db1
       = (Ok {| pb.UpdateItemResponse.Message := "item updated successfully";
                pb.UpdateItemResponse.NewVersion := 2 |}, db') /\
     data_items.metadata <$> tbl_data_items db' = [None]) /\
  server.UpdateItem (Ok fixtures.alice_claims) fixtures_more.tagged_req
    (23 * fixtures.sec / 2) fixtures.db1
    = (Err (fmt_Errorf_w "failed to update item" (sql_unsupported_type 2)), fixtures.db1).
Proof.
  split.
  - destruct (UpdateItem_handler_overwrites (23 * fixtures.sec / 2) fixtures.db1 [] []
                fixtures.row1 fixtures.alice_claims fixtures_more.upd_req
                fixtures_db1_key fixtures_db1_rows eq_refl eq_refl eq_refl)
      as (_ & Hlive & _).
    eexists. split; [apply Hlive; [reflexivity | split; by vm_compute]|]. reflexivity.
  - destruct (UpdateItem_handler_overwrites (23 * fixtures.sec / 2) fixtures.db1 [] []
                fixtures.row1 fixtures.alice_claims fixtures_more.tagged_req
                fixtures_db1_key fixtures_db1_rows eq_refl eq_refl eq_refl)
      as (Htagged & _).
    apply Htagged. apply map_non_empty_singleton.
Defined.

(** X25 with Carol: she registers, logs in with her password, and is turned
    away with another. *)
Lemma Register_then_Login_witness :
  exists db',
    handlers.Register fixtures_more.carol_req (Ok "$2a$10$c") "U3"
      (40 * fixtures.sec) (40 * fixtures.sec) (Ok "token-1") fixtures.db0
      = (handlers.Reply {| RegisterResponse.UserId := "U3";
                           RegisterResponse.Token := "token-1";
                           RegisterResponse.Message := "registration successful" |}, db') /\
    handlers.Login {| LoginRequest.Username := "carol";
                      LoginRequest.Password := "correct horse" |}
      fixtures_more.check (Ok "token-2") db'
      = handlers.Reply {| LoginResponse.UserId := "U3"; LoginResponse.Token := "token-2";
                          LoginResponse.Message := "login successful" |} /\
    handlers.Login {| LoginRequest.Username := "carol"; LoginRequest.Password := "guess" |}
      fixtures_more.check (Ok "token-3") db'
      = handlers.Reply {| LoginResponse.UserId := ""; LoginResponse.Token := "";
                          LoginResponse.Message := "invalid credentials" |}.
Proof.
  destruct (Register_then_Login fixtures_more.carol_req "$2a$10$c" "U3" "token-1"
              (40 * fixtures.sec) (40 * fixtures.sec) fixtures.db0)
    as (db' & Hreg & Hlogin & _).
  - discriminate.
  - discriminate.
  - exact (proj1 carol_is_new).
  - exact (proj2 carol_is_new).
  - exists db'. split; [exact Hreg|]. split.
    + refine (Hlogin fixtures_more.check "correct horse" "token-2" _). discriminate.
    + refine (Hlogin fixtures_more.check "guess" "token-3" _). discriminate.
Defined.
